(** * ExistentialTransform: existential arguments turned into generic ones

    A shallow embedding of
    [lib/SILOptimizer/FunctionSignatureTransforms/ExistentialTransform.cpp].

    The pass builds SIL; it does not run it.  The embedding therefore keeps
    the IR the pass constructs as data (values, instructions, blocks,
    functions) and turns every builder call of the source into the value or
    instruction it creates.  Assertions and [llvm_unreachable] are the [None]
    of an [option].  Debug scopes and source locations are left out, and with
    them the assertion on debug-scope parents that ends the driver. *)

From stdpp Require Import base option list gmap strings pretty.

Set Default Proof Using "Type".

(** ** AST types *)

(** [GenericTypeParamType::getType(Depth, Index, Ctx)]. *)
Record GenericTypeParamType : Type := mkGP { gpDepth : nat; gpIndex : nat }.

(** The canonical AST types the pass looks at.  [ProtocolType] stands for any
    bare constraint type (a protocol, a composition, a composition with a
    superclass); [ExistentialType] is the explicit [any P] wrapper around a
    constraint.  [ExistentialArchetypeType] is the archetype that
    [ExistentialArchetypeType::getAny] opens for an existential type; every
    call opens a fresh one, which the model names by the index of the
    argument it was opened for. *)
Inductive CanType : Type :=
| NominalType (name : string)
| ProtocolType (name : string)
| ExistentialType (constraint : CanType)
| GenericTypeParam (gp : GenericTypeParamType)
| PrimaryArchetypeType (gp : GenericTypeParamType)
| ExistentialArchetypeType (existential : CanType) (openedFor : nat).

(** [isExistentialType()] and [isAnyExistentialType()] on these types: the
    bare constraints and their [any] wrappers are the existential types. *)
Definition isExistentialType (t : CanType) : bool :=
  match t with
  | ProtocolType _ | ExistentialType _ => true
  | _ => false
  end.

Definition isAnyExistentialType (t : CanType) : bool := isExistentialType t.

(** [PType->getAs<ExistentialType>()] followed by [getConstraintType()]. *)
Definition getAsExistentialType (t : CanType) : option CanType :=
  match t with
  | ExistentialType c => Some c
  | _ => None
  end.

Inductive RequirementKind : Type :=
| Conformance | Superclass | SameType | Layout | SameShape.

Record Requirement : Type := mkRequirement {
  reqKind : RequirementKind;
  reqSubject : GenericTypeParamType;
  reqConstraint : CanType
}.

(** A generic signature: its generic parameters and its requirements.  The
    null signature of a function that is not generic has neither. *)
Record GenericSignature : Type := mkGenericSignature {
  getGenericParams : list GenericTypeParamType;
  getRequirements : list Requirement
}.

(** Modelled from the spec: [GenericSignature::getNextDepth], which is
    declared outside [ExistentialTransform.cpp].  The spec asks for "a nesting depth strictly greater than the
    original function's deepest existing generic parameter depth"; a function
    without generic parameters starts at depth 0. *)
Definition getNextDepth (sig : GenericSignature) : nat :=
  match getGenericParams sig with
  | [] => 0
  | gps => S (foldr Nat.max 0 (gpDepth <$> gps))
  end.

(** A substitution map gives each generic parameter of a signature its
    replacement type. *)
Definition SubstitutionMap : Type := list (GenericTypeParamType * CanType).

(** ** SIL types *)

Inductive SILValueCategory : Type := Object | Address.

Record SILType : Type := mkSILType {
  getASTType : CanType;
  getCategory : SILValueCategory
}.

Definition isObject (t : SILType) : bool :=
  match getCategory t with Object => true | Address => false end.

Definition getObjectType (t : SILType) : SILType :=
  mkSILType (getASTType t) Object.

Definition getCategoryType (t : SILType) (c : SILValueCategory) : SILType :=
  mkSILType (getASTType t) c.

Inductive ParameterConvention : Type :=
| Indirect_In | Indirect_Inout | Indirect_InoutAliasable
| Indirect_In_Guaranteed | Indirect_In_CXX
| Direct_Owned | Direct_Unowned | Direct_Guaranteed
| Pack_Guaranteed | Pack_Owned | Pack_Inout.

Inductive SILArgumentConvention : Type :=
| Arg_Indirect_In | Arg_Indirect_In_Guaranteed | Arg_Indirect_Inout
| Arg_Indirect_InoutAliasable | Arg_Indirect_In_CXX | Arg_Indirect_Out
| Arg_Direct_Owned | Arg_Direct_Unowned | Arg_Direct_Guaranteed
| Arg_Pack_Inout | Arg_Pack_Guaranteed | Arg_Pack_Owned | Arg_Pack_Out.

Record SILParameterInfo : Type := mkSILParameterInfo {
  paramInterfaceType : CanType;
  paramConvention : ParameterConvention
}.

Record SILResultInfo : Type := mkSILResultInfo {
  resultInterfaceType : CanType;
  resultConvention : nat
}.

Inductive SILFunctionTypeRepresentation : Type :=
| Thick | Block | Thin | CFunctionPointer | Method | ObjCMethod
| WitnessMethod | Closure.

(** [ExtInfo]: the representation and the remaining bits, which the pass
    carries over untouched. *)
Record SILExtInfo : Type := mkExtInfo {
  getRepresentation : SILFunctionTypeRepresentation;
  extOtherBits : nat
}.

Definition withRepresentation
    (rep : SILFunctionTypeRepresentation) (e : SILExtInfo) : SILExtInfo :=
  mkExtInfo rep (extOtherBits e).

Record SILFunctionType : Type := mkSILFunctionType {
  getInvocationGenericSignature : GenericSignature;
  getExtInfo : SILExtInfo;
  getCoroutineKind : nat;
  getCalleeConvention : ParameterConvention;
  getParameters : list SILParameterInfo;
  getYields : list SILParameterInfo;
  getResults : list SILResultInfo;
  getErrorResult : option SILResultInfo;
  getPatternSubstitutions : SubstitutionMap;
  getInvocationSubstitutions : SubstitutionMap
}.

Definition hasErrorResult (t : SILFunctionType) : bool :=
  match getErrorResult t with Some _ => true | None => false end.

(** Canonical types are uniqued in the compiler, so the pointer comparison of
    two function types is their structural equality. *)
#[global] Instance GenericTypeParamType_eq_dec : EqDecision GenericTypeParamType.
Proof. solve_decision. Defined.
#[global] Instance CanType_eq_dec : EqDecision CanType.
Proof. solve_decision. Defined.
#[global] Instance RequirementKind_eq_dec : EqDecision RequirementKind.
Proof. solve_decision. Defined.
#[global] Instance Requirement_eq_dec : EqDecision Requirement.
Proof. solve_decision. Defined.
#[global] Instance GenericSignature_eq_dec : EqDecision GenericSignature.
Proof. solve_decision. Defined.
#[global] Instance ParameterConvention_eq_dec : EqDecision ParameterConvention.
Proof. solve_decision. Defined.
#[global] Instance SILParameterInfo_eq_dec : EqDecision SILParameterInfo.
Proof. solve_decision. Defined.
#[global] Instance SILResultInfo_eq_dec : EqDecision SILResultInfo.
Proof. solve_decision. Defined.
#[global] Instance SILFunctionTypeRepresentation_eq_dec :
  EqDecision SILFunctionTypeRepresentation.
Proof. solve_decision. Defined.
#[global] Instance SILExtInfo_eq_dec : EqDecision SILExtInfo.
Proof. solve_decision. Defined.
#[global] Instance SILFunctionType_eq_dec : EqDecision SILFunctionType.
Proof. solve_decision. Defined.

(** ** SIL values, instructions, blocks and functions *)

Inductive OwnershipKind : Type :=
| OwnershipKind_Any | OwnershipKind_Unowned | OwnershipKind_Owned
| OwnershipKind_Guaranteed | OwnershipKind_None.

#[global] Instance OwnershipKind_eq_dec : EqDecision OwnershipKind.
Proof. solve_decision. Defined.

Inductive ExistentialRepresentation : Type :=
| Repr_None | Repr_Opaque | Repr_Class | Repr_Metatype | Repr_Boxed.

Inductive OpenedExistentialAccess : Type := Immutable | Mutable.

Inductive IsTake_t : Type := IsNotTake | IsTake.
Inductive IsInitialization_t : Type := IsNotInitialization | IsInitialization.
Inductive LoadOwnershipQualifier : Type :=
| Load_Unqualified | Load_Take | Load_Copy | Load_Trivial.
Inductive StoreOwnershipQualifier : Type :=
| Store_Unqualified | Store_Init | Store_Assign | Store_Trivial.

(** A source-level declaration handle ([ValueDecl *], possibly null), a
    conformance, and the flags [SILFunctionArgument::copyFlags] carries over
    are opaque to the pass. *)
Definition ValueDecl : Type := string.
Definition ProtocolConformanceRef : Type := string.
Record ArgumentFlags : Type := mkArgumentFlags { flagBits : nat }.

Record SILFunctionArgument : Type := mkSILFunctionArgument {
  argIndex : nat;
  argType : SILType;
  argDecl : option ValueDecl;
  argOwnershipKind : OwnershipKind;
  argFlags : ArgumentFlags
}.

(** [NewArg->copyFlags(ArgDesc.Arg)]. *)
Definition copyFlags (from : SILFunctionArgument) (a : SILFunctionArgument)
    : SILFunctionArgument :=
  mkSILFunctionArgument (argIndex a) (argType a) (argDecl a)
    (argOwnershipKind a) (argFlags from).

(** A value is named by what defines it.  [alloc_stack] carries the position
    at which it was inserted in its block, since two slots of one type are two
    slots.  The [emit...Operation] helpers of [SILBuilder] choose the
    instruction themselves; the model records the call. *)
#[warnings="-register-all"] Inductive SILValue : Type :=
| FunctionArgument (a : SILFunctionArgument)
| PhiArgument (bb : nat) (ty : SILType) (k : OwnershipKind)
| AllocStackInst (id : nat) (ty : SILType)
| InitExistentialAddrInst (existential : SILValue) (formalConcreteType : CanType)
    (loweredConcreteType : SILType) (conformances : list ProtocolConformanceRef)
| LoadValueOperation (addr : SILValue) (qual : LoadOwnershipQualifier)
| CopyValueOperation (v : SILValue)
| InitExistentialRefInst (existentialType : SILType) (formalConcreteType : CanType)
    (concrete : SILValue) (conformances : list ProtocolConformanceRef)
| OpenExistentialAddrInst (operand : SILValue) (selfTy : SILType)
    (access : OpenedExistentialAccess)
| OpenExistentialRefInst (operand : SILValue) (ty : SILType)
| FunctionRefInst (callee : string)
| ApplyInst (callee : SILValue) (subs : SubstitutionMap) (args : list SILValue)
| ClonedValue (n : nat).

Inductive SILInstruction : Type :=
| ValueInst (v : SILValue)
| CopyAddrInst (src dest : SILValue) (isTake : IsTake_t)
    (isInit : IsInitialization_t)
| StoreValueOperation (src dest : SILValue) (qual : StoreOwnershipQualifier)
| DestroyOperation (v : SILValue)
| DeallocStackInst (operand : SILValue)
| ClonedInst (n : nat).

Inductive TermInst : Type :=
| ReturnInst (v : SILValue)
| ThrowInst (v : SILValue)
| UnreachableInst
| TryApplyInst (callee : SILValue) (subs : SubstitutionMap)
    (args : list SILValue) (normalBB errorBB : nat)
| OtherTerm (n : nat).

Record SILBasicBlock : Type := mkBB {
  bbArgs : list SILValue;
  bbInsts : list SILInstruction;
  bbTerm : option TermInst
}.

Inductive IsThunk_t : Type :=
| IsNotThunk | IsThunk | IsReabstractionThunk | IsSignatureOptimizedThunk
| IsBackDeployedThunk.

Inductive Inline_t : Type :=
| InlineDefault | NoInline | AlwaysInline | HeuristicAlwaysInline.

Inductive SILLinkage : Type :=
| Public | PublicNonABI | Package | PackageNonABI | Hidden | Shared | Private
| PublicExternal | PackageExternal | HiddenExternal.

Record SILFunction : Type := mkSILFunction {
  getName : string;
  getLoweredFunctionType : SILFunctionType;
  getGenericEnvironment : GenericSignature;
  getLinkage : SILLinkage;
  isBare : bool;
  isTransparent : bool;
  getSerializedKind : nat;
  getEntryCount : nat;
  isThunk : IsThunk_t;
  getClassSubclassScope : nat;
  getInlineStrategy : Inline_t;
  getEffectsKind : nat;
  getSemanticsAttrs : list string;
  hasOwnership : bool;
  getBlocks : list SILBasicBlock
}.

(** ** Descriptors handed in by the candidate selection *)

(** [ArgumentDescriptor].  [ArgConvention] is what
    [Arg->getArgumentConvention()] reads off the original function's type. *)
Record ArgumentDescriptor : Type := mkArgumentDescriptor {
  Arg : SILFunctionArgument;
  ArgConvention : SILArgumentConvention;
  Index : nat;
  Decl : option ValueDecl
}.

Record ExistentialTransformArgumentDescriptor : Type := mkETAD {
  AccessType : OpenedExistentialAccess;
  isConsumed : bool
}.

(** [ExistentialArgDescriptor] is a [SmallDenseMap<int, ...>].  The pass both
    looks keys up in it and iterates over it, and a dense map iterates in
    bucket order, not in key order.  The model is the list of its entries in
    iteration order; a well-formed map has no key twice. *)
Definition ExistentialArgDescriptorMap : Type :=
  list (nat * ExistentialTransformArgumentDescriptor).

Fixpoint findDescriptor (Idx : nat) (m : ExistentialArgDescriptorMap)
    : option ExistentialTransformArgumentDescriptor :=
  match m with
  | [] => None
  | (k, d) :: m' => if decide (k = Idx) then Some d else findDescriptor Idx m'
  end.

(** [ExistentialArgDescriptor[Idx]]: [operator[]] value-initialises the entry
    of a missing key. *)
Definition descriptorAt (Idx : nat) (m : ExistentialArgDescriptorMap)
    : ExistentialTransformArgumentDescriptor :=
  default (mkETAD Immutable false) (findDescriptor Idx m).

(** [DenseMap::insert] leaves an existing entry alone. *)
Definition denseInsert `{Countable K} {V} (k : K) (v : V) (m : gmap K V)
    : gmap K V :=
  match m !! k with
  | Some _ => m
  | None => <[k := v]> m
  end.

#[global] Instance GenericTypeParamType_countable : Countable GenericTypeParamType.
Proof.
  refine (inj_countable' (fun g => (gpDepth g, gpIndex g))
            (fun p => mkGP p.1 p.2) _).
  by intros [].
Defined.

(** ** The collaborators of the pass

    Everything the pass calls that lives elsewhere in the compiler: the
    mangler, type lowering, the generic-signature builder, the conformance
    lookup, the ownership classifier and the generic body cloner.  The pass is
    verified for any behaviour of these. *)
Record Collaborators : Type := mkCollaborators {
  ManglerT : Type;
  setArgumentExistentialToGeneric : nat -> ManglerT -> ManglerT;
  mangle : ManglerT -> string;
  (** [param.getArgumentType(M, FTy, context)] *)
  getArgumentType : SILParameterInfo -> SILFunctionType -> CanType;
  (** [buildGenericSignature(Ctx, OrigGenericSig, params, reqs, true)] *)
  buildGenericSignature :
    GenericSignature -> list GenericTypeParamType -> list Requirement ->
    GenericSignature;
  (** [GenericParam->getReducedType(NewGenericSig)] *)
  getReducedType : GenericTypeParamType -> GenericSignature -> CanType;
  (** [NewF.mapTypeIntoContext(Ty)], in the generic environment of [NewF] *)
  mapTypeIntoContext : GenericSignature -> CanType -> CanType;
  (** [NewF.getLoweredType(Ty)] *)
  getLoweredType : CanType -> SILType;
  getPreferredExistentialRepresentation : SILType -> ExistentialRepresentation;
  collectExistentialConformances :
    CanType -> CanType -> list ProtocolConformanceRef;
  (** [ValueOwnershipKind(NewF, Ty, Convention)] *)
  ValueOwnershipKind : SILType -> SILArgumentConvention -> OwnershipKind;
  (** the ownership [createFunctionArgument(Ty, Decl)] gives the argument it
      creates at a position of a function of the given type *)
  functionArgumentOwnership : SILFunctionType -> nat -> SILType -> OwnershipKind;
  (** [SILValue::getOwnershipKind()] *)
  getOwnershipKind : SILValue -> OwnershipKind;
  (** [cloneFunctionBody(&Original, NewEntryBB, entryArgs)] in the cloner of
      the new function: the blocks of the new function once the body of the
      original is cloned behind the prolog *)
  cloneFunctionBody :
    SILFunction -> SILFunction -> SILBasicBlock -> list SILValue ->
    list SILBasicBlock;
  (** whether [findExitingBlocks] reports a block that ends in this
      terminator *)
  isFunctionExiting : TermInst -> bool;
  (** [getSpecializedLinkage(F, F->getLinkage())] *)
  getSpecializedLinkage : SILFunction -> SILLinkage;
  getForwardingSubstitutionMap : SILFunction -> SubstitutionMap;
  (** [Type(GP).subst(OrigSubMap)] *)
  substGenericParam : GenericTypeParamType -> SubstitutionMap -> CanType;
  (** [Conv.getSILResultType(context)] for the callee type under [SubMap] *)
  getSILResultType : SILFunctionType -> SubstitutionMap -> SILType;
  (** [Conv.getSILType(errorResult, context)] *)
  getSILErrorType :
    SILFunctionType -> SubstitutionMap -> SILResultInfo -> SILType;
  (** [NewF->isNoReturnFunction(context)], a property of the lowered type *)
  isNoReturnFunction : SILFunctionType -> bool
}.

Section Transform.

Context (E : Collaborators).

(** ** Naming *)

(** [ExistentialTransform::createExistentialSpecializedFunctionName] *)
Definition createExistentialSpecializedFunctionName
    (Mangler : ManglerT E)
    (ExistentialArgDescriptor : ExistentialArgDescriptorMap) : string :=
  mangle E
    (foldl (fun m IdxIt => setArgumentExistentialToGeneric E (fst IdxIt) m)
           Mangler ExistentialArgDescriptor).

(** ** The generic signature *)

(** What the loop of [convertExistentialArgTypesToGenericArgTypes] carries:
    the two output vectors, the index-to-parameter map and [GPIdx]. *)
Record ConvertState : Type := mkConvertState {
  genericParams : list GenericTypeParamType;
  requirements : list Requirement;
  ArgToGenericTypeMap : gmap nat GenericTypeParamType;
  GPIdx : nat
}.

(** One turn of the loop.  [params[Idx]] past the end and a parameter type
    that is no existential are assertion failures. *)
Definition convertExistentialArg (FTy : SILFunctionType) (Depth : nat)
    (st : ConvertState) (Idx : nat) : option ConvertState :=
  param ← getParameters FTy !! Idx;
  let PType := getArgumentType E param FTy in
  if isExistentialType PType then
    let constraint := default PType (getAsExistentialType PType) in
    let NewGenericParam := mkGP Depth (GPIdx st) in
    Some (mkConvertState
            (genericParams st ++ [NewGenericParam])
            (requirements st ++ [mkRequirement Conformance NewGenericParam constraint])
            (denseInsert Idx NewGenericParam (ArgToGenericTypeMap st))
            (S (GPIdx st)))
  else None.

Fixpoint convertLoop (FTy : SILFunctionType) (Depth : nat)
    (Idxs : list nat) (st : ConvertState) : option ConvertState :=
  match Idxs with
  | [] => Some st
  | Idx :: rest =>
      st' ← convertExistentialArg FTy Depth st Idx;
      convertLoop FTy Depth rest st'
  end.

(** [ExistentialTransform::convertExistentialArgTypesToGenericArgTypes].  The
    vectors come in empty and so does the map of a fresh transform. *)
Definition convertExistentialArgTypesToGenericArgTypes
    (F : SILFunction) (ExistentialArgDescriptor : ExistentialArgDescriptorMap)
    : option ConvertState :=
  let FTy := getLoweredFunctionType F in
  let OrigGenericSig := getInvocationGenericSignature FTy in
  let Depth := getNextDepth OrigGenericSig in
  convertLoop FTy Depth (fst <$> ExistentialArgDescriptor)
    (mkConvertState [] [] ∅ 0).

(** ** The type of the specialized function *)

(** The loop that builds [InterfaceParams]; [Idx] counts the parameters. *)
Fixpoint interfaceParams (NewGenericSig : GenericSignature)
    (ArgMap : gmap nat GenericTypeParamType)
    (Idx : nat) (params : list SILParameterInfo) : list SILParameterInfo :=
  match params with
  | [] => []
  | param :: rest =>
      (match ArgMap !! Idx with
       | Some GenericParam =>
           mkSILParameterInfo (getReducedType E GenericParam NewGenericSig)
                              (paramConvention param)
       | None => param
       end) :: interfaceParams NewGenericSig ArgMap (S Idx) rest
  end.

(** [ExistentialTransform::createExistentialSpecializedFunctionType]; it also
    leaves [ArgToGenericTypeMap] filled. *)
Definition createExistentialSpecializedFunctionType
    (F : SILFunction) (ExistentialArgDescriptor : ExistentialArgDescriptorMap)
    : option (SILFunctionType * gmap nat GenericTypeParamType) :=
  let FTy := getLoweredFunctionType F in
  let OrigGenericSig := getInvocationGenericSignature FTy in
  st ← convertExistentialArgTypesToGenericArgTypes F ExistentialArgDescriptor;
  let NewGenericSig :=
    buildGenericSignature E OrigGenericSig (genericParams st) (requirements st) in
  let InterfaceParams :=
    interfaceParams NewGenericSig (ArgToGenericTypeMap st) 0 (getParameters FTy) in
  let InterfaceErrorResult :=
    if hasErrorResult FTy then getErrorResult FTy else None in
  let ExtInfo := withRepresentation Thin (getExtInfo FTy) in
  Some (mkSILFunctionType NewGenericSig ExtInfo (getCoroutineKind FTy)
          (getCalleeConvention FTy) InterfaceParams (getYields FTy)
          (getResults FTy) InterfaceErrorResult [] [],
        ArgToGenericTypeMap st).

(** ** Builder primitives

    A builder appends to the block it is positioned in; the terminator of a
    block is kept apart from its other instructions, so that inserting before
    the terminator is appending too. *)

Definition emit (i : SILInstruction) (bb : SILBasicBlock) : SILBasicBlock :=
  mkBB (bbArgs bb) (bbInsts bb ++ [i]) (bbTerm bb).

Definition createValue (v : SILValue) (bb : SILBasicBlock)
    : SILValue * SILBasicBlock :=
  (v, emit (ValueInst v) bb).

Definition createAllocStack (ty : SILType) (bb : SILBasicBlock)
    : SILValue * SILBasicBlock :=
  createValue (AllocStackInst (length (bbInsts bb)) ty) bb.

Definition addArgument (a : SILFunctionArgument) (bb : SILBasicBlock)
    : SILBasicBlock :=
  mkBB (bbArgs bb ++ [FunctionArgument a]) (bbInsts bb) (bbTerm bb).

Definition setTerminator (t : TermInst) (bb : SILBasicBlock) : SILBasicBlock :=
  mkBB (bbArgs bb) (bbInsts bb) (Some t).

Definition noFlags : ArgumentFlags := mkArgumentFlags 0.

(** The type of a block argument. *)
Definition getType (v : SILValue) : option SILType :=
  match v with
  | FunctionArgument a => Some (argType a)
  | PhiArgument _ ty _ => Some ty
  | _ => None
  end.

(** ** The body cloner *)

(** The cloner's entry block under construction, its two cleanup lists and
    the values that stand for the original arguments in the cloned body. *)
Record ClonerState : Type := mkClonerState {
  ClonedEntryBB : SILBasicBlock;
  AllocStackInsts : list SILValue;
  CleanupValues : list SILValue;
  entryArgs : list SILValue
}.

Definition isUnowned (k : OwnershipKind) : bool :=
  bool_decide (k = OwnershipKind_Unowned).

(** One turn of the loop of [cloneArguments]. *)
Definition cloneArgument (NewF : SILFunction)
    (ArgMap : gmap nat GenericTypeParamType)
    (ExistentialArgDescriptor : ExistentialArgDescriptorMap)
    (st : ClonerState) (ArgDesc : ArgumentDescriptor) : option ClonerState :=
  let NewFTy := getLoweredFunctionType NewF in
  let params := getParameters NewFTy in
  let bb := ClonedEntryBB st in
  match ArgMap !! Index ArgDesc with
  | None =>
      (* Clone arguments that are not rewritten. *)
      param ← params !! Index ArgDesc;
      let Ty := getArgumentType E param NewFTy in
      let LoweredTy :=
        getLoweredType E (mapTypeIntoContext E (getGenericEnvironment NewF) Ty) in
      let MappedTy :=
        getCategoryType LoweredTy (getCategory (argType (Arg ArgDesc))) in
      let NewArg :=
        copyFlags (Arg ArgDesc)
          (mkSILFunctionArgument (length (bbArgs bb)) MappedTy (Decl ArgDesc)
             (functionArgumentOwnership E NewFTy (length (bbArgs bb)) MappedTy)
             noFlags) in
      Some (mkClonerState (addArgument NewArg bb) (AllocStackInsts st)
              (CleanupValues st) (entryArgs st ++ [FunctionArgument NewArg]))
  | Some GenericParam =>
      (* Create the generic argument. *)
      let GenericSILType :=
        getCategoryType
          (getLoweredType E
             (mapTypeIntoContext E (getGenericEnvironment NewF)
                (GenericTypeParam GenericParam)))
          (getCategory (argType (Arg ArgDesc))) in
      let NewArg :=
        copyFlags (Arg ArgDesc)
          (mkSILFunctionArgument (length (bbArgs bb)) GenericSILType
             (Decl ArgDesc)
             (ValueOwnershipKind E GenericSILType (ArgConvention ArgDesc))
             noFlags) in
      let bb := addArgument NewArg bb in
      let ExistentialType := getObjectType (argType (Arg ArgDesc)) in
      let OpenedType := getASTType (argType NewArg) in
      if isAnyExistentialType OpenedType then None else
      let Conformances :=
        collectExistentialConformances E OpenedType (getASTType ExistentialType) in
      let ExistentialRepr :=
        getPreferredExistentialRepresentation E (argType (Arg ArgDesc)) in
      let EAD := descriptorAt (Index ArgDesc) ExistentialArgDescriptor in
      match ExistentialRepr with
      | Repr_Opaque =>
          let '(ASI, bb) := createAllocStack (argType (Arg ArgDesc)) bb in
          let AllocStackInsts' := AllocStackInsts st ++ [ASI] in
          let '(EAI, bb) :=
            createValue
              (InitExistentialAddrInst ASI (getASTType (argType NewArg))
                 (argType NewArg) Conformances) bb in
          let origConsumed := isConsumed EAD in
          (* If the existential is not consumed in the function body, then
             the one we introduce here needs cleanup. *)
          let CleanupValues' :=
            if negb origConsumed then CleanupValues st ++ [ASI]
            else CleanupValues st in
          let bb :=
            emit (CopyAddrInst (FunctionArgument NewArg) EAI
                    (if origConsumed then IsTake else IsNotTake)
                    IsInitialization) bb in
          Some (mkClonerState bb AllocStackInsts' CleanupValues'
                  (entryArgs st ++ [ASI]))
      | Repr_Class =>
          let NewArgValue := FunctionArgument NewArg in
          let origConsumed := isConsumed EAD in
          (* Load our object if needed. *)
          let '(NewArgValue, bb) :=
            if negb (isObject (argType NewArg)) then
              let qual :=
                if hasOwnership NewF && negb origConsumed then Load_Copy
                else Load_Take in
              createValue (LoadValueOperation (FunctionArgument NewArg) qual) bb
            else (NewArgValue, bb) in
          let '(NewArgValue, bb) :=
            if hasOwnership NewF && isUnowned (argOwnershipKind NewArg) then
              createValue (CopyValueOperation (FunctionArgument NewArg)) bb
            else (NewArgValue, bb) in
          let '(InitRef, bb) :=
            createValue
              (InitExistentialRefInst (getObjectType (argType (Arg ArgDesc)))
                 (getASTType (argType NewArg)) NewArgValue Conformances) bb in
          let CleanupValues' :=
            if hasOwnership NewF && isUnowned (argOwnershipKind NewArg)
            then CleanupValues st ++ [InitRef]
            else CleanupValues st in
          (* If we don't have an object, spill the reference. *)
          if negb (isObject (argType NewArg)) then
            let '(alloc, bb) :=
              createAllocStack (getObjectType (argType (Arg ArgDesc))) bb in
            let bb := emit (StoreValueOperation InitRef alloc Store_Init) bb in
            Some (mkClonerState bb (AllocStackInsts st ++ [alloc])
                    CleanupValues' (entryArgs st ++ [alloc]))
          else
            Some (mkClonerState bb (AllocStackInsts st) CleanupValues'
                    (entryArgs st ++ [InitRef]))
      | _ => None (* Unhandled existential type in ExistentialTransform! *)
      end
  end.

Fixpoint cloneArgumentsFrom (NewF : SILFunction)
    (ArgMap : gmap nat GenericTypeParamType)
    (ExistentialArgDescriptor : ExistentialArgDescriptorMap)
    (ArgumentDescList : list ArgumentDescriptor) (st : ClonerState)
    : option ClonerState :=
  match ArgumentDescList with
  | [] => Some st
  | ArgDesc :: rest =>
      st' ← cloneArgument NewF ArgMap ExistentialArgDescriptor st ArgDesc;
      cloneArgumentsFrom NewF ArgMap ExistentialArgDescriptor rest st'
  end.

(** [ExistentialSpecializerCloner::cloneArguments], from the fresh entry
    block and the empty lists of a fresh cloner. *)
Definition cloneArguments (NewF : SILFunction)
    (ArgMap : gmap nat GenericTypeParamType)
    (ExistentialArgDescriptor : ExistentialArgDescriptorMap)
    (ArgumentDescList : list ArgumentDescriptor) : option ClonerState :=
  cloneArgumentsFrom NewF ArgMap ExistentialArgDescriptor ArgumentDescList
    (mkClonerState (mkBB [] [] None) [] [] []).

(** The first loop at an exit: one destroy per cleanup value, each behind its
    assertion. *)
Fixpoint emitCleanupDestroys (cleanups : list SILValue) (bb : SILBasicBlock)
    : option SILBasicBlock :=
  match cleanups with
  | [] => Some bb
  | cleanupVal :: rest =>
      if decide (getOwnershipKind E cleanupVal = OwnershipKind_Guaranteed)
      then None
      else emitCleanupDestroys rest (emit (DestroyOperation cleanupVal) bb)
  end.

(** The second loop: [for (auto *ASI : llvm::reverse(AllocStackInsts))]. *)
Definition emitDeallocStacks (allocs : list SILValue) (bb : SILBasicBlock)
    : SILBasicBlock :=
  foldl (fun bb ASI => emit (DeallocStackInst ASI) bb) bb (reverse allocs).

Definition isExitingBlock (bb : SILBasicBlock) : bool :=
  match bbTerm bb with
  | Some t => isFunctionExiting E t
  | None => false
  end.

(** The body of [for (auto *exitBB : exitingBlocks)], applied to every block:
    blocks that are no exits stay as they are. *)
Definition cleanupAtExit (st : ClonerState) (bb : SILBasicBlock)
    : option SILBasicBlock :=
  if isExitingBlock bb then
    bb' ← emitCleanupDestroys (CleanupValues st) bb;
    Some (emitDeallocStacks (AllocStackInsts st) bb')
  else Some bb.

Definition setBlocks (F : SILFunction) (blocks : list SILBasicBlock)
    : SILFunction :=
  mkSILFunction (getName F) (getLoweredFunctionType F)
    (getGenericEnvironment F) (getLinkage F) (isBare F) (isTransparent F)
    (getSerializedKind F) (getEntryCount F) (isThunk F)
    (getClassSubclassScope F) (getInlineStrategy F) (getEffectsKind F)
    (getSemanticsAttrs F) (hasOwnership F) blocks.

(** [ExistentialSpecializerCloner::cloneAndPopulateFunction] *)
Definition cloneAndPopulateFunction (OrigF NewF : SILFunction)
    (ArgMap : gmap nat GenericTypeParamType)
    (ExistentialArgDescriptor : ExistentialArgDescriptorMap)
    (ArgumentDescList : list ArgumentDescriptor) : option SILFunction :=
  st ← cloneArguments NewF ArgMap ExistentialArgDescriptor ArgumentDescList;
  let body :=
    cloneFunctionBody E OrigF (setBlocks NewF [ClonedEntryBB st])
      (ClonedEntryBB st) (entryArgs st) in
  blocks ← mapM (cleanupAtExit st) body;
  Some (setBlocks NewF blocks).

(** ** The thunk builder *)

(** [struct Temp]: either entry may be the null value. *)
Record Temp : Type := mkTemp {
  DeallocStackEntry : option SILValue;
  DestroyValue : option SILValue
}.

Record ThunkState : Type := mkThunkState {
  ThunkBody : SILBasicBlock;
  ApplyArgs : list SILValue;
  Temps : list Temp;
  GenericToOpenedTypeMap : gmap GenericTypeParamType CanType
}.

(** The first loop over [ArgumentDescList]: the arguments of the thunk. *)
Definition createThunkArgument (F : SILFunction) (bb : SILBasicBlock)
    (ArgDesc : ArgumentDescriptor) : SILBasicBlock :=
  let argumentType := argType (Arg ArgDesc) in
  let NewArg :=
    copyFlags (Arg ArgDesc)
      (mkSILFunctionArgument (length (bbArgs bb)) argumentType (Decl ArgDesc)
         (functionArgumentOwnership E (getLoweredFunctionType F)
            (length (bbArgs bb)) argumentType)
         noFlags) in
  addArgument NewArg bb.

(** One turn of the second loop: the argument the apply receives. *)
Definition thunkArgument (F : SILFunction)
    (ArgMap : gmap nat GenericTypeParamType)
    (ExistentialArgDescriptor : ExistentialArgDescriptorMap)
    (st : ThunkState) (ArgDesc : ArgumentDescriptor) : option ThunkState :=
  let bb := ThunkBody st in
  match ArgMap !! Index ArgDesc, findDescriptor (Index ArgDesc) ExistentialArgDescriptor with
  | Some GenericParam, Some ETAD =>
      OrigOperand ← bbArgs bb !! Index ArgDesc;
      OrigOperandTy ← getType OrigOperand;
      let SwiftType := getASTType (argType (Arg ArgDesc)) in
      let OpenedType := ExistentialArchetypeType SwiftType (Index ArgDesc) in
      let OpenedSILType := getLoweredType E OpenedType in
      let ExistentialRepr :=
        getPreferredExistentialRepresentation E (argType (Arg ArgDesc)) in
      let OriginallyConsumed := isConsumed ETAD in
      let G2O := denseInsert GenericParam OpenedType (GenericToOpenedTypeMap st) in
      match ExistentialRepr with
      | Repr_Opaque =>
          let '(archetypeValue, bb) :=
            createValue
              (OpenExistentialAddrInst OrigOperand OpenedSILType (AccessType ETAD))
              bb in
          if OriginallyConsumed then
            (* The callee consumes the generic value: pass in a copy. *)
            let '(ASI, bb) := createAllocStack OpenedSILType bb in
            let bb :=
              emit (CopyAddrInst archetypeValue ASI IsNotTake IsInitialization) bb in
            Some (mkThunkState bb (ApplyArgs st ++ [ASI])
                    (Temps st ++ [mkTemp (Some ASI) (Some OrigOperand)]) G2O)
          else
            Some (mkThunkState bb (ApplyArgs st ++ [archetypeValue])
                    (Temps st) G2O)
      | Repr_Class =>
          (* If the operand is not object type, we need an explicit load. *)
          let '(OrigValue, bb) :=
            if negb (isObject OrigOperandTy) then
              let qual :=
                if hasOwnership F && negb OriginallyConsumed then Load_Copy
                else Load_Take in
              createValue (LoadValueOperation OrigOperand qual) bb
            else if hasOwnership F && negb OriginallyConsumed then
              createValue (CopyValueOperation OrigOperand) bb
            else (OrigOperand, bb) in
          let '(archetypeValue, bb) :=
            createValue (OpenExistentialRefInst OrigValue OpenedSILType) bb in
          if negb (isObject OrigOperandTy) then
            let '(ASI, bb) := createAllocStack OpenedSILType bb in
            let bb :=
              emit (StoreValueOperation archetypeValue ASI Store_Init) bb in
            Some (mkThunkState bb (ApplyArgs st ++ [ASI])
                    (Temps st ++ [mkTemp (Some ASI) None]) G2O)
          else if hasOwnership F && negb OriginallyConsumed then
            Some (mkThunkState bb (ApplyArgs st ++ [archetypeValue])
                    (Temps st ++ [mkTemp None (Some archetypeValue)]) G2O)
          else
            Some (mkThunkState bb (ApplyArgs st ++ [archetypeValue])
                    (Temps st) G2O)
      | _ => None (* Unhandled existential type in ExistentialTransform! *)
      end
  | _, _ =>
      arg ← bbArgs bb !! Index ArgDesc;
      Some (mkThunkState bb (ApplyArgs st ++ [arg]) (Temps st)
              (GenericToOpenedTypeMap st))
  end.

Fixpoint thunkArgumentsFrom (F : SILFunction)
    (ArgMap : gmap nat GenericTypeParamType)
    (ExistentialArgDescriptor : ExistentialArgDescriptorMap)
    (ArgumentDescList : list ArgumentDescriptor) (st : ThunkState)
    : option ThunkState :=
  match ArgumentDescList with
  | [] => Some st
  | ArgDesc :: rest =>
      st' ← thunkArgument F ArgMap ExistentialArgDescriptor st ArgDesc;
      thunkArgumentsFrom F ArgMap ExistentialArgDescriptor rest st'
  end.

(** The function handed to [SubstitutionMap::get]; a parameter of the new
    depth that was never opened is an assertion failure. *)
Definition thunkReplacement (OrigDepth : nat) (OrigSubMap : SubstitutionMap)
    (G2O : gmap GenericTypeParamType CanType) (GP : GenericTypeParamType)
    : option (GenericTypeParamType * CanType) :=
  if decide (gpDepth GP < OrigDepth)
  then Some (GP, substGenericParam E GP OrigSubMap)
  else ty ← G2O !! GP; Some (GP, ty).

(** One turn of the cleanup loop over [llvm::reverse(Temps)]. *)
Definition emitTempCleanup (bb : SILBasicBlock) (T : Temp) : SILBasicBlock :=
  let bb :=
    match DestroyValue T with
    | Some v => emit (DestroyOperation v) bb
    | None => bb
    end in
  match DeallocStackEntry T with
  | Some a => emit (DeallocStackInst a) bb
  | None => bb
  end.

Definition emitTempCleanups (temps : list Temp) (bb : SILBasicBlock)
    : SILBasicBlock :=
  foldl emitTempCleanup bb (reverse temps).

(** [F->setThunk(IsSignatureOptimizedThunk)], [F->setInlineStrategy(AlwaysInline)]
    and the new body; nothing else of [F] is assigned. *)
Definition asThunk (F : SILFunction) (blocks : list SILBasicBlock)
    : SILFunction :=
  mkSILFunction (getName F) (getLoweredFunctionType F)
    (getGenericEnvironment F) (getLinkage F) (isBare F) (isTransparent F)
    (getSerializedKind F) (getEntryCount F) IsSignatureOptimizedThunk
    (getClassSubclassScope F) AlwaysInline (getEffectsKind F)
    (getSemanticsAttrs F) (hasOwnership F) blocks.

(** [ExistentialTransform::populateThunkBody].  The blocks of the thunk are
    numbered in creation order: the body 0, the normal block 1 and the error
    block 2. *)
Definition populateThunkBody (F NewF : SILFunction)
    (ArgMap : gmap nat GenericTypeParamType)
    (ExistentialArgDescriptor : ExistentialArgDescriptorMap)
    (ArgumentDescList : list ArgumentDescriptor) : option SILFunction :=
  (* Remove original body of F; create a basic block and the arguments. *)
  let ThunkBody0 := foldl (createThunkArgument F) (mkBB [] [] None) ArgumentDescList in
  (* Create the function_ref instruction to the NewF. *)
  let '(FRI, ThunkBody1) := createValue (FunctionRefInst (getName NewF)) ThunkBody0 in
  let GenCalleeType := getLoweredFunctionType NewF in
  let CalleeGenericSig := getInvocationGenericSignature GenCalleeType in
  let OrigCalleeGenericSig :=
    getInvocationGenericSignature (getLoweredFunctionType F) in
  st ← thunkArgumentsFrom F ArgMap ExistentialArgDescriptor ArgumentDescList
         (mkThunkState ThunkBody1 [] [] ∅);
  let OrigDepth := getNextDepth OrigCalleeGenericSig in
  let OrigSubMap := getForwardingSubstitutionMap E F in
  SubMap ← mapM (thunkReplacement OrigDepth OrigSubMap (GenericToOpenedTypeMap st))
             (getGenericParams CalleeGenericSig);
  let FunctionTy := getLoweredFunctionType NewF in
  let ResultType := getSILResultType E GenCalleeType SubMap in
  let terminate (ReturnValue : SILValue) (bb : SILBasicBlock) :=
    let bb := emitTempCleanups (Temps st) bb in
    if isNoReturnFunction E (getLoweredFunctionType NewF)
    then setTerminator UnreachableInst bb
    else setTerminator (ReturnInst ReturnValue) bb in
  match getErrorResult FunctionTy with
  | Some ErrorResult =>
      (* try_apply with a normal and an error block *)
      let ReturnValue := PhiArgument 1 ResultType OwnershipKind_Owned in
      let NormalBlock := mkBB [ReturnValue] [] None in
      let Error := getSILErrorType E GenCalleeType SubMap ErrorResult in
      let ErrorArg := PhiArgument 2 Error OwnershipKind_Owned in
      let ErrorBlock := mkBB [ErrorArg] [] None in
      let ThunkBody2 :=
        setTerminator (TryApplyInst FRI SubMap (ApplyArgs st) 1 2) (ThunkBody st) in
      let ErrorBlock := setTerminator (ThrowInst ErrorArg) ErrorBlock in
      let NormalBlock := terminate ReturnValue NormalBlock in
      Some (asThunk F [ThunkBody2; NormalBlock; ErrorBlock])
  | None =>
      (* Create the Apply with substitutions *)
      let '(ReturnValue, ThunkBody2) :=
        createValue (ApplyInst FRI SubMap (ApplyArgs st)) (ThunkBody st) in
      Some (asThunk F [terminate ReturnValue ThunkBody2])
  end.

(** ** The driver *)

(** [FunctionBuilder.createFunction(...)] with the attributes the driver
    passes, the semantics attributes it adds and the ownership flag it
    clears. *)
Definition createFunction (F : SILFunction) (Name : string)
    (NewFTy : SILFunctionType) : SILFunction :=
  mkSILFunction Name NewFTy (getInvocationGenericSignature NewFTy)
    (getSpecializedLinkage E F) (isBare F) (isTransparent F)
    (getSerializedKind F) (getEntryCount F) (isThunk F)
    (getClassSubclassScope F) (getInlineStrategy F) (getEffectsKind F)
    (getSemanticsAttrs F)
    (if negb (hasOwnership F) then false else true)
    [].

(** What one run of the transform leaves behind: the function table of the
    module and the function it used as [NewF]. *)
Record TransformResult : Type := mkTransformResult {
  resultModule : gmap string SILFunction;
  resultNewF : SILFunction
}.

(** [ExistentialTransform::createExistentialSpecializedFunction], on the
    function table of the module [F] lives in. *)
Definition createExistentialSpecializedFunction
    (M : gmap string SILFunction) (F : SILFunction) (Mangler : ManglerT E)
    (ExistentialArgDescriptor : ExistentialArgDescriptorMap)
    (ArgumentDescList : list ArgumentDescriptor) : option TransformResult :=
  let Name :=
    createExistentialSpecializedFunctionName Mangler ExistentialArgDescriptor in
  (* Create devirtualized function type and populate ArgToGenericTypeMap. *)
  '(NewFTy, ArgMap) ← createExistentialSpecializedFunctionType F ExistentialArgDescriptor;
  (* Step 1: Create the new protocol constrained generic function. *)
  '(M1, NewF) ←
    match M !! Name with
    | Some CachedFn =>
        if decide (getLoweredFunctionType CachedFn = NewFTy)
        then Some (M, CachedFn)
        else None
    | None =>
        NewF ← cloneAndPopulateFunction F (createFunction F Name NewFTy)
                 ArgMap ExistentialArgDescriptor ArgumentDescList;
        Some (<[Name := NewF]> M, NewF)
    end;
  (* Step 2: Create the thunk with always_inline and populate its body. *)
  Thunk ← populateThunkBody F NewF ArgMap ExistentialArgDescriptor ArgumentDescList;
  Some (mkTransformResult (<[getName F := Thunk]> M1) NewF).

End Transform.

(** ** A concrete set of collaborators

    A small, executable stand-in for the rest of the compiler, used to run the
    pass on concrete functions. *)
Module Demo.

(** The mangler collects the indices it is told and prints them after the
    name of the function it was set up for. *)
Definition Mangler : Type := string * list nat.

Definition mangleName (m : Mangler) : string :=
  String.append (fst m)
    (String.append "Tf4"
       (foldr (fun i s => String.append "e" (String.append (pretty i) s))
              "_n" (snd m))).

Definition ownershipOfParameter (c : ParameterConvention) : OwnershipKind :=
  match c with
  | Direct_Owned => OwnershipKind_Owned
  | Direct_Unowned => OwnershipKind_Unowned
  | Direct_Guaranteed => OwnershipKind_Guaranteed
  | _ => OwnershipKind_None
  end.

Definition ownershipOfArgument (c : SILArgumentConvention) : OwnershipKind :=
  match c with
  | Arg_Direct_Owned => OwnershipKind_Owned
  | Arg_Direct_Unowned => OwnershipKind_Unowned
  | Arg_Direct_Guaranteed => OwnershipKind_Guaranteed
  | _ => OwnershipKind_None
  end.

(** Addresses have no ownership, copies and loads are owned, and boxing or
    opening a reference forwards the ownership of its operand. *)
Fixpoint ownershipOf (v : SILValue) : OwnershipKind :=
  match v with
  | FunctionArgument a => argOwnershipKind a
  | PhiArgument _ _ k => k
  | LoadValueOperation _ _ | CopyValueOperation _ | ApplyInst _ _ _ =>
      OwnershipKind_Owned
  | InitExistentialRefInst _ _ c _ => ownershipOf c
  | OpenExistentialRefInst o _ => ownershipOf o
  | _ => OwnershipKind_None
  end.

(** A protocol named [AnyObject] is class bound; every other existential is
    stored opaquely. *)
Definition representationOf (t : SILType) : ExistentialRepresentation :=
  match getASTType t with
  | ExistentialType (ProtocolType "AnyObject") | ProtocolType "AnyObject" =>
      Repr_Class
  | ExistentialType _ | ProtocolType _ => Repr_Opaque
  | _ => Repr_None
  end.

(** The cloned body: the blocks of the original, the first one behind the
    prolog of the new entry block. *)
Definition cloneBody (OrigF NewF : SILFunction) (entry : SILBasicBlock)
    (entryArgs : list SILValue) : list SILBasicBlock :=
  match getBlocks OrigF with
  | [] => [entry]
  | b :: rest => mkBB (bbArgs entry) (bbInsts entry ++ bbInsts b) (bbTerm b) :: rest
  end.

(** The function exits as the design document lists them. *)
Definition exits (t : TermInst) : bool :=
  match t with
  | ReturnInst _ | ThrowInst _ | UnreachableInst => true
  | _ => false
  end.

Definition lookupSubstitution (gp : GenericTypeParamType) (m : SubstitutionMap)
    : CanType :=
  default (GenericTypeParam gp)
    ((snd ∘ snd) <$> list_find (fun e => fst e = gp) m).

Definition E : Collaborators := {|
  ManglerT := Mangler;
  setArgumentExistentialToGeneric := fun i m => (fst m, snd m ++ [i]);
  mangle := mangleName;
  getArgumentType := fun p _ => paramInterfaceType p;
  buildGenericSignature := fun sig gps reqs =>
    mkGenericSignature (getGenericParams sig ++ gps) (getRequirements sig ++ reqs);
  getReducedType := fun gp _ => GenericTypeParam gp;
  mapTypeIntoContext := fun _ t =>
    match t with GenericTypeParam gp => PrimaryArchetypeType gp | _ => t end;
  getLoweredType := fun t => mkSILType t Object;
  getPreferredExistentialRepresentation := representationOf;
  collectExistentialConformances := fun _ _ => [];
  ValueOwnershipKind := fun _ c => ownershipOfArgument c;
  functionArgumentOwnership := fun fty i _ =>
    from_option (ownershipOfParameter ∘ paramConvention) OwnershipKind_None
                (getParameters fty !! i);
  getOwnershipKind := ownershipOf;
  cloneFunctionBody := cloneBody;
  isFunctionExiting := exits;
  getSpecializedLinkage := fun F =>
    match getLinkage F with Private => Private | _ => Shared end;
  getForwardingSubstitutionMap := fun F =>
    (fun gp => (gp, PrimaryArchetypeType gp)) <$>
      getGenericParams (getInvocationGenericSignature (getLoweredFunctionType F));
  substGenericParam := lookupSubstitution;
  getSILResultType := fun fty _ =>
    match getResults fty with
    | r :: _ => mkSILType (resultInterfaceType r) Object
    | [] => mkSILType (NominalType "()") Object
    end;
  getSILErrorType := fun _ _ err => mkSILType (resultInterfaceType err) Object;
  isNoReturnFunction := fun fty =>
    match getResults fty with
    | [r] => bool_decide (resultInterfaceType r = NominalType "Never")
    | _ => false
    end
|}.

Definition Int : CanType := NominalType "Int".
Definition anyP : CanType := ExistentialType (ProtocolType "P").
Definition anyObject : CanType := ExistentialType (ProtocolType "AnyObject").
Definition noSignature : GenericSignature := mkGenericSignature [] [].

Definition functionType (params : list SILParameterInfo)
    (err : option SILResultInfo) : SILFunctionType :=
  mkSILFunctionType noSignature (mkExtInfo Thin 0) 0 Direct_Unowned params []
    [mkSILResultInfo Int 0] err [] [].

Definition function (name : string) (ty : SILFunctionType) (ossa : bool)
    (blocks : list SILBasicBlock) : SILFunction :=
  mkSILFunction name ty noSignature Hidden false false 0 0 IsNotThunk 0
    InlineDefault 0 [] ossa blocks.

Definition argument (i : nat) (t : CanType) (c : SILValueCategory)
    (k : OwnershipKind) : SILFunctionArgument :=
  mkSILFunctionArgument i (mkSILType t c) (Some "x") k (mkArgumentFlags 1).

(** [F(x: any P) -> Int], [x] passed at an address and borrowed. *)
Definition FTy : SILFunctionType :=
  functionType [mkSILParameterInfo anyP Indirect_In_Guaranteed] None.

Definition FArg : SILFunctionArgument := argument 0 anyP Address OwnershipKind_None.

Definition F : SILFunction :=
  function "F" FTy true
    [mkBB [FunctionArgument FArg] [ClonedInst 0] (Some (ReturnInst (ClonedValue 1)))].

Definition FArgs : list ArgumentDescriptor :=
  [mkArgumentDescriptor FArg Arg_Indirect_In_Guaranteed 0 (Some "x")].

Definition FExistentials : ExistentialArgDescriptorMap :=
  [(0, mkETAD Immutable false)].

Definition FModule : gmap string SILFunction := {[ "F" := F ]}.

Definition FMangler : Mangler := ("F", []).

Definition FArgMap : gmap nat GenericTypeParamType := {[ 0 := mkGP 0 0 ]}.

(** The function the driver creates for the twin of [F], still without a
    body, and what the cloner and the thunk builder make of it. *)
Definition FNewF : SILFunction :=
  createFunction E F
    (createExistentialSpecializedFunctionName E FMangler FExistentials)
    (default FTy (fst <$> createExistentialSpecializedFunctionType E F FExistentials)).

Definition FClonerState : ClonerState :=
  default (mkClonerState (mkBB [] [] None) [] [] [])
    (cloneArguments E FNewF FArgMap FExistentials FArgs).

Definition FTwin : SILFunction :=
  default FNewF (cloneAndPopulateFunction E F FNewF FArgMap FExistentials FArgs).

Definition FThunk : SILFunction :=
  default F (populateThunkBody E F FTwin FArgMap FExistentials FArgs).

Definition FTransformed : TransformResult :=
  default (mkTransformResult ∅ F)
    (createExistentialSpecializedFunction E FModule F FMangler FExistentials FArgs).

(** [G(x: any AnyObject) throws -> Int], [x] a class existential passed as an
    object, of unowned ownership.  [ossa] says whether the twin has
    ownership. *)
Definition GTy : SILFunctionType :=
  functionType [mkSILParameterInfo anyObject Direct_Unowned]
    (Some (mkSILResultInfo (NominalType "Error") 0)).

Definition GArg : SILFunctionArgument :=
  argument 0 anyObject Object OwnershipKind_Unowned.

Definition G (ossa : bool) : SILFunction :=
  function "G" GTy ossa
    [mkBB [FunctionArgument GArg] [ClonedInst 0] (Some (ReturnInst (ClonedValue 1)))].

Definition GArgDesc : ArgumentDescriptor :=
  mkArgumentDescriptor GArg Arg_Direct_Unowned 0 (Some "x").

Definition GExistentials : ExistentialArgDescriptorMap :=
  [(0, mkETAD Immutable false)].

Definition GNewF (ossa : bool) : SILFunction :=
  createFunction E (G ossa)
    (createExistentialSpecializedFunctionName E ("G", []) GExistentials)
    (default GTy
       (fst <$> createExistentialSpecializedFunctionType E (G ossa) GExistentials)).

Definition GClonerState (ossa : bool) : ClonerState :=
  default (mkClonerState (mkBB [] [] None) [] [] [])
    (cloneArguments E (GNewF ossa) FArgMap GExistentials [GArgDesc]).

Definition GThunk : SILFunction :=
  default (G true)
    (populateThunkBody E (G true) (GNewF true) FArgMap GExistentials [GArgDesc]).

(** [K(x: any P, y: any P) -> Int], both arguments opaque and borrowed. *)
Definition KTy : SILFunctionType :=
  functionType [mkSILParameterInfo anyP Indirect_In_Guaranteed;
                mkSILParameterInfo anyP Indirect_In_Guaranteed] None.

Definition KArg (i : nat) : SILFunctionArgument :=
  argument i anyP Address OwnershipKind_None.

Definition K : SILFunction :=
  function "K" KTy true
    [mkBB [FunctionArgument (KArg 0); FunctionArgument (KArg 1)] [ClonedInst 0]
          (Some (ReturnInst (ClonedValue 1)))].

Definition KArgs : list ArgumentDescriptor :=
  [mkArgumentDescriptor (KArg 0) Arg_Indirect_In_Guaranteed 0 (Some "x");
   mkArgumentDescriptor (KArg 1) Arg_Indirect_In_Guaranteed 1 (Some "y")].

Definition KExistentials : ExistentialArgDescriptorMap :=
  [(0, mkETAD Immutable false); (1, mkETAD Immutable false)].

Definition KArgMap : gmap nat GenericTypeParamType :=
  {[ 0 := mkGP 0 0; 1 := mkGP 0 1 ]}.

Definition KNewF : SILFunction :=
  createFunction E K
    (createExistentialSpecializedFunctionName E ("K", []) KExistentials)
    (default KTy (fst <$> createExistentialSpecializedFunctionType E K KExistentials)).

Definition KTwin : SILFunction :=
  default KNewF (cloneAndPopulateFunction E K KNewF KArgMap KExistentials KArgs).

(** [Q(a: Int, x: any P, b: Int, c: Int, y: any P) -> Int], with a descriptor
    map whose buckets hold the key 4 before the key 1. *)
Definition QTy : SILFunctionType :=
  functionType [mkSILParameterInfo Int Direct_Unowned;
                mkSILParameterInfo anyP Indirect_In_Guaranteed;
                mkSILParameterInfo Int Direct_Unowned;
                mkSILParameterInfo Int Direct_Unowned;
                mkSILParameterInfo anyP Indirect_In_Guaranteed] None.

Definition Q : SILFunction := function "Q" QTy true [].

Definition QExistentials : ExistentialArgDescriptorMap :=
  [(4, mkETAD Immutable false); (1, mkETAD Immutable false)].

Definition QConverted : ConvertState :=
  default (mkConvertState [] [] ∅ 0)
    (convertExistentialArgTypesToGenericArgTypes E Q QExistentials).

(** [J(x: __owned any P) -> Int], [x] opaque, passed at an address and
    consumed. *)
Definition JTy : SILFunctionType :=
  functionType [mkSILParameterInfo anyP Indirect_In] None.

Definition JArg : SILFunctionArgument := argument 0 anyP Address OwnershipKind_None.

Definition J : SILFunction :=
  function "J" JTy true
    [mkBB [FunctionArgument JArg] [ClonedInst 0] (Some (ReturnInst (ClonedValue 1)))].

Definition JArgDesc : ArgumentDescriptor :=
  mkArgumentDescriptor JArg Arg_Indirect_In 0 (Some "x").

Definition JDescriptor : ExistentialTransformArgumentDescriptor :=
  mkETAD Mutable true.

Definition JExistentials : ExistentialArgDescriptorMap := [(0, JDescriptor)].

Definition JNewF : SILFunction :=
  createFunction E J
    (createExistentialSpecializedFunctionName E ("J", []) JExistentials)
    (default JTy (fst <$> createExistentialSpecializedFunctionType E J JExistentials)).

Definition JThunk : SILFunction :=
  default J (populateThunkBody E J JNewF FArgMap JExistentials [JArgDesc]).

(** [H(x: __owned any AnyObject) -> Int], [x] a class existential passed at
    an address and consumed. *)
Definition HTy : SILFunctionType :=
  functionType [mkSILParameterInfo anyObject Indirect_In] None.

Definition HArg : SILFunctionArgument :=
  argument 0 anyObject Address OwnershipKind_None.

Definition H : SILFunction :=
  function "H" HTy true
    [mkBB [FunctionArgument HArg] [ClonedInst 0] (Some (ReturnInst (ClonedValue 1)))].

Definition HArgDesc : ArgumentDescriptor :=
  mkArgumentDescriptor HArg Arg_Indirect_In 0 (Some "x").

Definition HDescriptor : ExistentialTransformArgumentDescriptor :=
  mkETAD Immutable true.

Definition HExistentials : ExistentialArgDescriptorMap := [(0, HDescriptor)].

Definition HNewF : SILFunction :=
  createFunction E H
    (createExistentialSpecializedFunctionName E ("H", []) HExistentials)
    (default HTy (fst <$> createExistentialSpecializedFunctionType E H HExistentials)).

Definition HClonerState : ClonerState :=
  default (mkClonerState (mkBB [] [] None) [] [] [])
    (cloneArguments E HNewF FArgMap HExistentials [HArgDesc]).

Definition HTwin : SILFunction :=
  default HNewF
    (cloneAndPopulateFunction E H HNewF FArgMap HExistentials [HArgDesc]).

Definition HThunk : SILFunction :=
  default H (populateThunkBody E H HNewF FArgMap HExistentials [HArgDesc]).

(** The entry block the cloner builds for [K] when none of its arguments is
    rewritten. *)
Definition KPlainState : ClonerState :=
  default (mkClonerState (mkBB [] [] None) [] [] [])
    (cloneArguments E K ∅ [] KArgs).

(** What the type builder computes for [Q]. *)
Definition QNewFTy : SILFunctionType :=
  default QTy (fst <$> createExistentialSpecializedFunctionType E Q QExistentials).

Definition QArgMap : gmap nat GenericTypeParamType :=
  default ∅ (snd <$> createExistentialSpecializedFunctionType E Q QExistentials).

Definition KThunk : SILFunction :=
  default K (populateThunkBody E K KNewF KArgMap KExistentials KArgs).

End Demo.

(** ** Vocabulary of the statements *)

Section Statements.

Context (E : Collaborators).

(** The argument the thunk gets at position [k] for a descriptor. *)
Definition thunkArgumentFor (F : SILFunction) (k : nat)
    (ArgDesc : ArgumentDescriptor) : SILFunctionArgument :=
  mkSILFunctionArgument k (argType (Arg ArgDesc)) (Decl ArgDesc)
    (functionArgumentOwnership E (getLoweredFunctionType F) k
       (argType (Arg ArgDesc)))
    (argFlags (Arg ArgDesc)).

(** [G] is [F] but for its body, its thunk kind and its inline strategy. *)
Definition sameButBodyAndThunkAttributes (F G : SILFunction) : Prop :=
  getName G = getName F
  ∧ getLoweredFunctionType G = getLoweredFunctionType F
  ∧ getGenericEnvironment G = getGenericEnvironment F
  ∧ getLinkage G = getLinkage F
  ∧ isBare G = isBare F
  ∧ isTransparent G = isTransparent F
  ∧ getSerializedKind G = getSerializedKind F
  ∧ getEntryCount G = getEntryCount F
  ∧ getClassSubclassScope G = getClassSubclassScope F
  ∧ getEffectsKind G = getEffectsKind F
  ∧ getSemanticsAttrs G = getSemanticsAttrs F
  ∧ hasOwnership G = hasOwnership F.

Definition isApplyInst (i : SILInstruction) : bool :=
  match i with
  | ValueInst (ApplyInst _ _ _) => true
  | _ => false
  end.

(** The entry block of the thunk has one argument per descriptor, at the
    descriptor's position, with its type, declaration and flags. *)
Definition entryArgumentsAsOriginal (ADL : list ArgumentDescriptor)
    (entry : SILBasicBlock) : Prop :=
  length (bbArgs entry) = length ADL
  ∧ forall k d, ADL !! k = Some d ->
      exists a, bbArgs entry !! k = Some (FunctionArgument a)
        ∧ argIndex a = k
        ∧ argType a = argType (Arg d)
        ∧ argDecl a = Decl d
        ∧ argFlags a = argFlags (Arg d).

Definition thunkKeepsSignature (F : SILFunction)
    (ADL : list ArgumentDescriptor) (Thunk : SILFunction) : Prop :=
  sameButBodyAndThunkAttributes F Thunk
  ∧ isThunk Thunk = IsSignatureOptimizedThunk
  ∧ getInlineStrategy Thunk = AlwaysInline
  ∧ exists entry rest, getBlocks Thunk = entry :: rest
      ∧ entryArgumentsAsOriginal ADL entry.

(** How the thunk ends a block that follows the call: it returns the value
    of the call, or is unreachable behind a callee that never returns. *)
Definition returnsOrUnreachable (ReturnValue : SILValue) (bb : SILBasicBlock)
    : Prop :=
  bbTerm bb = Some (ReturnInst ReturnValue) ∨ bbTerm bb = Some UnreachableInst.

(** The call the thunk makes to [NewF]: a [try_apply] with a normal block and
    an error block that throws the very value it receives when the type of
    [NewF] has an error result, a plain [apply] otherwise. *)
Definition thunkCallShape (NewF Thunk : SILFunction) : Prop :=
  let FRI := FunctionRefInst (getName NewF) in
  let CalleeTy := getLoweredFunctionType NewF in
  match getErrorResult CalleeTy with
  | Some ErrorResult =>
      exists body normal error SubMap args,
        let ReturnValue :=
          PhiArgument 1 (getSILResultType E CalleeTy SubMap) OwnershipKind_Owned in
        let ErrorArg :=
          PhiArgument 2 (getSILErrorType E CalleeTy SubMap ErrorResult)
            OwnershipKind_Owned in
        getBlocks Thunk = [body; normal; error]
        ∧ bbTerm body = Some (TryApplyInst FRI SubMap args 1 2)
        ∧ forallb (negb ∘ isApplyInst) (bbInsts body) = true
        ∧ bbArgs normal = [ReturnValue]
        ∧ returnsOrUnreachable ReturnValue normal
        ∧ bbArgs error = [ErrorArg]
        ∧ bbInsts error = []
        ∧ bbTerm error = Some (ThrowInst ErrorArg)
  | None =>
      exists body SubMap args,
        let Call := ApplyInst FRI SubMap args in
        getBlocks Thunk = [body]
        ∧ filter (fun i => isApplyInst i = true) (bbInsts body) = [ValueInst Call]
        ∧ returnsOrUnreachable Call body
  end.

(** *** What one argument adds to the entry block of the twin

    [argumentPrologue] restates one turn of the loop of [cloneArguments] by
    what it adds: the new argument, the instructions, the cleanup values, the
    stack slots and the value that stands for the original argument.  It
    depends on the cloner's state only through the number of arguments and of
    instructions the entry block already has.  [cloneArgument_prologue] below
    shows that the turn of the loop does exactly this. *)
Record Prologue : Type := mkPrologue {
  pArg : SILFunctionArgument;
  pInsts : list SILInstruction;
  pCleanups : list SILValue;
  pAllocs : list SILValue;
  pEntryArg : SILValue
}.

Definition genericArgumentFor (NewF : SILFunction) (nArgs : nat)
    (GP : GenericTypeParamType) (d : ArgumentDescriptor) : SILFunctionArgument :=
  let GenericSILType :=
    getCategoryType
      (getLoweredType E
         (mapTypeIntoContext E (getGenericEnvironment NewF) (GenericTypeParam GP)))
      (getCategory (argType (Arg d))) in
  mkSILFunctionArgument nArgs GenericSILType (Decl d)
    (ValueOwnershipKind E GenericSILType (ArgConvention d))
    (argFlags (Arg d)).

Definition conformancesFor (NewArg : SILFunctionArgument)
    (d : ArgumentDescriptor) : list ProtocolConformanceRef :=
  collectExistentialConformances E (getASTType (argType NewArg))
    (getASTType (argType (Arg d))).

(** The copy into the fresh existential slot of an opaque argument. *)
Definition slotInitialization (NewArg : SILFunctionArgument)
    (d : ArgumentDescriptor) (ASI : SILValue) (consumed : bool)
    : list SILInstruction :=
  let EAI :=
    InitExistentialAddrInst ASI (getASTType (argType NewArg)) (argType NewArg)
      (conformancesFor NewArg d) in
  [ValueInst ASI; ValueInst EAI;
   CopyAddrInst (FunctionArgument NewArg) EAI
     (if consumed then IsTake else IsNotTake) IsInitialization].

(** The defensive copy of a class argument: made in a function with
    ownership for an argument of unowned ownership. *)
Definition takesOwningCopy (NewF : SILFunction) (NewArg : SILFunctionArgument)
    : bool :=
  hasOwnership NewF && isUnowned (argOwnershipKind NewArg).

(** The value a class argument is boxed from. *)
Definition boxedValue (NewF : SILFunction) (NewArg : SILFunctionArgument)
    (consumed : bool) : SILValue :=
  if takesOwningCopy NewF NewArg then CopyValueOperation (FunctionArgument NewArg)
  else if isObject (argType NewArg) then FunctionArgument NewArg
  else LoadValueOperation (FunctionArgument NewArg)
         (if hasOwnership NewF && negb consumed then Load_Copy else Load_Take).

Definition boxedReference (NewF : SILFunction) (NewArg : SILFunctionArgument)
    (d : ArgumentDescriptor) (consumed : bool) : SILValue :=
  InitExistentialRefInst (getObjectType (argType (Arg d)))
    (getASTType (argType NewArg)) (boxedValue NewF NewArg consumed)
    (conformancesFor NewArg d).

Definition argumentPrologue (NewF : SILFunction)
    (ArgMap : gmap nat GenericTypeParamType)
    (EAD : ExistentialArgDescriptorMap) (nArgs nInsts : nat)
    (d : ArgumentDescriptor) : option Prologue :=
  let NewFTy := getLoweredFunctionType NewF in
  match ArgMap !! Index d with
  | None =>
      param ← getParameters NewFTy !! Index d;
      let MappedTy :=
        getCategoryType
          (getLoweredType E
             (mapTypeIntoContext E (getGenericEnvironment NewF)
                (getArgumentType E param NewFTy)))
          (getCategory (argType (Arg d))) in
      let NewArg :=
        mkSILFunctionArgument nArgs MappedTy (Decl d)
          (functionArgumentOwnership E NewFTy nArgs MappedTy)
          (argFlags (Arg d)) in
      Some (mkPrologue NewArg [] [] [] (FunctionArgument NewArg))
  | Some GP =>
      let NewArg := genericArgumentFor NewF nArgs GP d in
      if isAnyExistentialType (getASTType (argType NewArg)) then None else
      let consumed := isConsumed (descriptorAt (Index d) EAD) in
      match getPreferredExistentialRepresentation E (argType (Arg d)) with
      | Repr_Opaque =>
          let ASI := AllocStackInst nInsts (argType (Arg d)) in
          Some (mkPrologue NewArg (slotInitialization NewArg d ASI consumed)
                  (if consumed then [] else [ASI]) [ASI] ASI)
      | Repr_Class =>
          let NewArgV := FunctionArgument NewArg in
          let loads :=
            if isObject (argType NewArg) then []
            else [ValueInst
                    (LoadValueOperation NewArgV
                       (if hasOwnership NewF && negb consumed then Load_Copy
                        else Load_Take))] in
          let copies :=
            if takesOwningCopy NewF NewArg
            then [ValueInst (CopyValueOperation NewArgV)] else [] in
          let InitRef := boxedReference NewF NewArg d consumed in
          let alloc :=
            AllocStackInst (nInsts + length loads + length copies + 1)
              (getObjectType (argType (Arg d))) in
          let spill :=
            if isObject (argType NewArg) then []
            else [ValueInst alloc; StoreValueOperation InitRef alloc Store_Init] in
          Some (mkPrologue NewArg
                  (loads ++ copies ++ [ValueInst InitRef] ++ spill)
                  (if takesOwningCopy NewF NewArg then [InitRef] else [])
                  (if isObject (argType NewArg) then [] else [alloc])
                  (if isObject (argType NewArg) then InitRef else alloc))
      | _ => None
      end
  end.

Definition addPrologue (st : ClonerState) (p : Prologue) : ClonerState :=
  mkClonerState
    (mkBB (bbArgs (ClonedEntryBB st) ++ [FunctionArgument (pArg p)])
          (bbInsts (ClonedEntryBB st) ++ pInsts p)
          (bbTerm (ClonedEntryBB st)))
    (AllocStackInsts st ++ pAllocs p)
    (CleanupValues st ++ pCleanups p)
    (entryArgs st ++ [pEntryArg p]).

(** The prologues of a list of descriptors, the first one added to an entry
    block that has [nArgs] arguments and [nInsts] instructions. *)
Fixpoint prologuesFrom (NewF : SILFunction)
    (ArgMap : gmap nat GenericTypeParamType)
    (EAD : ExistentialArgDescriptorMap) (nArgs nInsts : nat)
    (ADL : list ArgumentDescriptor) : option (list Prologue) :=
  match ADL with
  | [] => Some []
  | d :: rest =>
      p ← argumentPrologue NewF ArgMap EAD nArgs nInsts d;
      ps ← prologuesFrom NewF ArgMap EAD (S nArgs) (nInsts + length (pInsts p)) rest;
      Some (p :: ps)
  end.

(** Where a cleanup value comes from: a stack slot is known by the position
    of its [alloc_stack], a boxed reference by the argument it copies. *)
Definition cleanupBefore (nArgs nInsts : nat) (v : SILValue) : Prop :=
  match v with
  | AllocStackInst id _ => id < nInsts
  | InitExistentialRefInst _ _ (CopyValueOperation (FunctionArgument a)) _ =>
      argIndex a < nArgs
  | _ => False
  end.

Definition cleanupFrom (nArgs nInsts : nat) (v : SILValue) : Prop :=
  match v with
  | AllocStackInst id _ => nInsts ≤ id
  | InitExistentialRefInst _ _ (CopyValueOperation (FunctionArgument a)) _ =>
      nArgs ≤ argIndex a
  | _ => False
  end.

(** Which argument a copy instruction copies. *)
Definition copyBefore (nArgs : nat) (i : SILInstruction) : Prop :=
  match i with
  | ValueInst (CopyValueOperation (FunctionArgument a)) => argIndex a < nArgs
  | _ => True
  end.

Definition copyFrom (nArgs : nat) (i : SILInstruction) : Prop :=
  match i with
  | ValueInst (CopyValueOperation (FunctionArgument a)) => nArgs ≤ argIndex a
  | _ => True
  end.

(** *** The entry block, argument by argument *)

(** What is inserted at an exit: the destroys of the cleanup values, taken in
    the order [order] puts them in, then the deallocations of the stack slots
    in reverse. *)
Definition exitCleanup (order : list SILValue -> list SILValue)
    (st : ClonerState) : list SILInstruction :=
  (DestroyOperation <$> order (CleanupValues st))
  ++ (DeallocStackInst <$> reverse (AllocStackInsts st)).

(** The descriptor at position [k] is an opaque existential: a slot of the
    existential type is allocated and initialised from the generic argument,
    by a take exactly when the original argument was consumed; the slot is a
    cleanup value, and so destroyed by the cleanup of an exit, exactly when
    it was not; the slot is a stack slot to deallocate, and the cloned body
    gets its address at position [k]. *)
Definition opaqueArgumentBoxed (EAD : ExistentialArgDescriptorMap)
    (st : ClonerState) (k : nat) (d : ArgumentDescriptor) : Prop :=
  let consumed := isConsumed (descriptorAt (Index d) EAD) in
  exists NewArg iB iA take,
    let ASI := AllocStackInst (length iB) (argType (Arg d)) in
    let EAI :=
      InitExistentialAddrInst ASI (getASTType (argType NewArg))
        (argType NewArg) (conformancesFor NewArg d) in
    bbArgs (ClonedEntryBB st) !! k = Some (FunctionArgument NewArg)
    ∧ bbInsts (ClonedEntryBB st) =
        iB ++ [ValueInst ASI; ValueInst EAI;
               CopyAddrInst (FunctionArgument NewArg) EAI take IsInitialization]
           ++ iA
    ∧ (take = IsTake <-> consumed = true)
    ∧ (take = IsNotTake <-> consumed = false)
    ∧ (ASI ∈ CleanupValues st <-> consumed = false)
    ∧ (DestroyOperation ASI ∈ exitCleanup (fun l => l) st <-> consumed = false)
    ∧ ASI ∈ AllocStackInsts st
    ∧ entryArgs st !! k = Some ASI.

(** The descriptor at position [k] is a class existential.  When [copied]
    holds of the generic argument, an owning copy of it is made, boxed right
    away, and the box is a cleanup value; when it does not, the argument is
    not copied and the reference boxed for it is no cleanup value. *)
Definition classArgumentBoxed (copied : SILFunctionArgument -> bool)
    (st : ClonerState) (k : nat) (d : ArgumentDescriptor) : Prop :=
  exists NewArg,
    let Copy := CopyValueOperation (FunctionArgument NewArg) in
    let Box v :=
      InitExistentialRefInst (getObjectType (argType (Arg d)))
        (getASTType (argType NewArg)) v (conformancesFor NewArg d) in
    bbArgs (ClonedEntryBB st) !! k = Some (FunctionArgument NewArg)
    ∧ if copied NewArg then
        (exists iB iA,
           bbInsts (ClonedEntryBB st) =
             iB ++ [ValueInst Copy; ValueInst (Box Copy)] ++ iA)
        ∧ Box Copy ∈ CleanupValues st
        ∧ DestroyOperation (Box Copy) ∈ exitCleanup (fun l => l) st
      else
        (ValueInst Copy ∉ bbInsts (ClonedEntryBB st))
        ∧ (exists v, v ≠ Copy
             ∧ ValueInst (Box v) ∈ bbInsts (ClonedEntryBB st)
             ∧ (Box v ∉ CleanupValues st)
             ∧ (Box Copy ∉ CleanupValues st)).

(** What the cleanup values are: a stack slot, or the box of a copy of an
    argument of unowned ownership. *)
Definition cleanupKind (v : SILValue) : Prop :=
  match v with
  | AllocStackInst _ _ => True
  | InitExistentialRefInst _ _ (CopyValueOperation (FunctionArgument a)) _ =>
      argOwnershipKind a = OwnershipKind_Unowned
  | _ => False
  end.

(** The rules of the ownership classifier the cleanup values fall under:
    an address has no ownership, boxing a reference forwards the ownership of
    the boxed value, a copy is owned unless the copy operation hands back its
    operand, and an argument has the ownership it was created with. *)
Record OwnershipRules : Prop := mkOwnershipRules {
  alloc_stack_ownership : forall id ty,
    getOwnershipKind E (AllocStackInst id ty) = OwnershipKind_None;
  init_existential_ref_ownership : forall t f v c,
    getOwnershipKind E (InitExistentialRefInst t f v c) = getOwnershipKind E v;
  copy_value_ownership : forall v,
    getOwnershipKind E (CopyValueOperation v) = OwnershipKind_Owned
    ∨ getOwnershipKind E (CopyValueOperation v) = getOwnershipKind E v;
  function_argument_ownership : forall a,
    getOwnershipKind E (FunctionArgument a) = argOwnershipKind a
}.

(** *** The cleanup at the exits *)

(** [bb'] is [bb] with the exit cleanup in front of its terminator when [bb]
    is an exit, and [bb] itself when it is not. *)
Definition cleanedAtExit (order : list SILValue -> list SILValue)
    (st : ClonerState) (bb bb' : SILBasicBlock) : Prop :=
  bbArgs bb' = bbArgs bb
  ∧ bbTerm bb' = bbTerm bb
  ∧ bbInsts bb' =
      bbInsts bb ++ (if isExitingBlock E bb then exitCleanup order st else []).

(** The twin is the cloned body with every exit cleaned up. *)
Definition exitsCleaned (order : list SILValue -> list SILValue)
    (OrigF NewF : SILFunction) (ArgMap : gmap nat GenericTypeParamType)
    (EAD : ExistentialArgDescriptorMap) (ADL : list ArgumentDescriptor)
    (Twin : SILFunction) : Prop :=
  exists st,
    cloneArguments E NewF ArgMap EAD ADL = Some st
    ∧ Forall2 (cleanedAtExit order st)
        (cloneFunctionBody E OrigF (setBlocks NewF [ClonedEntryBB st])
           (ClonedEntryBB st) (entryArgs st))
        (getBlocks Twin).

(** The destroy the exit loop asserts and emits for a value is valid. *)
Definition destroyable (v : SILValue) : Prop :=
  getOwnershipKind E v ≠ OwnershipKind_Guaranteed.

(** *** The generic signature *)

(** The constraint of an existential type: what [any P] wraps, or the type
    itself when it is a bare constraint. *)
Definition erasedConstraint (PType : CanType) : CanType :=
  default PType (getAsExistentialType PType).

(** [Idx] is the position of a parameter of existential type. *)
Definition validExistentialParameter (FTy : SILFunctionType) (Idx : nat)
    : Prop :=
  exists param,
    getParameters FTy !! Idx = Some param
    ∧ isExistentialType (getArgumentType E param FTy) = true.

(** What the synthesizer hands back for the descriptors [EAD], whose keys
    come in the order the map is iterated in: the [k]-th key gets the generic
    parameter of index [k] at the new depth, the [k]-th requirement makes that
    parameter conform to the constraint of the key's parameter type, and the
    map sends the key to that parameter. *)
Definition genericParametersSynthesized (F : SILFunction)
    (EAD : ExistentialArgDescriptorMap) (st : ConvertState) : Prop :=
  let FTy := getLoweredFunctionType F in
  let OrigGenericSig := getInvocationGenericSignature FTy in
  let Depth := getNextDepth OrigGenericSig in
  (forall gp, gp ∈ getGenericParams OrigGenericSig -> gpDepth gp < Depth)
  ∧ length (genericParams st) = length EAD
  ∧ length (requirements st) = length EAD
  ∧ (forall k Idx, (fst <$> EAD) !! k = Some Idx ->
       genericParams st !! k = Some (mkGP Depth k)
       ∧ (exists param,
            getParameters FTy !! Idx = Some param
            ∧ requirements st !! k =
                Some (mkRequirement Conformance (mkGP Depth k)
                        (erasedConstraint (getArgumentType E param FTy))))
       ∧ ArgToGenericTypeMap st !! Idx = Some (mkGP Depth k))
  ∧ (forall Idx, Idx ∉ (fst <$> EAD) -> ArgToGenericTypeMap st !! Idx = None).

(** The indices of the new parameters ascend with the positions of the
    arguments they replace. *)
Definition indicesAscendWithPosition (st : ConvertState) : Prop :=
  forall Idx1 Idx2 gp1 gp2,
    ArgToGenericTypeMap st !! Idx1 = Some gp1 ->
    ArgToGenericTypeMap st !! Idx2 = Some gp2 ->
    Idx1 < Idx2 -> gpIndex gp1 < gpIndex gp2.

(** The synthesizer's result with the indices ascending with the positions
    of the arguments. *)
Definition genericParametersAscending (F : SILFunction)
    (EAD : ExistentialArgDescriptorMap) (st : ConvertState) : Prop :=
  genericParametersSynthesized F EAD st ∧ indicesAscendWithPosition st.

(** *** The scenario of one borrowed opaque argument *)

(** The type of the twin of a function whose one parameter [param] becomes
    the generic parameter [T]: the signature built from [T] and its
    conformance to the constraint of the parameter's type, one parameter of
    type [T] with the convention of [param], and the results of the
    original. *)
Definition twinTypeOfOneParameter (FTy : SILFunctionType)
    (param : SILParameterInfo) (T : GenericTypeParamType)
    (NewFTy : SILFunctionType) : Prop :=
  let NewSig :=
    buildGenericSignature E (getInvocationGenericSignature FTy) [T]
      [mkRequirement Conformance T
         (erasedConstraint (getArgumentType E param FTy))] in
  getInvocationGenericSignature NewFTy = NewSig
  ∧ getParameters NewFTy =
      [mkSILParameterInfo (getReducedType E T NewSig) (paramConvention param)]
  ∧ getResults NewFTy = getResults FTy
  ∧ getErrorResult NewFTy = getErrorResult FTy
  ∧ getRepresentation (getExtInfo NewFTy) = Thin.

(** The thunk of that function: one block whose argument is the original
    one, that refers to the twin, opens the argument for immutable access,
    applies the twin to the opened address and returns the result of the
    apply.  Nothing else is in the block: no stack slot is allocated and none
    is deallocated. *)
Definition thunkOpensAppliesReturns (F NewF : SILFunction)
    (d : ArgumentDescriptor) (Thunk : SILFunction) : Prop :=
  let x := FunctionArgument (thunkArgumentFor F 0 d) in
  let FRI := FunctionRefInst (getName NewF) in
  let Opened :=
    OpenExistentialAddrInst x
      (getLoweredType E
         (ExistentialArchetypeType (getASTType (argType (Arg d))) 0))
      Immutable in
  exists SubMap,
    let Call := ApplyInst FRI SubMap [Opened] in
    getBlocks Thunk =
      [mkBB [x] [ValueInst FRI; ValueInst Opened; ValueInst Call]
            (Some (ReturnInst Call))].

(** The thunk deallocates a stack slot after its call. *)
Definition deallocatesStackSlotAfterCall (Thunk : SILFunction) : Prop :=
  exists body rest iB Call iA slot,
    getBlocks Thunk = body :: rest
    ∧ bbInsts body = iB ++ [ValueInst Call] ++ iA
    ∧ isApplyInst (ValueInst Call) = true
    ∧ DeallocStackInst slot ∈ iA.

(** *** Running the transform again *)

(** The second of two runs, on the function table [M'], found under the
    computed name the function the first run had left there, with the type it
    computed, took it for its [NewF], and changed nothing of [M'] but the
    function itself, which is the thunk the first run had made of it: no
    second twin is created, and the table the first run left stays as it
    is. *)
Definition twinReused (F : SILFunction) (Mangler : ManglerT E)
    (EAD : ExistentialArgDescriptorMap) (r1 : TransformResult)
    (M' : gmap string SILFunction) (r2 : TransformResult) : Prop :=
  let Name := createExistentialSpecializedFunctionName E Mangler EAD in
  resultModule r1 !! Name = Some (resultNewF r2)
  ∧ fst <$> createExistentialSpecializedFunctionType E F EAD
      = Some (getLoweredFunctionType (resultNewF r2))
  ∧ (exists Thunk,
       resultModule r1 !! getName F = Some Thunk
       ∧ resultModule r2 = <[getName F := Thunk]> M')
  ∧ dom (resultModule r2) = {[getName F]} ∪ dom M'
  ∧ (M' = resultModule r1 -> resultModule r2 = resultModule r1).

(** A function found under the computed name whose type is not the
    computed one fails the assertion of the driver. *)
Definition cachedTypeAsserted (F : SILFunction) (Mangler : ManglerT E)
    (EAD : ExistentialArgDescriptorMap) (ADL : list ArgumentDescriptor)
    : Prop :=
  forall (M : gmap string SILFunction) CachedFn,
    M !! createExistentialSpecializedFunctionName E Mangler EAD = Some CachedFn ->
    fst <$> createExistentialSpecializedFunctionType E F EAD
      ≠ Some (getLoweredFunctionType CachedFn) ->
    createExistentialSpecializedFunction E M F Mangler EAD ADL = None.

(** *** Input the builders get through on *)

Definition handledRepresentation (t : SILType) : Prop :=
  getPreferredExistentialRepresentation E t = Repr_Opaque
  ∨ getPreferredExistentialRepresentation E t = Repr_Class.

(** A descriptor the cloner can make an argument for: an argument that is
    not rewritten is a parameter of the new type; a rewritten one has one of
    the two representations and a generic type that is no existential. *)
Definition clonable (NewF : SILFunction)
    (ArgMap : gmap nat GenericTypeParamType) (d : ArgumentDescriptor) : Prop :=
  match ArgMap !! Index d with
  | None => Index d < length (getParameters (getLoweredFunctionType NewF))
  | Some GP =>
      isAnyExistentialType
        (getASTType (argType (genericArgumentFor NewF 0 GP d))) = false
      ∧ handledRepresentation (argType (Arg d))
  end.

(** The argument of [d] is rewritten by the thunk builder. *)
Definition opened (ArgMap : gmap nat GenericTypeParamType)
    (EAD : ExistentialArgDescriptorMap) (d : ArgumentDescriptor) : Prop :=
  is_Some (ArgMap !! Index d) ∧ is_Some (findDescriptor (Index d) EAD).

(** A descriptor the thunk builder can forward: its index is the position of
    an argument of the thunk, and an opened argument has one of the two
    representations. *)
Definition forwardable (ArgMap : gmap nat GenericTypeParamType)
    (EAD : ExistentialArgDescriptorMap) (nArgs : nat)
    (d : ArgumentDescriptor) : Prop :=
  Index d < nArgs
  ∧ (opened ArgMap EAD d -> handledRepresentation (argType (Arg d))).

(** A generic parameter of the callee the thunk can replace: one of the
    original function, or one an opened argument was mapped to. *)
Definition replaceable (F : SILFunction)
    (ArgMap : gmap nat GenericTypeParamType)
    (EAD : ExistentialArgDescriptorMap) (ADL : list ArgumentDescriptor)
    (GP : GenericTypeParamType) : Prop :=
  gpDepth GP
    < getNextDepth (getInvocationGenericSignature (getLoweredFunctionType F))
  ∨ exists d, d ∈ ADL ∧ ArgMap !! Index d = Some GP
              ∧ is_Some (findDescriptor (Index d) EAD).

(** *** The type of the twin, parameter by parameter *)

(** The type [NewFTy] the type builder hands back for [F], with the map
    [ArgMap] it filled: one parameter per parameter of [F], each with the
    convention of the original; a parameter whose position is a key of the
    descriptor map has the reduced type of the generic parameter the map gives
    it, which sits at the new depth, and every other parameter is the original
    one; yields, results, error result, coroutine kind and callee convention
    are those of [F]; the representation is thin, the other bits of the
    [ExtInfo] are kept, and the type carries no substitutions. *)
Definition specializedTypeShape (F : SILFunction)
    (EAD : ExistentialArgDescriptorMap) (NewFTy : SILFunctionType)
    (ArgMap : gmap nat GenericTypeParamType) : Prop :=
  let FTy := getLoweredFunctionType F in
  let Depth := getNextDepth (getInvocationGenericSignature FTy) in
  length (getParameters NewFTy) = length (getParameters FTy)
  ∧ (forall i param, getParameters FTy !! i = Some param ->
       exists param',
         getParameters NewFTy !! i = Some param'
         ∧ paramConvention param' = paramConvention param
         ∧ (i ∉ (fst <$> EAD) -> param' = param)
         ∧ (i ∈ (fst <$> EAD) ->
              exists GP,
                ArgMap !! i = Some GP
                ∧ gpDepth GP = Depth
                ∧ paramInterfaceType param' =
                    getReducedType E GP (getInvocationGenericSignature NewFTy)))
  ∧ getYields NewFTy = getYields FTy
  ∧ getResults NewFTy = getResults FTy
  ∧ getErrorResult NewFTy = getErrorResult FTy
  ∧ getCoroutineKind NewFTy = getCoroutineKind FTy
  ∧ getCalleeConvention NewFTy = getCalleeConvention FTy
  ∧ getRepresentation (getExtInfo NewFTy) = Thin
  ∧ extOtherBits (getExtInfo NewFTy) = extOtherBits (getExtInfo FTy)
  ∧ getPatternSubstitutions NewFTy = []
  ∧ getInvocationSubstitutions NewFTy = [].

(** The index-to-parameter map sends different argument positions to
    different generic parameters, all of one depth. *)
Definition parametersDistinct (ArgMap : gmap nat GenericTypeParamType)
    : Prop :=
  forall Idx1 Idx2 GP1 GP2,
    ArgMap !! Idx1 = Some GP1 -> ArgMap !! Idx2 = Some GP2 ->
    gpDepth GP1 = gpDepth GP2 ∧ (GP1 = GP2 -> Idx1 = Idx2).

(** *** More on the entry block of the twin *)

(** The stack slots a list of instructions allocates, and the ones it
    deallocates, in order. *)
Definition stackAllocations (insts : list SILInstruction) : list SILValue :=
  omap (fun i => match i with
                 | ValueInst (AllocStackInst id ty) => Some (AllocStackInst id ty)
                 | _ => None
                 end) insts.

Definition stackDeallocations (insts : list SILInstruction) : list SILValue :=
  omap (fun i => match i with
                 | DeallocStackInst v => Some v
                 | _ => None
                 end) insts.

(** A stack slot allocated at a position from [lo] up to [hi]. *)
Definition slotWithin (lo hi : nat) (v : SILValue) : Prop :=
  match v with
  | AllocStackInst id _ => lo ≤ id < hi
  | _ => False
  end.

(** The entry block of the twin has one argument per descriptor and the
    cloned body one value; each argument keeps the declaration, the flags and
    the value category of the original; an argument that is not rewritten is
    handed to the body as it is, and a rewritten one has the lowered type of
    its generic parameter and the ownership of the original convention. *)
Definition entryArgumentsCloned (NewF : SILFunction)
    (ArgMap : gmap nat GenericTypeParamType) (ADL : list ArgumentDescriptor)
    (st : ClonerState) : Prop :=
  length (bbArgs (ClonedEntryBB st)) = length ADL
  ∧ length (entryArgs st) = length ADL
  ∧ forall k d, ADL !! k = Some d ->
      exists a,
        bbArgs (ClonedEntryBB st) !! k = Some (FunctionArgument a)
        ∧ argIndex a = k
        ∧ argDecl a = Decl d
        ∧ argFlags a = argFlags (Arg d)
        ∧ getCategory (argType a) = getCategory (argType (Arg d))
        ∧ (ArgMap !! Index d = None ->
             entryArgs st !! k = Some (FunctionArgument a))
        ∧ (forall GP, ArgMap !! Index d = Some GP ->
             getASTType (argType a) =
               getASTType
                 (getLoweredType E
                    (mapTypeIntoContext E (getGenericEnvironment NewF)
                       (GenericTypeParam GP)))
             ∧ argOwnershipKind a =
                 ValueOwnershipKind E (argType a) (ArgConvention d)).

(** The descriptor at position [k] is a class existential.  A generic
    argument that is an object is boxed, after its copy if it gets one, and
    the box stands for the original argument.  A generic argument at an
    address is first loaded, by a copy exactly when the twin has ownership and
    the original argument was not consumed and by a take otherwise; the box is
    then stored into a fresh stack slot, and the slot, registered for
    deallocation and not for destruction, stands for the original argument. *)
Definition classArgumentPassed (NewF : SILFunction)
    (EAD : ExistentialArgDescriptorMap) (st : ClonerState) (k : nat)
    (d : ArgumentDescriptor) : Prop :=
  let consumed := isConsumed (descriptorAt (Index d) EAD) in
  exists NewArg iB iA,
    let NewArgV := FunctionArgument NewArg in
    let InitRef := boxedReference NewF NewArg d consumed in
    let copies :=
      if takesOwningCopy NewF NewArg
      then [ValueInst (CopyValueOperation NewArgV)] else [] in
    bbArgs (ClonedEntryBB st) !! k = Some NewArgV
    ∧ if isObject (argType NewArg) then
        bbInsts (ClonedEntryBB st) = iB ++ copies ++ [ValueInst InitRef] ++ iA
        ∧ entryArgs st !! k = Some InitRef
      else
        exists qual,
          let alloc :=
            AllocStackInst (length iB + 1 + length copies + 1)
              (getObjectType (argType (Arg d))) in
          bbInsts (ClonedEntryBB st) =
            iB ++ [ValueInst (LoadValueOperation NewArgV qual)] ++ copies
               ++ [ValueInst InitRef; ValueInst alloc;
                   StoreValueOperation InitRef alloc Store_Init] ++ iA
          ∧ qual = (if hasOwnership NewF && negb consumed
                    then Load_Copy else Load_Take)
          ∧ entryArgs st !! k = Some alloc
          ∧ alloc ∈ AllocStackInsts st
          ∧ (alloc ∉ CleanupValues st).

(** The stack slots of the twin are balanced: the slots the entry block
    allocates are the registered ones, no slot twice, and every exit
    deallocates them in the reverse of the order of their allocation. *)
Definition twinStackBalanced (OrigF NewF : SILFunction)
    (ArgMap : gmap nat GenericTypeParamType)
    (EAD : ExistentialArgDescriptorMap) (ADL : list ArgumentDescriptor)
    (Twin : SILFunction) : Prop :=
  exists st,
    cloneArguments E NewF ArgMap EAD ADL = Some st
    ∧ stackAllocations (bbInsts (ClonedEntryBB st)) = AllocStackInsts st
    ∧ NoDup (AllocStackInsts st)
    ∧ Forall2
        (fun bb bb' =>
           isExitingBlock E bb = true ->
           stackDeallocations (drop (length (bbInsts bb)) (bbInsts bb'))
             = reverse (stackAllocations (bbInsts (ClonedEntryBB st))))
        (cloneFunctionBody E OrigF (setBlocks NewF [ClonedEntryBB st])
           (ClonedEntryBB st) (entryArgs st))
        (getBlocks Twin).


(** The cloner has nothing to clean up: its entry block holds the arguments
    only, and the cloned body is handed these arguments. *)
Definition emptyPrologue (st : ClonerState) : Prop :=
  bbInsts (ClonedEntryBB st) = []
  ∧ CleanupValues st = []
  ∧ AllocStackInsts st = []
  ∧ entryArgs st = bbArgs (ClonedEntryBB st).

(** The assertion in front of a destroy fails for some registered cleanup
    value. *)
Definition guaranteedCleanup (st : ClonerState) : Prop :=
  Exists (fun v => getOwnershipKind E v = OwnershipKind_Guaranteed)
    (CleanupValues st).


(** *** What one argument adds to the body of the thunk

    [argumentOpening] restates one turn of the second loop of
    [populateThunkBody] by what it adds: the instructions, the argument of the
    call, the temporaries to clean up after the call and the entry of
    [GenericToOpenedTypeMap].  It depends on the state of the loop only through
    the arguments of the thunk and the number of instructions its body already
    has.  [thunkArgument_opening] below shows that the turn of the loop does
    exactly this. *)
Record Opening : Type := mkOpening {
  oInsts : list SILInstruction;
  oApplyArg : SILValue;
  oTemps : list Temp;
  oOpened : option (GenericTypeParamType * CanType)
}.

(** The archetype an existential argument is opened to. *)
Definition openedTypeFor (d : ArgumentDescriptor) : CanType :=
  ExistentialArchetypeType (getASTType (argType (Arg d))) (Index d).

(** The thunk copies a class existential before it opens it: in a function
    with ownership, for an argument that was not consumed. *)
Definition copiesBeforeOpening (F : SILFunction)
    (ETAD : ExistentialTransformArgumentDescriptor) : bool :=
  hasOwnership F && negb (isConsumed ETAD).

(** The reference a class existential is opened from. *)
Definition referenceToOpen (F : SILFunction)
    (ETAD : ExistentialTransformArgumentDescriptor)
    (OrigOperand : SILValue) (OrigOperandTy : SILType) : SILValue :=
  if isObject OrigOperandTy then
    if copiesBeforeOpening F ETAD then CopyValueOperation OrigOperand
    else OrigOperand
  else
    LoadValueOperation OrigOperand
      (if copiesBeforeOpening F ETAD then Load_Copy else Load_Take).

Definition argumentOpening (F : SILFunction)
    (ArgMap : gmap nat GenericTypeParamType)
    (EAD : ExistentialArgDescriptorMap) (args : list SILValue) (nInsts : nat)
    (d : ArgumentDescriptor) : option Opening :=
  match ArgMap !! Index d, findDescriptor (Index d) EAD with
  | Some GP, Some ETAD =>
      OrigOperand ← args !! Index d;
      OrigOperandTy ← getType OrigOperand;
      let OpenedSILType := getLoweredType E (openedTypeFor d) in
      let entry := Some (GP, openedTypeFor d) in
      match getPreferredExistentialRepresentation E (argType (Arg d)) with
      | Repr_Opaque =>
          let archetypeValue :=
            OpenExistentialAddrInst OrigOperand OpenedSILType (AccessType ETAD) in
          if isConsumed ETAD then
            let ASI := AllocStackInst (S nInsts) OpenedSILType in
            Some (mkOpening
                    [ValueInst archetypeValue; ValueInst ASI;
                     CopyAddrInst archetypeValue ASI IsNotTake IsInitialization]
                    ASI [mkTemp (Some ASI) (Some OrigOperand)] entry)
          else
            Some (mkOpening [ValueInst archetypeValue] archetypeValue [] entry)
      | Repr_Class =>
          let OrigValue := referenceToOpen F ETAD OrigOperand OrigOperandTy in
          let archetypeValue := OpenExistentialRefInst OrigValue OpenedSILType in
          if isObject OrigOperandTy then
            Some (mkOpening
                    ((if copiesBeforeOpening F ETAD
                      then [ValueInst OrigValue] else [])
                       ++ [ValueInst archetypeValue])
                    archetypeValue
                    (if copiesBeforeOpening F ETAD
                     then [mkTemp None (Some archetypeValue)] else [])
                    entry)
          else
            let ASI := AllocStackInst (nInsts + 2) OpenedSILType in
            Some (mkOpening
                    [ValueInst OrigValue; ValueInst archetypeValue;
                     ValueInst ASI;
                     StoreValueOperation archetypeValue ASI Store_Init]
                    ASI [mkTemp (Some ASI) None] entry)
      | _ => None
      end
  | _, _ =>
      arg ← args !! Index d;
      Some (mkOpening [] arg [] None)
  end.

Definition addOpening (st : ThunkState) (o : Opening) : ThunkState :=
  mkThunkState
    (mkBB (bbArgs (ThunkBody st)) (bbInsts (ThunkBody st) ++ oInsts o)
          (bbTerm (ThunkBody st)))
    (ApplyArgs st ++ [oApplyArg o])
    (Temps st ++ oTemps o)
    (match oOpened o with
     | Some (GP, ty) => denseInsert GP ty (GenericToOpenedTypeMap st)
     | None => GenericToOpenedTypeMap st
     end).

(** The openings of a list of descriptors, the first one added to a body
    that has [nInsts] instructions. *)
Fixpoint openingsFrom (F : SILFunction)
    (ArgMap : gmap nat GenericTypeParamType)
    (EAD : ExistentialArgDescriptorMap) (args : list SILValue) (nInsts : nat)
    (ADL : list ArgumentDescriptor) : option (list Opening) :=
  match ADL with
  | [] => Some []
  | d :: rest =>
      o ← argumentOpening F ArgMap EAD args nInsts d;
      os ← openingsFrom F ArgMap EAD args (nInsts + length (oInsts o)) rest;
      Some (o :: os)
  end.

(** What the cleanup loop emits for a list of temporaries, taken in the order
    of the list. *)
Definition tempCleanup (T : Temp) : list SILInstruction :=
  match DestroyValue T with Some v => [DestroyOperation v] | None => [] end
  ++ match DeallocStackEntry T with Some a => [DeallocStackInst a] | None => [] end.

(** The layout of the thunk: the reference to the twin, the instructions
    [pre] that open the arguments, the call with the substitutions [SubMap]
    and the arguments [args], and the instructions [post] that follow the
    call.  With an error result the call is the [try_apply] that ends the
    body, and what follows it is the normal block; the error block has no
    instruction.  The block that holds [post] ends in [term]. *)
Definition thunkLayout (NewF Thunk : SILFunction)
    (pre : list SILInstruction) (SubMap : SubstitutionMap)
    (args : list SILValue) (post : list SILInstruction)
    (ReturnValue : SILValue) (term : option TermInst) : Prop :=
  let FRI := FunctionRefInst (getName NewF) in
  let CalleeTy := getLoweredFunctionType NewF in
  match getErrorResult CalleeTy with
  | Some ErrorResult =>
      exists body normal error,
        getBlocks Thunk = [body; normal; error]
        ∧ bbInsts body = ValueInst FRI :: pre
        ∧ bbTerm body = Some (TryApplyInst FRI SubMap args 1 2)
        ∧ bbArgs normal = [ReturnValue]
        ∧ ReturnValue =
            PhiArgument 1 (getSILResultType E CalleeTy SubMap) OwnershipKind_Owned
        ∧ bbInsts normal = post
        ∧ bbTerm normal = term
        ∧ bbInsts error = []
  | None =>
      exists body,
        getBlocks Thunk = [body]
        ∧ ReturnValue = ApplyInst FRI SubMap args
        ∧ bbInsts body = ValueInst FRI :: pre ++ [ValueInst ReturnValue] ++ post
        ∧ bbTerm body = term
  end.

(** The arguments of the thunk, as the first loop creates them. *)
Definition thunkArguments (F : SILFunction) (ADL : list ArgumentDescriptor)
    : list SILValue :=
  imap (fun k d => FunctionArgument (thunkArgumentFor F k d)) ADL.


(** [GenericToOpenedTypeMap] after a list of openings. *)
Definition openedTypes (os : list Opening)
    (m : gmap GenericTypeParamType CanType)
    : gmap GenericTypeParamType CanType :=
  foldl (fun m o => match oOpened o with
                    | Some (GP, ty) => denseInsert GP ty m
                    | None => m
                    end) m os.

(** How the thunk ends the block that follows the call. *)
Definition thunkTerminator (NewF : SILFunction) (ReturnValue : SILValue)
    : TermInst :=
  if isNoReturnFunction E (getLoweredFunctionType NewF)
  then UnreachableInst else ReturnInst ReturnValue.


(** *** The thunk, argument by argument *)

(** The thunk passes the twin one argument per descriptor; a descriptor that
    is not opened passes on the argument of the thunk at its index; and a
    thunk that opens nothing consists of the reference to the twin, the call
    and the terminator. *)
Definition thunkForwardsArguments (F NewF : SILFunction)
    (ArgMap : gmap nat GenericTypeParamType)
    (EAD : ExistentialArgDescriptorMap) (ADL : list ArgumentDescriptor)
    (Thunk : SILFunction) : Prop :=
  exists pre SubMap args post ReturnValue term,
    thunkLayout NewF Thunk pre SubMap args post ReturnValue term
    ∧ length args = length ADL
    ∧ (forall k d, ADL !! k = Some d -> ¬ opened ArgMap EAD d ->
         exists d', ADL !! Index d = Some d'
           ∧ args !! k =
               Some (FunctionArgument (thunkArgumentFor F (Index d) d')))
    ∧ (Forall (fun d => ¬ opened ArgMap EAD d) ADL -> pre = [] ∧ post = []).

(** The descriptor [d] at position [k] is an opened opaque existential with
    the entry [ETAD] of the descriptor map.  The thunk opens its argument with
    the access kind of [ETAD].  A consumed argument is copied, not taken, into
    a fresh stack slot that is passed to the twin, and after the call the
    original argument is destroyed and the slot deallocated.  An argument that
    is not consumed is passed as the opened address, and the thunk does not
    destroy it. *)
Definition opaqueArgumentOpened (F NewF : SILFunction)
    (ADL : list ArgumentDescriptor) (Thunk : SILFunction) (k : nat)
    (d : ArgumentDescriptor) (ETAD : ExistentialTransformArgumentDescriptor)
    : Prop :=
  exists d' pre SubMap args post ReturnValue term iB iA,
    let OrigOperand := FunctionArgument (thunkArgumentFor F (Index d) d') in
    let OpenedSILType := getLoweredType E (openedTypeFor d) in
    let archetypeValue :=
      OpenExistentialAddrInst OrigOperand OpenedSILType (AccessType ETAD) in
    let ASI := AllocStackInst (length iB + 2) OpenedSILType in
    thunkLayout NewF Thunk pre SubMap args post ReturnValue term
    ∧ ADL !! Index d = Some d'
    ∧ if isConsumed ETAD then
        pre = iB ++ [ValueInst archetypeValue; ValueInst ASI;
                     CopyAddrInst archetypeValue ASI IsNotTake IsInitialization]
                 ++ iA
        ∧ args !! k = Some ASI
        ∧ exists pB pA,
            post = pB ++ [DestroyOperation OrigOperand; DeallocStackInst ASI] ++ pA
      else
        pre = iB ++ [ValueInst archetypeValue] ++ iA
        ∧ args !! k = Some archetypeValue
        ∧ (DestroyOperation OrigOperand ∉ post).

(** The descriptor [d] at position [k] is an opened class existential with
    the entry [ETAD] of the descriptor map.  An argument that is an object is
    opened, from a copy exactly when the thunk has ownership and the argument
    was not consumed, and the opened reference is passed to the twin and
    destroyed after the call exactly when it was opened from a copy.  An
    argument at an address is loaded, by a copy under the same condition and
    by a take otherwise, opened and stored into a fresh stack slot that is
    passed to the twin and deallocated after the call; the opened reference is
    not destroyed. *)
Definition classArgumentOpened (F NewF : SILFunction)
    (ADL : list ArgumentDescriptor) (Thunk : SILFunction) (k : nat)
    (d : ArgumentDescriptor) (ETAD : ExistentialTransformArgumentDescriptor)
    : Prop :=
  exists d' pre SubMap args post ReturnValue term iB iA,
    let OrigOperand := FunctionArgument (thunkArgumentFor F (Index d) d') in
    let OpenedSILType := getLoweredType E (openedTypeFor d) in
    let OrigValue :=
      referenceToOpen F ETAD OrigOperand (argType (Arg d')) in
    let archetypeValue := OpenExistentialRefInst OrigValue OpenedSILType in
    let ASI := AllocStackInst (length iB + 3) OpenedSILType in
    thunkLayout NewF Thunk pre SubMap args post ReturnValue term
    ∧ ADL !! Index d = Some d'
    ∧ if isObject (argType (Arg d')) then
        pre = iB ++ (if copiesBeforeOpening F ETAD
                     then [ValueInst OrigValue] else [])
                 ++ [ValueInst archetypeValue] ++ iA
        ∧ args !! k = Some archetypeValue
        ∧ (DestroyOperation archetypeValue ∈ post
           <-> copiesBeforeOpening F ETAD = true)
      else
        pre = iB ++ [ValueInst OrigValue; ValueInst archetypeValue;
                     ValueInst ASI;
                     StoreValueOperation archetypeValue ASI Store_Init] ++ iA
        ∧ args !! k = Some ASI
        ∧ DeallocStackInst ASI ∈ post
        ∧ (DestroyOperation archetypeValue ∉ post).

(** The thunk keeps the stack discipline and ends as the twin does: no stack
    slot is allocated twice, the instructions after the call deallocate the
    slots allocated before it in the reverse of the order of their allocation,
    and the block after the call is unreachable when the twin never returns and
    returns the value of the call otherwise.  The layout says where the
    instructions after the call are: with a [try_apply] they are the normal
    block, and the error block has none. *)
Definition thunkStackBalanced (NewF Thunk : SILFunction) : Prop :=
  exists pre SubMap args post ReturnValue,
    thunkLayout NewF Thunk pre SubMap args post ReturnValue
      (Some (thunkTerminator NewF ReturnValue))
    ∧ NoDup (stackAllocations pre)
    ∧ stackDeallocations post = reverse (stackAllocations pre).

(** The substitutions of the call: one per generic parameter of the twin, in
    the order of its signature; a parameter of the original function is
    replaced as the forwarding substitutions of the original function say, and
    a new one by the archetype of an argument the thunk opened for it. *)
Definition thunkSubstitutions (F NewF : SILFunction)
    (ArgMap : gmap nat GenericTypeParamType)
    (EAD : ExistentialArgDescriptorMap) (ADL : list ArgumentDescriptor)
    (Thunk : SILFunction) : Prop :=
  let OrigDepth :=
    getNextDepth (getInvocationGenericSignature (getLoweredFunctionType F)) in
  exists pre SubMap args post ReturnValue term,
    thunkLayout NewF Thunk pre SubMap args post ReturnValue term
    ∧ fst <$> SubMap =
        getGenericParams
          (getInvocationGenericSignature (getLoweredFunctionType NewF))
    ∧ forall GP ty, (GP, ty) ∈ SubMap ->
        if decide (gpDepth GP < OrigDepth)
        then ty = substGenericParam E GP (getForwardingSubstitutionMap E F)
        else exists d, d ∈ ADL ∧ opened ArgMap EAD d
               ∧ ArgMap !! Index d = Some GP ∧ ty = openedTypeFor d.


(** Where the value a temporary destroys comes from: it is the reference
    opened from a copy, or the thunk's own argument for a consumed entry of
    the descriptor map. *)
Definition tempKind (EAD : ExistentialArgDescriptorMap)
    (args : list SILValue) (T : Temp) : Prop :=
  match DestroyValue T with
  | None => True
  | Some (OpenExistentialRefInst (CopyValueOperation _) _) => True
  | Some v =>
      exists Idx ETAD,
        args !! Idx = Some v
        ∧ findDescriptor Idx EAD = Some ETAD
        ∧ isConsumed ETAD = true
  end.


(** *** The driver *)

(** What a run that finds no function under the computed name leaves: a twin
    of that name and of the computed type, with the specialized linkage, the
    generic environment of its own signature and every other attribute of
    [F], the ownership flag included; the twin under its name and the thunk
    under the name of [F]; and every other function of the module as it
    was. *)
Definition twinCreated (M : gmap string SILFunction) (F : SILFunction)
    (Mangler : ManglerT E) (EAD : ExistentialArgDescriptorMap)
    (ADL : list ArgumentDescriptor) (r : TransformResult) : Prop :=
  let Name := createExistentialSpecializedFunctionName E Mangler EAD in
  let NewF := resultNewF r in
  getName NewF = Name
  ∧ fst <$> createExistentialSpecializedFunctionType E F EAD
      = Some (getLoweredFunctionType NewF)
  ∧ getGenericEnvironment NewF
      = getInvocationGenericSignature (getLoweredFunctionType NewF)
  ∧ getLinkage NewF = getSpecializedLinkage E F
  ∧ isBare NewF = isBare F
  ∧ isTransparent NewF = isTransparent F
  ∧ getSerializedKind NewF = getSerializedKind F
  ∧ getEntryCount NewF = getEntryCount F
  ∧ isThunk NewF = isThunk F
  ∧ getClassSubclassScope NewF = getClassSubclassScope F
  ∧ getInlineStrategy NewF = getInlineStrategy F
  ∧ getEffectsKind NewF = getEffectsKind F
  ∧ getSemanticsAttrs NewF = getSemanticsAttrs F
  ∧ hasOwnership NewF = hasOwnership F
  ∧ (exists Thunk,
       resultModule r = <[getName F := Thunk]> (<[Name := NewF]> M)
       ∧ isThunk Thunk = IsSignatureOptimizedThunk
       ∧ getInlineStrategy Thunk = AlwaysInline)
  ∧ forall n, n ≠ Name -> n ≠ getName F -> resultModule r !! n = M !! n.


End Statements.

(** * Properties *)

Section Properties.

Context (E : Collaborators).

(** Case analysis on every disjunction among the hypotheses. *)
Ltac split_or :=
  repeat match goal with H : _ ∨ _ |- _ => destruct H as [H|H] end.

(** ** The arguments of the thunk *)

Lemma createThunkArguments_spec F ADL bb :
  let bb' := foldl (createThunkArgument E F) bb ADL in
  bbArgs bb' =
    bbArgs bb ++
    imap (fun k d => FunctionArgument (thunkArgumentFor E F (length (bbArgs bb) + k) d)) ADL
  ∧ bbInsts bb' = bbInsts bb ∧ bbTerm bb' = bbTerm bb.
Proof.
  revert bb. induction ADL as [|d ADL IH]; intros bb; simpl.
  - by rewrite app_nil_r.
  - destruct (IH (createThunkArgument E F bb d)) as (Ha & Hi & Ht).
    rewrite Ha, Hi, Ht. simpl. split; [|done].
    rewrite <- app_assoc. simpl. f_equal.
    rewrite Nat.add_0_r. f_equal.
    apply imap_ext. intros k x _. simpl.
    rewrite length_app. simpl. do 2 f_equal. lia.
Qed.

Lemma thunkArgument_frame F ArgMap EAD st d st' :
  thunkArgument E F ArgMap EAD st d = Some st' ->
  bbArgs (ThunkBody st') = bbArgs (ThunkBody st)
  ∧ bbTerm (ThunkBody st') = bbTerm (ThunkBody st).
Proof.
  unfold thunkArgument, createAllocStack, createValue.
  intros H. repeat (case_match; simplify_option_eq); done.
Qed.

Lemma thunkArgumentsFrom_frame F ArgMap EAD ADL st st' :
  thunkArgumentsFrom E F ArgMap EAD ADL st = Some st' ->
  bbArgs (ThunkBody st') = bbArgs (ThunkBody st)
  ∧ bbTerm (ThunkBody st') = bbTerm (ThunkBody st).
Proof.
  revert st. induction ADL as [|d ADL IH]; intros st H; simpl in H.
  - by simplify_eq.
  - destruct (thunkArgument E F ArgMap EAD st d) as [st1|] eqn:Hd; [|done].
    simpl in H. apply IH in H as [-> ->].
    by apply thunkArgument_frame in Hd.
Qed.

Lemma emitTempCleanups_frame temps bb :
  bbArgs (emitTempCleanups temps bb) = bbArgs bb
  ∧ bbTerm (emitTempCleanups temps bb) = bbTerm bb.
Proof.
  unfold emitTempCleanups. generalize (reverse temps) as l. intros l.
  revert bb. induction l as [|T l IH]; intros bb; simpl; [done|].
  destruct (IH (emitTempCleanup bb T)) as [-> ->].
  unfold emitTempCleanup. by destruct (DestroyValue T), (DeallocStackEntry T).
Qed.

(** Opening the arguments emits no apply. *)
Lemma thunkArgument_no_apply F ArgMap EAD st d st' :
  thunkArgument E F ArgMap EAD st d = Some st' ->
  forallb (negb ∘ isApplyInst) (bbInsts (ThunkBody st)) = true ->
  forallb (negb ∘ isApplyInst) (bbInsts (ThunkBody st')) = true.
Proof.
  unfold thunkArgument, createAllocStack, createValue.
  intros H Hst.
  repeat (case_match; simplify_option_eq); simpl;
    rewrite ?forallb_app, ?Hst; done.
Qed.

Lemma thunkArgumentsFrom_no_apply F ArgMap EAD ADL st st' :
  thunkArgumentsFrom E F ArgMap EAD ADL st = Some st' ->
  forallb (negb ∘ isApplyInst) (bbInsts (ThunkBody st)) = true ->
  forallb (negb ∘ isApplyInst) (bbInsts (ThunkBody st')) = true.
Proof.
  revert st. induction ADL as [|d ADL IH]; intros st H Hst; simpl in H.
  - by simplify_eq.
  - destruct (thunkArgument E F ArgMap EAD st d) as [st1|] eqn:Hd; [|done].
    simpl in H. eapply IH; [done|]. by eapply thunkArgument_no_apply.
Qed.

(** What a successful [populateThunkBody] went through. *)
Lemma populateThunkBody_inv F NewF ArgMap EAD ADL Thunk :
  populateThunkBody E F NewF ArgMap EAD ADL = Some Thunk ->
  let FRI := FunctionRefInst (getName NewF) in
  let GenCalleeType := getLoweredFunctionType NewF in
  exists st SubMap,
    thunkArgumentsFrom E F ArgMap EAD ADL
      (mkThunkState
         (emit (ValueInst FRI)
            (foldl (createThunkArgument E F) (mkBB [] [] None) ADL)) [] [] ∅)
      = Some st
    ∧ mapM (thunkReplacement E
              (getNextDepth (getInvocationGenericSignature (getLoweredFunctionType F)))
              (getForwardingSubstitutionMap E F) (GenericToOpenedTypeMap st))
           (getGenericParams (getInvocationGenericSignature GenCalleeType))
      = Some SubMap
    ∧ let ResultType := getSILResultType E GenCalleeType SubMap in
      let terminate (ReturnValue : SILValue) (bb : SILBasicBlock) :=
        let bb := emitTempCleanups (Temps st) bb in
        if isNoReturnFunction E GenCalleeType
        then setTerminator UnreachableInst bb
        else setTerminator (ReturnInst ReturnValue) bb in
      Thunk = asThunk F
        match getErrorResult GenCalleeType with
        | Some ErrorResult =>
            let ReturnValue := PhiArgument 1 ResultType OwnershipKind_Owned in
            let ErrorArg :=
              PhiArgument 2 (getSILErrorType E GenCalleeType SubMap ErrorResult)
                OwnershipKind_Owned in
            [setTerminator (TryApplyInst FRI SubMap (ApplyArgs st) 1 2) (ThunkBody st);
             terminate ReturnValue (mkBB [ReturnValue] [] None);
             mkBB [ErrorArg] [] (Some (ThrowInst ErrorArg))]
        | None =>
            [terminate (ApplyInst FRI SubMap (ApplyArgs st))
               (emit (ValueInst (ApplyInst FRI SubMap (ApplyArgs st))) (ThunkBody st))]
        end.
Proof.
  unfold populateThunkBody, createValue. cbv zeta. intros H.
  destruct (thunkArgumentsFrom _ _ _ _ _ _) as [st|] eqn:Hst; [|done].
  simpl in H.
  destruct (mapM _ _) as [SubMap|] eqn:Hsub; [|done].
  simpl in H. exists st, SubMap. split; [done|]. split; [done|].
  destruct (getErrorResult (getLoweredFunctionType NewF)); by simplify_eq.
Qed.

Lemma emitTempCleanups_no_apply temps bb :
  forallb (negb ∘ isApplyInst) (bbInsts bb) = true ->
  forallb (negb ∘ isApplyInst) (bbInsts (emitTempCleanups temps bb)) = true.
Proof.
  unfold emitTempCleanups. generalize (reverse temps) as l. intros l.
  revert bb. induction l as [|T l IH]; intros bb Hbb; simpl; [done|].
  apply IH. unfold emitTempCleanup.
  destruct (DestroyValue T), (DeallocStackEntry T); simpl;
    rewrite ?forallb_app, ?Hbb; done.
Qed.

Lemma emitTempCleanups_insts temps bb :
  exists new, bbInsts (emitTempCleanups temps bb) = bbInsts bb ++ new
    ∧ forallb (negb ∘ isApplyInst) new = true.
Proof.
  unfold emitTempCleanups. generalize (reverse temps) as l. intros l.
  revert bb. induction l as [|T l IH]; intros bb; simpl.
  - exists []. by rewrite app_nil_r.
  - destruct (IH (emitTempCleanup bb T)) as (new & -> & Hnew).
    unfold emitTempCleanup.
    destruct (DestroyValue T), (DeallocStackEntry T); simpl;
      rewrite <- ?app_assoc; eexists; (split; [reflexivity|]); simpl; done.
Qed.

Lemma filter_no_apply (l : list SILInstruction) :
  forallb (negb ∘ isApplyInst) l = true ->
  filter (fun i => isApplyInst i = true) l = [].
Proof.
  induction l as [|i l IH]; simpl; [done|].
  intros [Hi Hl]%andb_prop. rewrite filter_cons.
  destruct (decide (isApplyInst i = true)) as [Hi'|_]; [|by apply IH].
  by rewrite Hi' in Hi.
Qed.

Lemma populateThunkBody_signature F NewF ArgMap EAD ADL Thunk :
  populateThunkBody E F NewF ArgMap EAD ADL = Some Thunk ->
  thunkKeepsSignature F ADL Thunk.
Proof.
  intros H. apply populateThunkBody_inv in H as (st & SubMap & Hst & _ & ->).
  apply thunkArgumentsFrom_frame in Hst as [Hargs _]. simpl in Hargs.
  destruct (createThunkArguments_spec F ADL (mkBB [] [] None)) as (Hthunk & _ & _).
  simpl in Hthunk. rewrite Hthunk in Hargs.
  split; [by repeat split|]. split; [done|]. split; [done|].
  assert (forall entry, bbArgs entry =
            imap (fun k d => FunctionArgument (thunkArgumentFor E F k d)) ADL ->
          entryArgumentsAsOriginal ADL entry) as Hentry.
  { intros entry Hen. split.
    - by rewrite Hen, length_imap.
    - intros k d Hk. exists (thunkArgumentFor E F k d).
      rewrite Hen, list_lookup_imap, Hk. done. }
  destruct (getErrorResult (getLoweredFunctionType NewF)); simpl.
  - eexists _, _. split; [reflexivity|]. apply Hentry. simpl. exact Hargs.
  - eexists _, _. split; [reflexivity|]. apply Hentry.
    destruct (isNoReturnFunction E _); simpl;
      by rewrite (proj1 (emitTempCleanups_frame _ _)).
Qed.

(** C4.  The thunk that replaces [F] keeps the external signature of [F]:
    its entry block has one argument per original argument, each with the
    type, the declaration and the flags of the original one, and of [F] only
    the body, the thunk kind and the inline strategy change. *)
Theorem thunk_preserves_signature F NewF ArgMap EAD ADL Thunk :
  populateThunkBody E F NewF ArgMap EAD ADL = Some Thunk ->
  thunkKeepsSignature F ADL Thunk.
Proof. apply populateThunkBody_signature. Qed.

(** C7.  When the type of the twin has an error result the thunk calls it
    with a [try_apply] that has two successors, a normal block that receives
    the result and an error block that receives the error and throws that very
    value at once; without an error result the thunk makes one plain [apply].
    Either way the error of the compiled program is passed on as it is. *)
Theorem thunk_forwards_errors F NewF ArgMap EAD ADL Thunk :
  populateThunkBody E F NewF ArgMap EAD ADL = Some Thunk ->
  thunkCallShape E NewF Thunk.
Proof.
  intros H. apply populateThunkBody_inv in H as (st & SubMap & Hst & _ & ->).
  apply thunkArgumentsFrom_no_apply in Hst as Hno.
  2:{ simpl. rewrite forallb_app. simpl.
      destruct (createThunkArguments_spec F ADL (mkBB [] [] None)) as (_ & -> & _).
      done. }
  unfold thunkCallShape.
  destruct (getErrorResult (getLoweredFunctionType NewF)) as [err|]; simpl.
  - eexists _, _, _, SubMap, (ApplyArgs st). cbv zeta.
    split; [reflexivity|]. simpl. split; [done|]. split; [done|].
    unfold returnsOrUnreachable.
    destruct (isNoReturnFunction E _); simpl;
      rewrite (proj1 (emitTempCleanups_frame _ _)); simpl; auto 10.
  - eexists _, SubMap, (ApplyArgs st). cbv zeta. split; [reflexivity|].
    set (Call := ApplyInst _ _ _).
    destruct (emitTempCleanups_insts (Temps st)
                (emit (ValueInst Call) (ThunkBody st))) as (new & Hnew & Hnone).
    assert (filter (fun i => isApplyInst i = true)
              (bbInsts (emitTempCleanups (Temps st)
                 (emit (ValueInst Call) (ThunkBody st)))) = [ValueInst Call]) as Hf.
    { rewrite Hnew. simpl. rewrite !filter_app.
      rewrite (filter_no_apply _ Hno), (filter_no_apply _ Hnone). done. }
    unfold returnsOrUnreachable.
    destruct (isNoReturnFunction E _); simpl; rewrite Hf; auto.
Qed.

(** ** The entry block of the twin *)

Lemma cloneArgument_prologue NewF ArgMap EAD st d :
  cloneArgument E NewF ArgMap EAD st d =
    addPrologue st <$>
      argumentPrologue E NewF ArgMap EAD
        (length (bbArgs (ClonedEntryBB st)))
        (length (bbInsts (ClonedEntryBB st))) d.
Proof.
  unfold cloneArgument, argumentPrologue, addPrologue.
  destruct st as [[args insts term] allocs cleanups entry]; simpl.
  destruct (ArgMap !! Index d) as [GP|]; simpl.
  2:{ destruct (getParameters (getLoweredFunctionType NewF) !! Index d); simpl;
        [|done]. unfold addArgument, copyFlags. simpl.
      by rewrite !app_nil_r. }
  fold (genericArgumentFor E NewF (length args) GP d).
  unfold copyFlags; simpl. fold (genericArgumentFor E NewF (length args) GP d).
  set (NewArg := genericArgumentFor E NewF (length args) GP d).
  destruct (isAnyExistentialType _); [done|].
  destruct (getPreferredExistentialRepresentation E (argType (Arg d))); try done.
  - (* opaque *)
    unfold createAllocStack, createValue, emit, addArgument, slotInitialization,
      conformancesFor; simpl.
    destruct (isConsumed _); simpl; rewrite <- ?app_assoc, ?app_nil_r; done.
  - (* class *)
    unfold createAllocStack, createValue, emit, addArgument, boxedReference,
      boxedValue, takesOwningCopy, conformancesFor; simpl.
    destruct (isObject _), (hasOwnership NewF && isUnowned _); simpl;
      rewrite ?length_app, <- ?app_assoc, ?app_nil_r; simpl;
      rewrite ?Nat.add_0_r; repeat f_equal; lia.
Qed.

Lemma foldl_addPrologue ps st :
  let st' := foldl addPrologue st ps in
  bbArgs (ClonedEntryBB st') =
    bbArgs (ClonedEntryBB st) ++ ((FunctionArgument ∘ pArg) <$> ps)
  ∧ bbInsts (ClonedEntryBB st') = bbInsts (ClonedEntryBB st) ++ (ps ≫= pInsts)
  ∧ bbTerm (ClonedEntryBB st') = bbTerm (ClonedEntryBB st)
  ∧ AllocStackInsts st' = AllocStackInsts st ++ (ps ≫= pAllocs)
  ∧ CleanupValues st' = CleanupValues st ++ (ps ≫= pCleanups)
  ∧ entryArgs st' = entryArgs st ++ (pEntryArg <$> ps).
Proof.
  revert st. induction ps as [|p ps IH]; intros st; simpl.
  - by rewrite !app_nil_r.
  - destruct (IH (addPrologue st p)) as (-> & -> & -> & -> & -> & ->).
    simpl. by rewrite <- !app_assoc.
Qed.

Lemma cloneArgumentsFrom_prologues NewF ArgMap EAD ADL st :
  cloneArgumentsFrom E NewF ArgMap EAD ADL st =
    (foldl addPrologue st) <$>
      prologuesFrom E NewF ArgMap EAD
        (length (bbArgs (ClonedEntryBB st)))
        (length (bbInsts (ClonedEntryBB st))) ADL.
Proof.
  revert st. induction ADL as [|d ADL IH]; intros st; simpl; [done|].
  rewrite cloneArgument_prologue.
  destruct (argumentPrologue _ _ _ _ _ _ _) as [p|]; simpl; [|done].
  rewrite IH. simpl. rewrite !length_app. simpl.
  rewrite Nat.add_1_r.
  by destruct (prologuesFrom _ _ _ _ _ _ _).
Qed.

Lemma prologuesFrom_app NewF ArgMap EAD l1 l2 nA nI ps :
  prologuesFrom E NewF ArgMap EAD nA nI (l1 ++ l2) = Some ps ->
  exists ps1 ps2,
    ps = ps1 ++ ps2
    ∧ prologuesFrom E NewF ArgMap EAD nA nI l1 = Some ps1
    ∧ prologuesFrom E NewF ArgMap EAD (nA + length l1)
        (nI + length (ps1 ≫= pInsts)) l2 = Some ps2.
Proof.
  revert nA nI ps. induction l1 as [|d l1 IH]; intros nA nI ps H; simpl in *.
  - exists [], ps. by rewrite !Nat.add_0_r.
  - destruct (argumentPrologue _ _ _ _ _ _ _) as [p|]; simpl in *; [|done].
    destruct (prologuesFrom _ _ _ _ _ _ (l1 ++ l2)) as [ps'|] eqn:Hps';
      simpl in *; [|done].
    simplify_eq. apply IH in Hps' as (ps1 & ps2 & -> & -> & Hps2).
    exists (p :: ps1), ps2. simpl. split; [done|]. split; [done|].
    rewrite length_app.
    by replace (nA + S (length l1)) with (S nA + length l1) by lia;
       rewrite Nat.add_assoc.
Qed.

Lemma prologuesFrom_length NewF ArgMap EAD l nA nI ps :
  prologuesFrom E NewF ArgMap EAD nA nI l = Some ps -> length ps = length l.
Proof.
  revert nA nI ps. induction l as [|d l IH]; intros nA nI ps H; simpl in *.
  - by simplify_eq.
  - destruct (argumentPrologue _ _ _ _ _ _ _) as [p|]; simpl in *; [|done].
    destruct (prologuesFrom _ _ _ _ _ _ l) as [ps'|] eqn:Hps'; simpl in *; [|done].
    simplify_eq. simpl. f_equal. by eapply IH.
Qed.

Lemma cleanupFrom_mono nA nI nA' nI' v :
  cleanupFrom nA nI v -> nA' ≤ nA -> nI' ≤ nI -> cleanupFrom nA' nI' v.
Proof.
  unfold cleanupFrom, cleanupBefore. intros. repeat case_match; lia.
Qed.

Lemma cleanupBefore_mono nA nI nA' nI' v :
  cleanupBefore nA nI v -> nA ≤ nA' -> nI ≤ nI' -> cleanupBefore nA' nI' v.
Proof.
  unfold cleanupFrom, cleanupBefore. intros. repeat case_match; lia.
Qed.

Lemma copyFrom_mono nA nA' i : copyFrom nA i -> nA' ≤ nA -> copyFrom nA' i.
Proof.
  unfold copyFrom, copyBefore. intros. repeat case_match; lia.
Qed.

Lemma copyBefore_mono nA nA' i : copyBefore nA i -> nA ≤ nA' -> copyBefore nA' i.
Proof.
  unfold copyFrom, copyBefore. intros. repeat case_match; lia.
Qed.

Lemma argumentPrologue_bounds NewF ArgMap EAD nA nI d p :
  argumentPrologue E NewF ArgMap EAD nA nI d = Some p ->
  argIndex (pArg p) = nA
  ∧ Forall (cleanupFrom nA nI) (pCleanups p)
  ∧ Forall (cleanupBefore (S nA) (nI + length (pInsts p))) (pCleanups p)
  ∧ Forall (copyFrom nA) (pInsts p)
  ∧ Forall (copyBefore (S nA)) (pInsts p).
Proof.
  unfold argumentPrologue. intros H.
  destruct (ArgMap !! Index d) as [GP|]; simpl in H.
  2:{ destruct (_ !! Index d); simplify_eq/=. by repeat split. }
  destruct (isAnyExistentialType _); [done|].
  destruct (getPreferredExistentialRepresentation E _); simplify_eq/=.
  - unfold slotInitialization.
    destruct (isConsumed _); simpl; repeat split;
      repeat (apply Forall_cons; split); try apply Forall_nil; simpl; lia.
  - unfold boxedReference, boxedValue.
    destruct (takesOwningCopy _ _), (isObject _); simpl; repeat split;
      repeat (apply Forall_cons; split); try apply Forall_nil; simpl; lia.
Qed.

Lemma prologuesFrom_bounds NewF ArgMap EAD l nA nI ps :
  prologuesFrom E NewF ArgMap EAD nA nI l = Some ps ->
  Forall (cleanupFrom nA nI) (ps ≫= pCleanups)
  ∧ Forall (cleanupBefore (nA + length l) (nI + length (ps ≫= pInsts)))
      (ps ≫= pCleanups)
  ∧ Forall (copyFrom nA) (ps ≫= pInsts)
  ∧ Forall (copyBefore (nA + length l)) (ps ≫= pInsts).
Proof.
  revert nA nI ps. induction l as [|d l IH]; intros nA nI ps H; simpl in *.
  - simplify_eq. simpl. by repeat split.
  - destruct (argumentPrologue _ _ _ _ _ _ _) as [p|] eqn:Hp; simpl in *; [|done].
    destruct (prologuesFrom _ _ _ _ _ _ l) as [ps'|] eqn:Hps'; simpl in *; [|done].
    simplify_eq. apply IH in Hps' as (H1 & H2 & H3 & H4).
    apply argumentPrologue_bounds in Hp as (_ & P1 & P2 & P3 & P4).
    rewrite !bind_cons, length_app. cbn [length].
    repeat split; apply Forall_app; split.
    + done.
    + eapply Forall_impl; [exact H1|]. intros v Hv.
      eapply cleanupFrom_mono; [exact Hv|lia..].
    + eapply Forall_impl; [exact P2|]. intros v Hv.
      eapply cleanupBefore_mono; [exact Hv|lia..].
    + eapply Forall_impl; [exact H2|]. intros v Hv.
      eapply cleanupBefore_mono; [exact Hv|lia..].
    + done.
    + eapply Forall_impl; [exact H3|]. intros v Hv.
      eapply copyFrom_mono; [exact Hv|lia].
    + eapply Forall_impl; [exact P4|]. intros v Hv.
      eapply copyBefore_mono; [exact Hv|lia].
    + eapply Forall_impl; [exact H4|]. intros v Hv.
      eapply copyBefore_mono; [exact Hv|lia].
Qed.

(** The state [cloneArguments] ends in, seen from one descriptor: its
    prologue sits between what the descriptors before it added and what the
    descriptors after it added. *)
Lemma cloneArguments_at NewF ArgMap EAD ADL st k d :
  cloneArguments E NewF ArgMap EAD ADL = Some st ->
  ADL !! k = Some d ->
  exists p iB iA cB cA aB aA,
    argumentPrologue E NewF ArgMap EAD k (length iB) d = Some p
    ∧ bbArgs (ClonedEntryBB st) !! k = Some (FunctionArgument (pArg p))
    ∧ entryArgs st !! k = Some (pEntryArg p)
    ∧ bbInsts (ClonedEntryBB st) = iB ++ pInsts p ++ iA
    ∧ CleanupValues st = cB ++ pCleanups p ++ cA
    ∧ AllocStackInsts st = aB ++ pAllocs p ++ aA
    ∧ Forall (cleanupBefore k (length iB)) cB
    ∧ Forall (cleanupFrom (S k) (length iB + length (pInsts p))) cA
    ∧ Forall (copyBefore k) iB
    ∧ Forall (copyFrom (S k)) iA.
Proof.
  unfold cloneArguments. rewrite cloneArgumentsFrom_prologues. simpl.
  intros Hst Hk.
  destruct (prologuesFrom _ _ _ _ _ _ ADL) as [ps|] eqn:Hps; simplify_eq/=.
  assert (length (take k ADL) = k) as Hlen.
  { rewrite length_take. apply lookup_lt_Some in Hk. lia. }
  rewrite <- (take_drop_middle ADL k d Hk) in Hps.
  apply prologuesFrom_app in Hps as (ps1 & ps2 & -> & Hps1 & Hps2).
  rewrite Hlen in Hps2. simpl in Hps2.
  destruct (argumentPrologue _ _ _ _ _ _ _) as [p|] eqn:Hp; simpl in *; [|done].
  destruct (prologuesFrom _ _ _ _ _ _ (drop _ _)) as [ps3|] eqn:Hps3;
    simplify_eq/=.
  pose proof (prologuesFrom_length _ _ _ _ _ _ _ Hps1) as Hl1.
  rewrite Hlen in Hl1.
  apply prologuesFrom_bounds in Hps1 as (_ & B1 & _ & B2).
  apply prologuesFrom_bounds in Hps3 as (B3 & _ & B4 & _).
  rewrite Hlen in B1, B2. simpl in B1, B2.
  destruct (foldl_addPrologue (ps1 ++ p :: ps3)
              (mkClonerState (mkBB [] [] None) [] [] []))
    as (Ha & Hi & _ & Hal & Hc & He).
  simpl in *.
  exists p, (ps1 ≫= pInsts), (ps3 ≫= pInsts), (ps1 ≫= pCleanups),
    (ps3 ≫= pCleanups), (ps1 ≫= pAllocs), (ps3 ≫= pAllocs).
  rewrite Ha, Hi, Hal, Hc, He, !bind_app, !fmap_app. simpl.
  split; [done|].
  split; [by rewrite lookup_app_r, length_fmap, Hl1, Nat.sub_diag
            by (rewrite length_fmap; lia)|].
  split; [by rewrite lookup_app_r, length_fmap, Hl1, Nat.sub_diag
            by (rewrite length_fmap; lia)|].
  repeat split; done.
Qed.

Lemma argumentPrologue_opaque NewF ArgMap EAD nA nI d p :
  argumentPrologue E NewF ArgMap EAD nA nI d = Some p ->
  is_Some (ArgMap !! Index d) ->
  getPreferredExistentialRepresentation E (argType (Arg d)) = Repr_Opaque ->
  let consumed := isConsumed (descriptorAt (Index d) EAD) in
  let ASI := AllocStackInst nI (argType (Arg d)) in
  p = mkPrologue (pArg p) (slotInitialization E (pArg p) d ASI consumed)
        (if consumed then [] else [ASI]) [ASI] ASI.
Proof.
  unfold argumentPrologue. intros H [GP HGP] Hrepr. rewrite HGP, Hrepr in H.
  destruct (isAnyExistentialType _); by simplify_eq/=.
Qed.

Lemma argumentPrologue_class NewF ArgMap EAD nA nI d p :
  argumentPrologue E NewF ArgMap EAD nA nI d = Some p ->
  is_Some (ArgMap !! Index d) ->
  getPreferredExistentialRepresentation E (argType (Arg d)) = Repr_Class ->
  let consumed := isConsumed (descriptorAt (Index d) EAD) in
  let NewArg := pArg p in
  let Copy := CopyValueOperation (FunctionArgument NewArg) in
  let InitRef := boxedReference E NewF NewArg d consumed in
  pCleanups p = (if takesOwningCopy NewF NewArg then [InitRef] else [])
  ∧ ValueInst InitRef ∈ pInsts p
  ∧ if takesOwningCopy NewF NewArg then
      exists iB iA, pInsts p = iB ++ [ValueInst Copy; ValueInst InitRef] ++ iA
    else
      (ValueInst Copy ∉ pInsts p) ∧ boxedValue NewF NewArg consumed ≠ Copy.
Proof.
  unfold argumentPrologue. intros H [GP HGP] Hrepr. rewrite HGP, Hrepr in H.
  destruct (isAnyExistentialType _); simplify_eq/=.
  set (NewArg := genericArgumentFor E NewF nA GP d).
  split; [done|].
  split; [rewrite !elem_of_app, elem_of_cons; auto|].
  unfold boxedReference, boxedValue.
  destruct (takesOwningCopy NewF NewArg) eqn:Ht.
  - eexists _, _. reflexivity.
  - destruct (isObject _); simpl; split; try done;
      rewrite ?elem_of_cons, ?elem_of_nil; intuition discriminate.
Qed.

Lemma elem_of_exitCleanup order st v :
  DestroyOperation v ∈ exitCleanup order st <-> v ∈ order (CleanupValues st).
Proof.
  unfold exitCleanup. rewrite elem_of_app, !list_elem_of_fmap. split.
  - intros [(w & [= ->] & Hw)|(w & [=] & _)]. done.
  - intros Hv. left. by exists v.
Qed.

(** C6.  In the entry block of the twin, the generic argument of an opaque
    existential is copied into a freshly allocated existential slot, by a take
    if and only if the original argument was consumed and by a copy
    otherwise; the slot is registered for destruction exactly when the
    argument was not consumed; and the cloned body gets the address of the
    slot in the place of the original argument. *)
Theorem opaque_argument_taken_iff_consumed NewF ArgMap EAD ADL st k d :
  cloneArguments E NewF ArgMap EAD ADL = Some st ->
  ADL !! k = Some d ->
  is_Some (ArgMap !! Index d) ->
  getPreferredExistentialRepresentation E (argType (Arg d)) = Repr_Opaque ->
  opaqueArgumentBoxed E EAD st k d.
Proof.
  intros Hst Hk HGP Hrepr.
  destruct (cloneArguments_at _ _ _ _ _ _ _ Hst Hk)
    as (p & iB & iA & cB & cA & aB & aA & Hp & Hargs & Hentry & Hi & Hc & Ha
        & B1 & B2 & _ & _).
  pose proof (argumentPrologue_opaque _ _ _ _ _ _ _ Hp HGP Hrepr) as Hpe.
  cbv zeta in Hpe. destruct p as [NewArg pi pc pa pe]. simpl in *.
  injection Hpe as -> -> -> ->.
  unfold opaqueArgumentBoxed.
  remember (isConsumed (descriptorAt (Index d) EAD)) as consumed eqn:Hcons.
  clear Hcons.
  set (ASI := AllocStackInst (length iB) (argType (Arg d))) in *.
  exists NewArg, iB, iA, (if consumed then IsTake else IsNotTake).
  cbv zeta. fold ASI.
  split; [done|]. split; [exact Hi|].
  split; [by destruct consumed|]. split; [by destruct consumed|].
  rewrite elem_of_exitCleanup.
  assert (ASI ∈ CleanupValues st <-> consumed = false) as Hclean;
    [|split; [done|split; [done|split; [|done]]]].
  - rewrite Hc, !elem_of_app. split.
    + intros [Hin|[Hin|Hin]].
      * apply (proj1 (Forall_forall _ _) B1) in Hin. simpl in Hin. lia.
      * destruct consumed; [by apply elem_of_nil in Hin|done].
      * apply (proj1 (Forall_forall _ _) B2) in Hin. simpl in Hin. lia.
    + intros ->. right; left. apply list_elem_of_singleton. done.
  - rewrite Ha, !elem_of_app. right; left. by apply list_elem_of_singleton.
Qed.

(** C8, as the code has it.  In the entry block of the twin, the generic
    argument of a class existential gets an owning copy before it is boxed,
    and the box made from that copy is registered for destruction, exactly
    when the twin has ownership and the argument is of unowned ownership; in
    every other case the argument is not copied and the reference boxed for
    it is not registered. *)
Theorem class_argument_copied_iff_unowned_in_ossa NewF ArgMap EAD ADL st k d :
  cloneArguments E NewF ArgMap EAD ADL = Some st ->
  ADL !! k = Some d ->
  is_Some (ArgMap !! Index d) ->
  getPreferredExistentialRepresentation E (argType (Arg d)) = Repr_Class ->
  classArgumentBoxed E (takesOwningCopy NewF) st k d.
Proof.
  intros Hst Hk HGP Hrepr.
  destruct (cloneArguments_at _ _ _ _ _ _ _ Hst Hk)
    as (p & iB & iA & cB & cA & aB & aA & Hp & Hargs & Hentry & Hi & Hc & Ha
        & B1 & B2 & C1 & C2).
  destruct (argumentPrologue_class _ _ _ _ _ _ _ Hp HGP Hrepr)
    as (Hpc & Hbox & Hcopy).
  apply argumentPrologue_bounds in Hp as (Hidx & _).
  exists (pArg p). cbv zeta. split; [done|].
  rewrite Hi, Hc, Hpc.
  destruct (takesOwningCopy NewF (pArg p)) eqn:Ht.
  - destruct Hcopy as (jB & jA & ->). split.
    + exists (iB ++ jB), (jA ++ iA). rewrite <- !app_assoc.
      unfold boxedReference, boxedValue. by rewrite Ht.
    + rewrite elem_of_exitCleanup, Hc, Hpc.
      assert (InitExistentialRefInst (getObjectType (argType (Arg d)))
                (getASTType (argType (pArg p)))
                (CopyValueOperation (FunctionArgument (pArg p)))
                (conformancesFor E (pArg p) d)
              ∈ cB ++ [boxedReference E NewF (pArg p) d
                         (isConsumed (descriptorAt (Index d) EAD))] ++ cA)
        as Hin; [|done].
      rewrite !elem_of_app. right; left.
      unfold boxedReference, boxedValue. rewrite Ht.
      by apply list_elem_of_singleton.
  - destruct Hcopy as [Hnot Hne]. split.
    + rewrite !elem_of_app. intros [Hin|[Hin|Hin]]; [|done|].
      * apply (proj1 (Forall_forall _ _) C1) in Hin. simpl in Hin. lia.
      * apply (proj1 (Forall_forall _ _) C2) in Hin. simpl in Hin. lia.
    + exists (boxedValue NewF (pArg p) (isConsumed (descriptorAt (Index d) EAD))).
      split; [done|]. split; [rewrite !elem_of_app; auto|].
      simpl. split; rewrite elem_of_app.
      * unfold boxedValue. rewrite Ht.
        intros [Hin|Hin].
        -- apply (proj1 (Forall_forall _ _) B1) in Hin. simpl in Hin.
           by destruct (isObject _).
        -- apply (proj1 (Forall_forall _ _) B2) in Hin. simpl in Hin.
           by destruct (isObject _).
      * intros [Hin|Hin].
        -- apply (proj1 (Forall_forall _ _) B1) in Hin. simpl in Hin. lia.
        -- apply (proj1 (Forall_forall _ _) B2) in Hin. simpl in Hin. lia.
Qed.

(** ** The exits of the twin *)

Lemma emitCleanupDestroys_inv cl bb bb' :
  emitCleanupDestroys E cl bb = Some bb' ->
  bb' = mkBB (bbArgs bb) (bbInsts bb ++ (DestroyOperation <$> cl)) (bbTerm bb)
  ∧ Forall (destroyable E) cl.
Proof.
  revert bb. induction cl as [|v cl IH]; intros bb H; simpl in *.
  - injection H as <-. rewrite app_nil_r. by destruct bb.
  - destruct (decide (getOwnershipKind E v = OwnershipKind_Guaranteed)); [done|].
    apply IH in H as [-> Hcl]. simpl. rewrite <- app_assoc.
    split; [done|]. by constructor.
Qed.

Lemma emitCleanupDestroys_Some cl bb :
  Forall (destroyable E) cl ->
  emitCleanupDestroys E cl bb =
    Some (mkBB (bbArgs bb) (bbInsts bb ++ (DestroyOperation <$> cl)) (bbTerm bb)).
Proof.
  revert bb. induction cl as [|v cl IH]; intros bb H; simpl.
  - rewrite app_nil_r. by destruct bb.
  - inversion_clear H as [|? ? Hv Hcl].
    destruct (decide (getOwnershipKind E v = OwnershipKind_Guaranteed)); [done|].
    rewrite IH by done. simpl. by rewrite <- app_assoc.
Qed.

Lemma emitDeallocStacks_spec al bb :
  emitDeallocStacks al bb =
    mkBB (bbArgs bb) (bbInsts bb ++ (DeallocStackInst <$> reverse al)) (bbTerm bb).
Proof.
  unfold emitDeallocStacks. generalize (reverse al) as l. intros l.
  revert bb. induction l as [|a l IH]; intros bb; simpl.
  - rewrite app_nil_r. by destruct bb.
  - rewrite IH. simpl. by rewrite <- app_assoc.
Qed.

Lemma cleanupAtExit_inv st bb bb' :
  cleanupAtExit E st bb = Some bb' ->
  cleanedAtExit E (fun l => l) st bb bb'.
Proof.
  unfold cleanupAtExit, cleanedAtExit, exitCleanup. intros H.
  destruct (isExitingBlock E bb).
  - destruct (emitCleanupDestroys _ _ _) as [bb1|] eqn:Hd; simpl in H; [|done].
    injection H as <-.
    apply emitCleanupDestroys_inv in Hd as [-> _].
    rewrite emitDeallocStacks_spec. simpl. by rewrite <- app_assoc.
  - injection H as <-. by rewrite app_nil_r.
Qed.

Lemma cleanupAtExit_is_Some st bb :
  Forall (destroyable E) (CleanupValues st) ->
  is_Some (cleanupAtExit E st bb).
Proof.
  unfold cleanupAtExit. intros H. destruct (isExitingBlock E bb); [|done].
  by rewrite emitCleanupDestroys_Some.
Qed.

(** C2, as the code has it.  In the twin, every block that is a function
    exit gets, right in front of its terminator, one destroy for every
    registered cleanup value in the order of their registration, followed by
    one deallocation for every registered stack slot in reverse order of
    registration; each list is gone through once per exit, and the other
    blocks are left as cloned. *)
Theorem exits_destroy_in_order_then_dealloc_in_reverse
    OrigF NewF ArgMap EAD ADL Twin :
  cloneAndPopulateFunction E OrigF NewF ArgMap EAD ADL = Some Twin ->
  exitsCleaned E (fun l => l) OrigF NewF ArgMap EAD ADL Twin.
Proof.
  unfold cloneAndPopulateFunction, exitsCleaned. intros H.
  destruct (cloneArguments _ _ _ _ _) as [st|]; simplify_eq/=.
  destruct (mapM _ _) as [blocks|] eqn:Hm; simplify_eq/=.
  exists st. split; [done|].
  apply mapM_Some in Hm. eapply Forall2_impl; [exact Hm|].
  intros bb bb'. apply cleanupAtExit_inv.
Qed.

(** ** The cleanup values and their ownership *)

Lemma argumentPrologue_cleanupKind NewF ArgMap EAD nA nI d p :
  argumentPrologue E NewF ArgMap EAD nA nI d = Some p ->
  Forall cleanupKind (pCleanups p).
Proof.
  unfold argumentPrologue. intros H.
  destruct (ArgMap !! Index d) as [GP|]; simpl in H.
  2:{ destruct (_ !! Index d); simplify_eq/=. done. }
  destruct (isAnyExistentialType _); [done|].
  destruct (getPreferredExistentialRepresentation E _); simplify_eq/=.
  - destruct (isConsumed _); by repeat constructor.
  - unfold boxedReference, boxedValue.
    destruct (takesOwningCopy _ _) eqn:Ht; [|done].
    repeat constructor. simpl.
    unfold takesOwningCopy, isUnowned in Ht.
    apply andb_prop in Ht as [_ Ht]. by apply bool_decide_eq_true in Ht.
Qed.

Lemma prologuesFrom_cleanupKind NewF ArgMap EAD l nA nI ps :
  prologuesFrom E NewF ArgMap EAD nA nI l = Some ps ->
  Forall cleanupKind (ps ≫= pCleanups).
Proof.
  revert nA nI ps. induction l as [|d l IH]; intros nA nI ps H; simpl in *.
  - by simplify_eq.
  - destruct (argumentPrologue _ _ _ _ _ _ _) as [p|] eqn:Hp; simpl in *; [|done].
    destruct (prologuesFrom _ _ _ _ _ _ l) as [ps'|] eqn:Hps'; simpl in *; [|done].
    simplify_eq. rewrite bind_cons. apply Forall_app. split.
    + by eapply argumentPrologue_cleanupKind.
    + by eapply IH.
Qed.

Lemma cloneArguments_cleanupKind NewF ArgMap EAD ADL st :
  cloneArguments E NewF ArgMap EAD ADL = Some st ->
  Forall cleanupKind (CleanupValues st).
Proof.
  unfold cloneArguments. rewrite cloneArgumentsFrom_prologues. simpl.
  intros Hst.
  destruct (prologuesFrom _ _ _ _ _ _ ADL) as [ps|] eqn:Hps; simplify_eq/=.
  destruct (foldl_addPrologue ps (mkClonerState (mkBB [] [] None) [] [] []))
    as (_ & _ & _ & _ & -> & _).
  simpl. by eapply prologuesFrom_cleanupKind.
Qed.

Lemma cleanupKind_destroyable v :
  OwnershipRules E -> cleanupKind v -> destroyable E v.
Proof.
  intros [Halloc Hbox Hcopy Harg]. unfold cleanupKind, destroyable.
  destruct v as [| |id ty| | | |t f v c| | | | |]; try done.
  - intros _. by rewrite Halloc.
  - destruct v as [| | | | |v| | | | | |]; try done.
    destruct v as [a| | | | | | | | | | |]; try done.
    intros Hu. rewrite Hbox.
    destruct (Hcopy (FunctionArgument a)) as [->| ->]; [done|].
    by rewrite Harg, Hu.
Qed.

(** C10.  Every value the cloner registers in its cleanup values while it
    builds the entry block, the slot of an opaque argument that is not
    consumed and the reference boxed from the copy of an unowned class
    argument, has an ownership other than guaranteed; so the assertion in
    front of each destroy holds at every exit, and the cloner gets through. *)
Theorem cleanup_values_never_guaranteed OrigF NewF ArgMap EAD ADL st :
  OwnershipRules E ->
  cloneArguments E NewF ArgMap EAD ADL = Some st ->
  Forall (fun v => cleanupKind v ∧ destroyable E v) (CleanupValues st)
  ∧ (forall bb, is_Some (emitCleanupDestroys E (CleanupValues st) bb))
  ∧ is_Some (cloneAndPopulateFunction E OrigF NewF ArgMap EAD ADL).
Proof.
  intros Hrules Hst.
  pose proof (cloneArguments_cleanupKind _ _ _ _ _ Hst) as Hkind.
  assert (Forall (destroyable E) (CleanupValues st)) as Hd.
  { eapply Forall_impl; [exact Hkind|]. intros v. by apply cleanupKind_destroyable. }
  split; [|split].
  - apply Forall_and. done.
  - intros bb. by rewrite emitCleanupDestroys_Some.
  - unfold cloneAndPopulateFunction. rewrite Hst. simpl.
    destruct (mapM_is_Some_2 (cleanupAtExit E st)
                (cloneFunctionBody E OrigF (setBlocks NewF [ClonedEntryBB st])
                   (ClonedEntryBB st) (entryArgs st))) as [blocks ->]; [|done].
    apply Forall_forall. intros bb _. by apply cleanupAtExit_is_Some.
Qed.

(** ** The generic signature *)

Lemma getNextDepth_above sig gp :
  gp ∈ getGenericParams sig -> gpDepth gp < getNextDepth sig.
Proof.
  unfold getNextDepth. destruct (getGenericParams sig) as [|g gps] eqn:Hg.
  - by intros ?%elem_of_nil.
  - rewrite <- Hg. clear Hg g gps. generalize (getGenericParams sig) as l.
    intros l Hin. apply Nat.lt_succ_r.
    induction l as [|g l IH]; [by apply elem_of_nil in Hin|].
    rewrite fmap_cons. cbn [foldr].
    apply elem_of_cons in Hin as [->|Hin]; [apply Nat.le_max_l|].
    etrans; [exact (IH Hin)|apply Nat.le_max_r].
Qed.

Lemma convertLoop_spec FTy Depth Idxs st0 :
  NoDup Idxs ->
  (forall Idx, Idx ∈ Idxs -> ArgToGenericTypeMap st0 !! Idx = None) ->
  Forall (validExistentialParameter E FTy) Idxs ->
  exists st gps reqs,
    convertLoop E FTy Depth Idxs st0 = Some st
    ∧ genericParams st = genericParams st0 ++ gps
    ∧ requirements st = requirements st0 ++ reqs
    ∧ length gps = length Idxs
    ∧ length reqs = length Idxs
    ∧ (forall k Idx, Idxs !! k = Some Idx ->
         gps !! k = Some (mkGP Depth (GPIdx st0 + k))
         ∧ (exists param,
              getParameters FTy !! Idx = Some param
              ∧ reqs !! k =
                  Some (mkRequirement Conformance (mkGP Depth (GPIdx st0 + k))
                          (erasedConstraint (getArgumentType E param FTy))))
         ∧ ArgToGenericTypeMap st !! Idx = Some (mkGP Depth (GPIdx st0 + k)))
    ∧ (forall Idx, Idx ∉ Idxs ->
         ArgToGenericTypeMap st !! Idx = ArgToGenericTypeMap st0 !! Idx).
Proof.
  revert st0. induction Idxs as [|Idx Idxs IH]; intros st0 Hnd Hfresh Hvalid.
  - exists st0, [], []. simpl. rewrite !app_nil_r.
    repeat split; done.
  - apply NoDup_cons in Hnd as [Hnotin Hnd].
    apply Forall_cons in Hvalid as [(param & Hparam & Hex) Hvalid].
    simpl. unfold convertExistentialArg at 1. rewrite Hparam. simpl. rewrite Hex.
    set (gp := mkGP Depth (GPIdx st0)).
    set (req := mkRequirement Conformance gp _).
    assert (denseInsert Idx gp (ArgToGenericTypeMap st0)
            = <[Idx := gp]> (ArgToGenericTypeMap st0)) as ->.
    { unfold denseInsert. rewrite Hfresh; [done|]. apply elem_of_cons. by left. }
    simpl.
    edestruct (IH (mkConvertState (genericParams st0 ++ [gp])
                     (requirements st0 ++ [req])
                     (<[Idx := gp]> (ArgToGenericTypeMap st0))
                     (S (GPIdx st0))))
      as (st & gps & reqs & Hst & Hg & Hr & Hlg & Hlr & Hk & Hout); [done| |done|].
    { intros Idx' Hin. simpl. rewrite lookup_insert_ne.
      - apply Hfresh. apply elem_of_cons. by right.
      - intros ->. done. }
    simpl in *. exists st, (gp :: gps), (req :: reqs).
    rewrite Hst, Hg, Hr, <- !app_assoc. simpl. rewrite Hlg, Hlr.
    split_and!; try done.
    + intros [|k] Idx' Hk'; simpl in *.
      * injection Hk' as <-. rewrite Nat.add_0_r.
        split; [done|]. split; [by exists param|].
        rewrite Hout by done. by rewrite lookup_insert_eq.
      * rewrite Nat.add_succ_r. by apply Hk.
    + intros Idx' Hnot. apply not_elem_of_cons in Hnot as [Hne Hnot].
      rewrite Hout by done. by rewrite lookup_insert_ne.
Qed.

(** C5, as the code has it.  The synthesizer makes one fresh generic
    parameter per transformed argument, all at a depth above every generic
    parameter the function already has, with the indices 0, 1, 2, ... given
    out in the order in which the descriptor map is iterated; one conformance
    requirement per new parameter, to the constraint of the existential type
    of its argument; and the mapping from every transformed index to its
    parameter. *)
Theorem generic_parameters_follow_map_iteration F EAD :
  NoDup (fst <$> EAD) ->
  Forall (validExistentialParameter E (getLoweredFunctionType F)) (fst <$> EAD) ->
  exists st,
    convertExistentialArgTypesToGenericArgTypes E F EAD = Some st
    ∧ genericParametersSynthesized E F EAD st.
Proof.
  intros Hnd Hvalid. unfold convertExistentialArgTypesToGenericArgTypes.
  edestruct (convertLoop_spec (getLoweredFunctionType F)
               (getNextDepth (getInvocationGenericSignature (getLoweredFunctionType F)))
               (fst <$> EAD) (mkConvertState [] [] ∅ 0))
    as (st & gps & reqs & Hst & Hg & Hr & Hlg & Hlr & Hk & Hout); [done| |done|].
  { intros Idx _. apply lookup_empty. }
  simpl in *. subst gps reqs. rewrite length_fmap in Hlg, Hlr.
  exists st. split; [done|]. unfold genericParametersSynthesized.
  split; [intros gp; apply getNextDepth_above|].
  split; [done|]. split; [done|]. split; [done|].
  intros Idx Hnot. rewrite Hout by done. apply lookup_empty.
Qed.

(** ** One borrowed opaque argument *)

Lemma thunk_of_borrowed_opaque F NewF d T Thunk :
  Index d = 0 ->
  getPreferredExistentialRepresentation E (argType (Arg d)) = Repr_Opaque ->
  getErrorResult (getLoweredFunctionType NewF) = None ->
  isNoReturnFunction E (getLoweredFunctionType NewF) = false ->
  populateThunkBody E F NewF {[0 := T]} [(0, mkETAD Immutable false)] [d]
    = Some Thunk ->
  thunkOpensAppliesReturns E F NewF d Thunk.
Proof.
  intros Hidx Hrepr Herr Hret Hthunk.
  apply populateThunkBody_inv in Hthunk as (st & SubMap & Hst & _ & ->).
  rewrite Herr, Hret. simpl in Hst.
  unfold thunkArgument in Hst. simpl in Hst.
  rewrite Hidx, lookup_singleton_eq in Hst. simpl in Hst.
  rewrite Hrepr in Hst. simpl in Hst. injection Hst as <-.
  exists SubMap. reflexivity.
Qed.

Lemma thunkOpensAppliesReturns_no_dealloc F NewF d Thunk :
  thunkOpensAppliesReturns E F NewF d Thunk ->
  ¬ deallocatesStackSlotAfterCall Thunk.
Proof.
  intros (SubMap & Hblocks)
    (body & rest & iB & Call & iA & slot & Hb & Hi & Hcall & Hin).
  rewrite Hblocks in Hb. injection Hb as <- <-. simpl in Hi.
  destruct iB as [|i1 [|i2 [|i3 [|i4 iB]]]]; simplify_eq/=; try done;
    try (by destruct iB);
    repeat (apply elem_of_cons in Hin as [?|Hin]; [done|]);
    by apply elem_of_nil in Hin.
Qed.

Lemma twin_type_of_one_parameter F param :
  let FTy := getLoweredFunctionType F in
  let T := mkGP (getNextDepth (getInvocationGenericSignature FTy)) 0 in
  getParameters FTy = [param] ->
  isExistentialType (getArgumentType E param FTy) = true ->
  exists NewFTy,
    createExistentialSpecializedFunctionType E F [(0, mkETAD Immutable false)]
      = Some (NewFTy, {[0 := T]})
    ∧ twinTypeOfOneParameter E FTy param T NewFTy.
Proof.
  intros FTy T Hparams Hex.
  unfold createExistentialSpecializedFunctionType,
    convertExistentialArgTypesToGenericArgTypes.
  fold FTy. simpl. unfold convertExistentialArg. fold FTy.
  rewrite Hparams. simpl. rewrite Hex. simpl.
  unfold denseInsert. rewrite lookup_empty, insert_empty. fold T.
  rewrite lookup_singleton_eq.
  eexists. split; [reflexivity|].
  unfold twinTypeOfOneParameter, erasedConstraint. simpl.
  split_and!; try done.
  unfold hasErrorResult. by destruct (getErrorResult FTy).
Qed.

(** C9, as the code has it.  For [F(x: P) -> Int] with [x] an opaque
    existential that is borrowed, the twin is [Twin<T: P>(x: T) -> Int] with
    the convention of [x] kept, and the thunk keeps the signature of [F],
    opens [x] for immutable access, applies the twin to the opened value and
    returns the result of the apply.  The thunk has no temporary stack slot
    in this scenario, so it deallocates none. *)
Theorem borrowed_opaque_argument_scenario F d param :
  let FTy := getLoweredFunctionType F in
  let T := mkGP (getNextDepth (getInvocationGenericSignature FTy)) 0 in
  let EAD := [(0, mkETAD Immutable false)] in
  getParameters FTy = [param] ->
  isExistentialType (getArgumentType E param FTy) = true ->
  Index d = 0 ->
  getPreferredExistentialRepresentation E (argType (Arg d)) = Repr_Opaque ->
  exists NewFTy,
    createExistentialSpecializedFunctionType E F EAD = Some (NewFTy, {[0 := T]})
    ∧ twinTypeOfOneParameter E FTy param T NewFTy
    ∧ forall NewF Thunk,
        getLoweredFunctionType NewF = NewFTy ->
        getErrorResult FTy = None ->
        isNoReturnFunction E NewFTy = false ->
        populateThunkBody E F NewF {[0 := T]} EAD [d] = Some Thunk ->
        thunkKeepsSignature F [d] Thunk
        ∧ thunkOpensAppliesReturns E F NewF d Thunk
        ∧ ¬ deallocatesStackSlotAfterCall Thunk.
Proof.
  intros FTy T EAD Hparams Hex Hidx Hrepr.
  destruct (twin_type_of_one_parameter F param Hparams Hex)
    as (NewFTy & Hty & Htwin).
  exists NewFTy. split; [exact Hty|]. split; [exact Htwin|].
  intros NewF Thunk HNewFTy Herr Hret Hthunk.
  destruct Htwin as (_ & _ & _ & Herr' & _).
  split; [by eapply populateThunkBody_signature|].
  assert (thunkOpensAppliesReturns E F NewF d Thunk) as Hshape.
  { eapply thunk_of_borrowed_opaque; try done.
    - rewrite HNewFTy, Herr'. exact Herr.
    - by rewrite HNewFTy. }
  split; [exact Hshape|]. by eapply thunkOpensAppliesReturns_no_dealloc.
Qed.

(** ** Running the transform again *)

(** The thunk depends on its callee through its name and its type only. *)
Lemma populateThunkBody_callee F NewF NewF' ArgMap EAD ADL :
  getName NewF' = getName NewF ->
  getLoweredFunctionType NewF' = getLoweredFunctionType NewF ->
  populateThunkBody E F NewF' ArgMap EAD ADL
    = populateThunkBody E F NewF ArgMap EAD ADL.
Proof. unfold populateThunkBody. by intros -> ->. Qed.

Lemma cloneAndPopulateFunction_frame OrigF NewF ArgMap EAD ADL Twin :
  cloneAndPopulateFunction E OrigF NewF ArgMap EAD ADL = Some Twin ->
  getName Twin = getName NewF
  ∧ getLoweredFunctionType Twin = getLoweredFunctionType NewF.
Proof.
  unfold cloneAndPopulateFunction. intros H.
  destruct (cloneArguments _ _ _ _ _) as [st|]; simplify_eq/=.
  destruct (mapM _ _) as [blocks|]; by simplify_eq/=.
Qed.

Lemma cached_type_mismatch_asserts F Mangler EAD ADL :
  cachedTypeAsserted E F Mangler EAD ADL.
Proof.
  intros M CachedFn Hcache Hne.
  unfold createExistentialSpecializedFunction.
  destruct (createExistentialSpecializedFunctionType E F EAD)
    as [[NewFTy ArgMap]|]; simpl in *; [|done].
  rewrite Hcache. rewrite decide_False; [done|]. congruence.
Qed.

(** What a run leaves under the computed name: a function of the computed
    type from which the thunk of the run was built. *)
Lemma first_run_leaves_twin M F Mangler EAD ADL r1 :
  M !! getName F = Some F ->
  createExistentialSpecializedFunction E M F Mangler EAD ADL = Some r1 ->
  exists NewFTy ArgMap C Thunk,
    createExistentialSpecializedFunctionType E F EAD = Some (NewFTy, ArgMap)
    ∧ resultModule r1 !! createExistentialSpecializedFunctionName E Mangler EAD
        = Some C
    ∧ getLoweredFunctionType C = NewFTy
    ∧ populateThunkBody E F C ArgMap EAD ADL = Some Thunk
    ∧ resultModule r1 !! getName F = Some Thunk.
Proof.
  unfold createExistentialSpecializedFunction.
  generalize (createExistentialSpecializedFunctionName E Mangler EAD) as Name.
  intros Name HF H.
  destruct (createExistentialSpecializedFunctionType E F EAD)
    as [[NewFTy ArgMap]|]; simpl in *; [|done].
  exists NewFTy, ArgMap.
  destruct (M !! Name) as [CachedFn|] eqn:Hcache.
  - (* the run found a function under the name *)
    destruct (decide (getLoweredFunctionType CachedFn = NewFTy)) as [Hty|];
      simpl in H; [|done].
    destruct (populateThunkBody E F CachedFn ArgMap EAD ADL) as [Thunk|] eqn:Ht;
      simpl in H; [|done].
    injection H as <-. simpl.
    pose proof (populateThunkBody_signature _ _ _ _ _ _ Ht)
      as ((Hname & Htype & _) & _).
    destruct (decide (Name = getName F)) as [Heq|Hne].
    + (* the function is its own twin *)
      subst Name. assert (CachedFn = F) as -> by congruence.
      exists Thunk, Thunk. rewrite lookup_insert_eq.
      split_and!; try done; [congruence|].
      by rewrite (populateThunkBody_callee F F Thunk).
    + exists CachedFn, Thunk.
      rewrite lookup_insert_ne, lookup_insert_eq by done. done.
  - (* the run created the twin *)
    assert (Name ≠ getName F) as Hne by congruence.
    destruct (cloneAndPopulateFunction _ _ _ _ _ _) as [NewF|] eqn:Hclone;
      simpl in H; [|done].
    destruct (populateThunkBody E F NewF ArgMap EAD ADL) as [Thunk|] eqn:Ht;
      simpl in H; [|done].
    injection H as <-. simpl.
    apply cloneAndPopulateFunction_frame in Hclone as [_ Hty]. simpl in Hty.
    exists NewF, Thunk.
    rewrite lookup_insert_ne, !lookup_insert_eq by done. done.
Qed.

(** C3.  Run on a function of the module, and then run again with the same
    function and the same descriptors, on the module the first run left or
    on any module that still has what the first run left under the computed
    name, the transform computes the same name and the same type (both are
    functions of the original function, the mangler and the descriptor map
    alone), finds the twin of the first run under that name, passes the
    assertion that its type is the freshly computed one, and takes it for its
    [NewF]: the second run creates no second twin.  A function found under
    the name with any other type stops the transform at that assertion. *)
Theorem second_run_reuses_twin M F Mangler EAD ADL r1 M' :
  M !! getName F = Some F ->
  createExistentialSpecializedFunction E M F Mangler EAD ADL = Some r1 ->
  M' !! createExistentialSpecializedFunctionName E Mangler EAD
    = resultModule r1 !! createExistentialSpecializedFunctionName E Mangler EAD ->
  (exists r2,
     createExistentialSpecializedFunction E M' F Mangler EAD ADL = Some r2
     ∧ twinReused E F Mangler EAD r1 M' r2)
  ∧ cachedTypeAsserted E F Mangler EAD ADL.
Proof.
  intros HF H HM'. split; [|apply cached_type_mismatch_asserts].
  destruct (first_run_leaves_twin _ _ _ _ _ _ HF H)
    as (NewFTy & ArgMap & C & Thunk & Hty & HC & HCty & Ht & HThunk).
  unfold createExistentialSpecializedFunction, twinReused.
  rewrite Hty, HM', HC. simpl. rewrite decide_True by done. simpl.
  rewrite Ht. simpl. eexists. split; [reflexivity|]. simpl.
  split_and!; try done.
  - by f_equal.
  - by exists Thunk.
  - by rewrite dom_insert_L.
  - intros ->. by apply insert_id.
Qed.

(** ** The builders get through on well-formed input *)

Lemma argumentPrologue_is_Some NewF ArgMap EAD nA nI d :
  clonable E NewF ArgMap d ->
  is_Some (argumentPrologue E NewF ArgMap EAD nA nI d).
Proof.
  unfold clonable, argumentPrologue.
  destruct (ArgMap !! Index d) as [GP|].
  - simpl. intros [-> [-> | ->]]; done.
  - intros Hlt. apply lookup_lt_is_Some_2 in Hlt as [param ->]. done.
Qed.

Lemma prologuesFrom_is_Some NewF ArgMap EAD ADL nA nI :
  Forall (clonable E NewF ArgMap) ADL ->
  is_Some (prologuesFrom E NewF ArgMap EAD nA nI ADL).
Proof.
  revert nA nI. induction ADL as [|d ADL IH]; intros nA nI H; simpl; [done|].
  apply Forall_cons in H as [Hd H].
  destruct (argumentPrologue_is_Some NewF ArgMap EAD nA nI d Hd) as [p ->].
  simpl. by destruct (IH (S nA) (nI + length (pInsts p)) H) as [ps ->].
Qed.

(** [cloneArguments] builds the entry block for every list of descriptors
    it can make arguments for. *)
Lemma cloneArguments_is_Some NewF ArgMap EAD ADL :
  Forall (clonable E NewF ArgMap) ADL ->
  is_Some (cloneArguments E NewF ArgMap EAD ADL).
Proof.
  intros H. unfold cloneArguments. rewrite cloneArgumentsFrom_prologues. simpl.
  by destruct (prologuesFrom_is_Some NewF ArgMap EAD ADL 0 0 H) as [ps ->].
Qed.

Lemma thunkArgument_is_Some F ArgMap EAD st d :
  Forall (fun v => is_Some (getType v)) (bbArgs (ThunkBody st)) ->
  forwardable E ArgMap EAD (length (bbArgs (ThunkBody st))) d ->
  exists st',
    thunkArgument E F ArgMap EAD st d = Some st'
    ∧ (forall GP, is_Some (GenericToOpenedTypeMap st !! GP) ->
                  is_Some (GenericToOpenedTypeMap st' !! GP))
    ∧ (forall GP, ArgMap !! Index d = Some GP ->
                  is_Some (findDescriptor (Index d) EAD) ->
                  is_Some (GenericToOpenedTypeMap st' !! GP)).
Proof.
  intros Htypes [Hlt Hrepr]. unfold thunkArgument.
  apply lookup_lt_is_Some_2 in Hlt as [arg Harg]. rewrite Harg. simpl.
  destruct (proj1 (Forall_forall _ _) Htypes arg) as [ty Hty].
  { eapply list_elem_of_lookup_2. exact Harg. }
  rewrite Hty. simpl.
  assert (forall GP GP' ty' (m : gmap GenericTypeParamType CanType),
            is_Some (m !! GP) -> is_Some (denseInsert GP' ty' m !! GP)) as Hkeep.
  { intros GP GP' ty' m Hm. unfold denseInsert.
    destruct (m !! GP') eqn:Hm'; [done|].
    destruct (decide (GP' = GP)) as [->|Hne];
      [by rewrite lookup_insert_eq|by rewrite lookup_insert_ne]. }
  assert (forall GP ty' (m : gmap GenericTypeParamType CanType),
            is_Some (denseInsert GP ty' m !! GP)) as Hnew.
  { intros GP ty' m. unfold denseInsert.
    destruct (m !! GP) eqn:Hm; [by rewrite Hm|by rewrite lookup_insert_eq]. }
  destruct (ArgMap !! Index d) as [GP|] eqn:HGP;
    [destruct (findDescriptor (Index d) EAD) as [ETAD|] eqn:HETAD|].
  - destruct Hrepr as [-> | ->]; [by split|..].
    + destruct (isConsumed ETAD); eexists; (split; [reflexivity|]); simpl;
        (split; [by intros; apply Hkeep|by intros ? [= <-] _]).
    + unfold createAllocStack, createValue.
      destruct (isObject ty), (hasOwnership F && negb (isConsumed ETAD));
        simpl; eexists; (split; [reflexivity|]); simpl;
        (split; [by intros; apply Hkeep|by intros ? [= <-] _]).
  - eexists. split; [reflexivity|]. simpl. split; [done|]. by intros ? _ [? ?].
  - eexists. split; [reflexivity|]. simpl. split; [done|]. by intros.
Qed.

Lemma thunkArgumentsFrom_is_Some F ArgMap EAD ADL st :
  Forall (fun v => is_Some (getType v)) (bbArgs (ThunkBody st)) ->
  Forall (forwardable E ArgMap EAD (length (bbArgs (ThunkBody st)))) ADL ->
  exists st',
    thunkArgumentsFrom E F ArgMap EAD ADL st = Some st'
    ∧ (forall GP, is_Some (GenericToOpenedTypeMap st !! GP) ->
                  is_Some (GenericToOpenedTypeMap st' !! GP))
    ∧ (forall d GP, d ∈ ADL -> ArgMap !! Index d = Some GP ->
                    is_Some (findDescriptor (Index d) EAD) ->
                    is_Some (GenericToOpenedTypeMap st' !! GP)).
Proof.
  revert st. induction ADL as [|d ADL IH]; intros st Htypes Hfw; simpl.
  - exists st. split; [done|]. split; [done|]. by intros d GP ?%elem_of_nil.
  - apply Forall_cons in Hfw as [Hd Hfw].
    destruct (thunkArgument_is_Some F ArgMap EAD st d Htypes Hd)
      as (st1 & Hst1 & Hkeep1 & Hnew1).
    rewrite Hst1. simpl.
    destruct (thunkArgument_frame _ _ _ _ _ _ Hst1) as [Hargs _].
    destruct (IH st1) as (st' & Hst' & Hkeep & Hnew).
    { by rewrite Hargs. }
    { by rewrite Hargs. }
    exists st'. split; [done|]. split; [by auto|].
    intros d' GP [->|Hin]%elem_of_cons HGP Hdesc; [|by eauto].
    apply Hkeep. by eapply Hnew1.
Qed.

(** [populateThunkBody] builds the thunk whenever every descriptor can be
    forwarded and every generic parameter of the callee can be replaced. *)
Lemma populateThunkBody_is_Some F NewF ArgMap EAD ADL :
  Forall (forwardable E ArgMap EAD (length ADL)) ADL ->
  Forall (replaceable F ArgMap EAD ADL)
    (getGenericParams (getInvocationGenericSignature (getLoweredFunctionType NewF))) ->
  is_Some (populateThunkBody E F NewF ArgMap EAD ADL).
Proof.
  intros Hfw Hrep. unfold populateThunkBody, createValue. cbv zeta.
  destruct (createThunkArguments_spec F ADL (mkBB [] [] None)) as (Hargs & _ & _).
  simpl in Hargs.
  edestruct (thunkArgumentsFrom_is_Some F ArgMap EAD ADL
               (mkThunkState
                  (emit (ValueInst (FunctionRefInst (getName NewF)))
                     (foldl (createThunkArgument E F) (mkBB [] [] None) ADL))
                  [] [] ∅))
    as (st & Hst & _ & Hnew).
  { simpl. rewrite Hargs. apply Forall_forall. intros v Hv.
    apply elem_of_lookup_imap in Hv as (k & d & -> & _). done. }
  { simpl. by rewrite Hargs, length_imap. }
  rewrite Hst. simpl.
  destruct (mapM_is_Some_2
              (thunkReplacement E
                 (getNextDepth (getInvocationGenericSignature (getLoweredFunctionType F)))
                 (getForwardingSubstitutionMap E F) (GenericToOpenedTypeMap st))
              (getGenericParams
                 (getInvocationGenericSignature (getLoweredFunctionType NewF))))
    as [SubMap ->].
  { eapply Forall_impl; [exact Hrep|]. intros GP HGP. simpl.
    unfold thunkReplacement.
    destruct (decide (gpDepth GP < _)) as [|Hge]; [done|].
    destruct HGP as [Hlt|(d & Hin & HGP & Hdesc)]; [done|].
    by destruct (Hnew d GP Hin HGP Hdesc) as [ty ->]. }
  simpl. by destruct (getErrorResult (getLoweredFunctionType NewF)).
Qed.

(** ** More on the generic signature and the type of the twin *)

Lemma convertExistentialArg_inv FTy Depth st Idx st' :
  convertExistentialArg E FTy Depth st Idx = Some st' ->
  validExistentialParameter E FTy Idx
  ∧ st' = mkConvertState
            (genericParams st ++ [mkGP Depth (GPIdx st)])
            (requirements st ++
               [mkRequirement Conformance (mkGP Depth (GPIdx st))
                  (erasedConstraint
                     (default (ProtocolType "")
                        ((fun param => getArgumentType E param FTy)
                           <$> getParameters FTy !! Idx)))])
            (denseInsert Idx (mkGP Depth (GPIdx st)) (ArgToGenericTypeMap st))
            (S (GPIdx st)).
Proof.
  unfold convertExistentialArg, validExistentialParameter. intros H.
  destruct (getParameters FTy !! Idx) as [param|]; simpl in *; [|done].
  destruct (isExistentialType _) eqn:Hex; [|done].
  injection H as <-. split; [by exists param|done].
Qed.

Lemma denseInsert_lookup `{Countable K} {V} (k k' : K) (v : V) (m : gmap K V) :
  denseInsert k v m !! k' =
    if decide (k = k') then Some (default v (m !! k)) else m !! k'.
Proof.
  unfold denseInsert. destruct (decide (k = k')) as [<-|Hne].
  - destruct (m !! k) eqn:Hm; simpl; [done|by rewrite lookup_insert_eq].
  - destruct (m !! k); [done|by rewrite lookup_insert_ne].
Qed.

(** What the loop leaves in the map, whatever the keys. *)
Lemma convertLoop_map FTy Depth Idxs st0 st :
  convertLoop E FTy Depth Idxs st0 = Some st ->
  Forall (validExistentialParameter E FTy) Idxs
  ∧ (forall Idx, is_Some (ArgToGenericTypeMap st !! Idx) <->
                 Idx ∈ Idxs ∨ is_Some (ArgToGenericTypeMap st0 !! Idx))
  ∧ (forall Idx GP, ArgToGenericTypeMap st !! Idx = Some GP ->
                    ArgToGenericTypeMap st0 !! Idx = Some GP ∨ gpDepth GP = Depth).
Proof.
  revert st0. induction Idxs as [|Idx Idxs IH]; intros st0 H; simpl in H.
  - injection H as <-. split; [done|]. split; [|by auto].
    intros Idx. rewrite elem_of_nil. tauto.
  - destruct (convertExistentialArg E FTy Depth st0 Idx) as [st1|] eqn:H1;
      simpl in H; [|done].
    apply convertExistentialArg_inv in H1 as [Hvalid ->].
    apply IH in H as (Hall & Hdom & Hval). simpl in *.
    split; [by constructor|]. split.
    + intros Idx'. rewrite Hdom, elem_of_cons, denseInsert_lookup.
      destruct (decide (Idx = Idx')) as [->|Hne].
      * split; [by auto|]. intros _. right. by eexists.
      * split; [intros [?|?]; by auto|].
        intros [[?|?]|?]; [congruence|by auto..].
    + intros Idx' GP HGP. apply Hval in HGP as [HGP|?]; [|by right].
      rewrite denseInsert_lookup in HGP.
      destruct (decide (Idx = Idx')) as [->|Hne]; [|by left].
      destruct (ArgToGenericTypeMap st0 !! Idx') as [GP0|] eqn:H0; simpl in HGP.
      * left. congruence.
      * right. by injection HGP as <-.
Qed.

Lemma interfaceParams_spec NewGenericSig ArgMap Idx0 params :
  length (interfaceParams E NewGenericSig ArgMap Idx0 params) = length params
  ∧ forall i param, params !! i = Some param ->
      interfaceParams E NewGenericSig ArgMap Idx0 params !! i =
        Some match ArgMap !! (Idx0 + i) with
             | Some GP =>
                 mkSILParameterInfo (getReducedType E GP NewGenericSig)
                   (paramConvention param)
             | None => param
             end.
Proof.
  revert Idx0. induction params as [|p params IH]; intros Idx0; simpl.
  - split; [done|]. intros i param Hi. by rewrite lookup_nil in Hi.
  - destruct (IH (S Idx0)) as [Hlen Hlook]. split; [by rewrite Hlen|].
    intros [|i] param Hi; simpl in *.
    + injection Hi as <-. by rewrite Nat.add_0_r.
    + rewrite (Hlook i param Hi). by rewrite Nat.add_succ_r.
Qed.

(** X1.  The type of the twin has the parameters of the original one for
    one: same count, same conventions, the original parameter wherever the
    descriptor map has no key, the reduced type of a generic parameter of the
    new depth wherever it has one; yields, results, error result, coroutine
    kind, callee convention and the other [ExtInfo] bits are the original
    ones, the representation is thin and the substitution maps are empty. *)
Theorem specialized_type_keeps_shape F EAD NewFTy ArgMap :
  createExistentialSpecializedFunctionType E F EAD = Some (NewFTy, ArgMap) ->
  specializedTypeShape E F EAD NewFTy ArgMap.
Proof.
  unfold createExistentialSpecializedFunctionType,
    convertExistentialArgTypesToGenericArgTypes.
  intros H.
  destruct (convertLoop _ _ _ _ _) as [st|] eqn:Hst; simpl in H; [|done].
  injection H as <- <-.
  apply convertLoop_map in Hst as (_ & Hdom & Hval). simpl in *.
  unfold specializedTypeShape. simpl.
  destruct (interfaceParams_spec
              (buildGenericSignature E
                 (getInvocationGenericSignature (getLoweredFunctionType F))
                 (genericParams st) (requirements st))
              (ArgToGenericTypeMap st) 0
              (getParameters (getLoweredFunctionType F))) as [Hlen Hlook].
  split_and!; try done.
  - intros i param Hi. rewrite (Hlook i param Hi). simpl.
    eexists. split; [reflexivity|].
    destruct (ArgToGenericTypeMap st !! i) as [GP|] eqn:HGP; simpl.
    + split; [done|]. split.
      * intros Hnot. destruct (proj1 (Hdom i)) as [?|[? Hempty]];
          [by eexists|done|]. by rewrite lookup_empty in Hempty.
      * intros _. exists GP. split; [done|]. split; [|done].
        destruct (Hval i GP HGP) as [Hempty|?]; [|done].
        by rewrite lookup_empty in Hempty.
    + split; [done|]. split; [done|].
      intros Hin. destruct (proj2 (Hdom i)) as [? ?]; [by left|].
      congruence.
  - unfold hasErrorResult.
    by destruct (getErrorResult (getLoweredFunctionType F)).
Qed.

(** X2.  The synthesizer gets through exactly when every key of the
    descriptor map is the position of a parameter of existential type: a key
    past the last parameter, or the key of a parameter that is no existential,
    stops it at its assertion; and when it gets through, the keys of the
    index-to-parameter map are the keys of the descriptor map. *)
Theorem synthesizer_returns_iff_keys_valid F EAD :
  (is_Some (convertExistentialArgTypesToGenericArgTypes E F EAD) <->
     Forall (validExistentialParameter E (getLoweredFunctionType F)) (fst <$> EAD))
  ∧ forall st,
      convertExistentialArgTypesToGenericArgTypes E F EAD = Some st ->
      forall Idx, is_Some (ArgToGenericTypeMap st !! Idx) <-> Idx ∈ (fst <$> EAD).
Proof.
  unfold convertExistentialArgTypesToGenericArgTypes. split.
  - split.
    + intros [st Hst]. by apply convertLoop_map in Hst as (? & _).
    + generalize (mkConvertState [] [] ∅ 0) as st0.
      generalize (fst <$> EAD) as Idxs.
      induction Idxs as [|Idx Idxs IH]; intros st0 Hall; simpl; [done|].
      apply Forall_cons in Hall as [(param & Hparam & Hex) Hall].
      unfold convertExistentialArg at 1. rewrite Hparam. simpl. rewrite Hex.
      simpl. by apply IH.
  - intros st Hst Idx. apply convertLoop_map in Hst as (_ & Hdom & _).
    rewrite Hdom. simpl. rewrite lookup_empty. split; [|by left].
    intros [?|[? ?]]; done.
Qed.

Lemma convert_parameters_distinct F EAD st :
  NoDup (fst <$> EAD) ->
  convertExistentialArgTypesToGenericArgTypes E F EAD = Some st ->
  parametersDistinct (ArgToGenericTypeMap st).
Proof.
  unfold convertExistentialArgTypesToGenericArgTypes. intros Hnd Hst.
  pose proof (convertLoop_map _ _ _ _ _ Hst) as (Hvalid & Hdom & _).
  edestruct (convertLoop_spec (getLoweredFunctionType F)
               (getNextDepth (getInvocationGenericSignature (getLoweredFunctionType F)))
               (fst <$> EAD) (mkConvertState [] [] ∅ 0))
    as (st' & gps & reqs & Hst' & _ & _ & _ & _ & Hk & _); [done| |done|].
  { intros Idx _. apply lookup_empty. }
  rewrite Hst in Hst'. injection Hst' as <-. simpl in *.
  assert (forall Idx GP, ArgToGenericTypeMap st !! Idx = Some GP ->
            exists k, (fst <$> EAD) !! k = Some Idx
              ∧ GP = mkGP (getNextDepth (getInvocationGenericSignature
                                            (getLoweredFunctionType F))) k)
    as Hpos.
  { intros Idx GP HGP.
    destruct (proj1 (Hdom Idx)) as [Hin|[? Hempty]]; [by eexists| |].
    - apply list_elem_of_lookup in Hin as [k Hk']. exists k. split; [done|].
      destruct (Hk k Idx Hk') as (_ & _ & Hmap). congruence.
    - by rewrite lookup_empty in Hempty. }
  intros Idx1 Idx2 GP1 GP2 H1 H2.
  apply Hpos in H1 as (k1 & Hk1 & ->). apply Hpos in H2 as (k2 & Hk2 & ->).
  split; [done|]. intros [= ->]. congruence.
Qed.

(** X3.  When no key occurs twice in the descriptor map, the generic
    parameters the synthesizer gives out all sit at one depth and different
    argument positions get different parameters; the type builder hands the
    same map on. *)
Theorem new_generic_parameters_distinct F EAD NewFTy ArgMap :
  NoDup (fst <$> EAD) ->
  createExistentialSpecializedFunctionType E F EAD = Some (NewFTy, ArgMap) ->
  parametersDistinct ArgMap.
Proof.
  unfold createExistentialSpecializedFunctionType. intros Hnd H.
  destruct (convertExistentialArgTypesToGenericArgTypes E F EAD) as [st|] eqn:Hst;
    simpl in H; [|done].
  injection H as _ <-. by eapply convert_parameters_distinct.
Qed.


(** ** More on the entry block of the twin *)

Lemma argumentPrologue_arg NewF ArgMap EAD nA nI d p :
  argumentPrologue E NewF ArgMap EAD nA nI d = Some p ->
  argIndex (pArg p) = nA
  ∧ argDecl (pArg p) = Decl d
  ∧ argFlags (pArg p) = argFlags (Arg d)
  ∧ getCategory (argType (pArg p)) = getCategory (argType (Arg d))
  ∧ (ArgMap !! Index d = None ->
       pEntryArg p = FunctionArgument (pArg p)
       ∧ pInsts p = [] ∧ pCleanups p = [] ∧ pAllocs p = [])
  ∧ (forall GP, ArgMap !! Index d = Some GP ->
       pArg p = genericArgumentFor E NewF nA GP d).
Proof.
  unfold argumentPrologue. intros H.
  destruct (ArgMap !! Index d) as [GP|]; simpl in H.
  2:{ destruct (_ !! Index d); simplify_eq/=. by split_and!. }
  destruct (isAnyExistentialType _); [done|].
  destruct (getPreferredExistentialRepresentation E _); simplify_eq/=;
    split_and!; try done; by intros ? [= <-].
Qed.

Lemma cloneArguments_prologues NewF ArgMap EAD ADL st :
  cloneArguments E NewF ArgMap EAD ADL = Some st ->
  exists ps,
    prologuesFrom E NewF ArgMap EAD 0 0 ADL = Some ps
    ∧ length ps = length ADL
    ∧ ClonedEntryBB st =
        mkBB ((FunctionArgument ∘ pArg) <$> ps) (ps ≫= pInsts) None
    ∧ AllocStackInsts st = ps ≫= pAllocs
    ∧ CleanupValues st = ps ≫= pCleanups
    ∧ entryArgs st = pEntryArg <$> ps.
Proof.
  unfold cloneArguments. rewrite cloneArgumentsFrom_prologues. simpl.
  intros Hst.
  destruct (prologuesFrom _ _ _ _ _ _ ADL) as [ps|] eqn:Hps; simplify_eq/=.
  exists ps. split; [done|].
  split; [by eapply prologuesFrom_length|].
  destruct (foldl_addPrologue ps (mkClonerState (mkBB [] [] None) [] [] []))
    as (Ha & Hi & Ht & Hal & Hc & He).
  simpl in *. split_and!; try done.
  destruct (ClonedEntryBB _). simpl in *. by subst.
Qed.

(** X4.  The entry block the cloner builds for the twin has exactly one
    argument per argument descriptor, in the order of the descriptors, and the
    cloned body is handed exactly one value per descriptor; the argument made
    for a descriptor keeps its declaration, its flags and its value category;
    an argument that is not rewritten is itself the value handed to the body,
    and a rewritten one has the lowered type of the generic parameter mapped
    to its index and the ownership of the original argument convention. *)
Theorem cloner_makes_one_argument_per_descriptor NewF ArgMap EAD ADL st :
  cloneArguments E NewF ArgMap EAD ADL = Some st ->
  entryArgumentsCloned E NewF ArgMap ADL st.
Proof.
  intros Hst. unfold entryArgumentsCloned.
  destruct (cloneArguments_prologues _ _ _ _ _ Hst)
    as (ps & _ & Hlen & Hbb & _ & _ & Hentry).
  split; [by rewrite Hbb; simpl; rewrite length_fmap|].
  split; [by rewrite Hentry, length_fmap|].
  intros k d Hk.
  destruct (cloneArguments_at _ _ _ _ _ _ _ Hst Hk)
    as (p & iB & iA & cB & cA & aB & aA & Hp & Harg & Hent & _).
  destruct (argumentPrologue_arg _ _ _ _ _ _ _ Hp)
    as (Hidx & Hdecl & Hflags & Hcat & Hnone & Hsome).
  exists (pArg p). split_and!; try done.
  - intros Hno. destruct (Hnone Hno) as (He & _). by rewrite Hent, He.
  - intros GP HGP. rewrite (Hsome GP HGP). done.
Qed.


Lemma argumentPrologue_clonable NewF ArgMap EAD nA nI d :
  is_Some (argumentPrologue E NewF ArgMap EAD nA nI d) ->
  clonable E NewF ArgMap d.
Proof.
  unfold clonable, argumentPrologue, handledRepresentation. intros [p H].
  destruct (ArgMap !! Index d) as [GP|]; simpl in *.
  - destruct (isAnyExistentialType _); [done|].
    split; [done|].
    destruct (getPreferredExistentialRepresentation E _); try done; auto.
  - destruct (_ !! Index d) as [param|] eqn:Hparam; [|done].
    by eapply lookup_lt_Some.
Qed.

Lemma prologuesFrom_clonable NewF ArgMap EAD ADL nA nI :
  is_Some (prologuesFrom E NewF ArgMap EAD nA nI ADL) ->
  Forall (clonable E NewF ArgMap) ADL.
Proof.
  revert nA nI. induction ADL as [|d ADL IH]; intros nA nI [ps H]; simpl in *;
    [done|].
  destruct (argumentPrologue _ _ _ _ _ _ _) as [p|] eqn:Hp; simpl in *; [|done].
  destruct (prologuesFrom _ _ _ _ _ _ ADL) as [ps'|] eqn:Hps'; simpl in *;
    [|done].
  constructor.
  - eapply argumentPrologue_clonable. by rewrite Hp.
  - eapply IH. by rewrite Hps'.
Qed.

(** X6.  The cloner builds the entry block if and only if it can make an
    argument for every descriptor: the index of a descriptor that is not
    rewritten is the position of a parameter of the type of the twin, and a
    rewritten descriptor has a generic type that is no existential and the
    opaque or the class representation; every other input stops at an
    assertion or at the unhandled representation. *)
Theorem cloner_builds_entry_iff_clonable NewF ArgMap EAD ADL :
  is_Some (cloneArguments E NewF ArgMap EAD ADL)
  <-> Forall (clonable E NewF ArgMap) ADL.
Proof.
  split; [|apply cloneArguments_is_Some].
  unfold cloneArguments. rewrite cloneArgumentsFrom_prologues. simpl.
  intros [st Hst]. eapply (prologuesFrom_clonable _ _ EAD _ 0 0).
  destruct (prologuesFrom _ _ _ _ _ _ ADL) as [ps|]; [by eexists|done].
Qed.

Lemma mapM_id {A} (f : A -> option A) (l : list A) :
  (forall x, f x = Some x) -> mapM f l = Some l.
Proof.
  intros Hf. induction l as [|x l IH]; [done|].
  simpl. rewrite Hf. simpl. by rewrite IH.
Qed.

Lemma prologuesFrom_untransformed NewF ArgMap EAD ADL nA nI ps :
  Forall (fun d => ArgMap !! Index d = None) ADL ->
  prologuesFrom E NewF ArgMap EAD nA nI ADL = Some ps ->
  ps ≫= pInsts = [] ∧ ps ≫= pCleanups = [] ∧ ps ≫= pAllocs = []
  ∧ pEntryArg <$> ps = (FunctionArgument ∘ pArg) <$> ps.
Proof.
  revert nA nI ps. induction ADL as [|d ADL IH]; intros nA nI ps Hno H;
    simpl in *.
  - by simplify_eq.
  - apply Forall_cons in Hno as [Hd Hno].
    destruct (argumentPrologue _ _ _ _ _ _ _) as [p|] eqn:Hp; simpl in *; [|done].
    destruct (prologuesFrom _ _ _ _ _ _ ADL) as [ps'|] eqn:Hps'; simpl in *;
      [|done].
    simplify_eq.
    destruct (argumentPrologue_arg _ _ _ _ _ _ _ Hp) as (_ & _ & _ & _ & Hnone & _).
    destruct (Hnone Hd) as (He & Hi & Hc & Ha).
    destruct (IH _ _ _ Hno Hps') as (Hi' & Hc' & Ha' & He').
    rewrite !bind_cons, !fmap_cons, Hi, Hc, Ha, Hi', Hc', Ha', He, He'. done.
Qed.

(** X5.  When no descriptor is rewritten, the cloner adds nothing of its own:
    the entry block gets the arguments and no instruction, no cleanup value
    and no stack slot is registered, the body is cloned onto the new
    arguments themselves, and the twin is the cloned body with no exit
    touched. *)
Theorem cloner_adds_nothing_without_existentials
    OrigF NewF ArgMap EAD ADL st :
  Forall (fun d => ArgMap !! Index d = None) ADL ->
  cloneArguments E NewF ArgMap EAD ADL = Some st ->
  emptyPrologue st
  ∧ cloneAndPopulateFunction E OrigF NewF ArgMap EAD ADL =
      Some (setBlocks NewF
              (cloneFunctionBody E OrigF (setBlocks NewF [ClonedEntryBB st])
                 (ClonedEntryBB st) (bbArgs (ClonedEntryBB st)))).
Proof.
  intros Hno Hst.
  destruct (cloneArguments_prologues _ _ _ _ _ Hst)
    as (ps & Hps & _ & Hbb & Hal & Hc & He).
  destruct (prologuesFrom_untransformed _ _ _ _ _ _ _ Hno Hps)
    as (Hi' & Hc' & Ha' & He').
  assert (emptyPrologue st) as Hempty.
  { unfold emptyPrologue. rewrite Hbb, Hal, Hc, He. simpl. done. }
  split; [done|].
  destruct Hempty as (_ & Hcl & Hall & Hentry).
  unfold cloneAndPopulateFunction. rewrite Hst. simpl.
  rewrite mapM_id; [by rewrite Hentry|].
  intros bb. unfold cleanupAtExit. rewrite Hcl, Hall.
  by destruct (isExitingBlock E bb).
Qed.

Lemma mapM_None_Exists {A B} (f : A -> option B) (l : list A) :
  mapM f l = None <-> Exists (fun x => f x = None) l.
Proof.
  induction l as [|x l IH]; simpl.
  - split; [done|]. by intros ?%Exists_nil.
  - rewrite Exists_cons. destruct (f x) as [y|]; simpl.
    + destruct (mapM f l); simpl; intuition discriminate.
    + intuition.
Qed.

Lemma emitCleanupDestroys_None cl bb :
  emitCleanupDestroys E cl bb = None
  <-> Exists (fun v => getOwnershipKind E v = OwnershipKind_Guaranteed) cl.
Proof.
  revert bb. induction cl as [|v cl IH]; intros bb; simpl.
  - split; [done|]. by intros ?%Exists_nil.
  - rewrite Exists_cons.
    destruct (decide (getOwnershipKind E v = OwnershipKind_Guaranteed)).
    + split; auto.
    + rewrite IH. intuition.
Qed.

(** X9.  Once the entry block is built, the cloner fails if and only if the
    cloned body has a function exit and some registered cleanup value has
    guaranteed ownership: the assertion in front of the destroys is only
    reached at an exit, so a body without an exit is accepted whatever its
    cleanup values are. *)
Theorem cloner_asserts_iff_exit_and_guaranteed_cleanup
    OrigF NewF ArgMap EAD ADL st :
  cloneArguments E NewF ArgMap EAD ADL = Some st ->
  cloneAndPopulateFunction E OrigF NewF ArgMap EAD ADL = None
  <-> Exists (fun bb => isExitingBlock E bb = true)
        (cloneFunctionBody E OrigF (setBlocks NewF [ClonedEntryBB st])
           (ClonedEntryBB st) (entryArgs st))
      ∧ guaranteedCleanup E st.
Proof.
  intros Hst. unfold cloneAndPopulateFunction, guaranteedCleanup.
  rewrite Hst. simpl.
  set (body := cloneFunctionBody _ _ _ _ _).
  pose proof (mapM_None_Exists (cleanupAtExit E st) body) as Hm.
  assert (forall bb, cleanupAtExit E st bb = None
            <-> isExitingBlock E bb = true
                ∧ Exists (fun v => getOwnershipKind E v = OwnershipKind_Guaranteed)
                    (CleanupValues st)) as Hone.
  { intros bb. unfold cleanupAtExit.
    destruct (isExitingBlock E bb).
    - rewrite <- (emitCleanupDestroys_None _ bb).
      destruct (emitCleanupDestroys _ _ _); simpl; intuition discriminate.
    - intuition discriminate. }
  assert ((mapM (cleanupAtExit E st) body
             ≫= (fun blocks => Some (setBlocks NewF blocks))) = None
          <-> mapM (cleanupAtExit E st) body = None) as ->.
  { destruct (mapM _ body); simpl; intuition discriminate. }
  rewrite Hm. split.
  - intros (bb & Hin & Hbb)%Exists_exists. apply Hone in Hbb as [Hexit Hg].
    split; [|done]. apply Exists_exists. by exists bb.
  - intros [(bb & Hin & Hexit)%Exists_exists Hg]. apply Exists_exists.
    exists bb. split; [done|]. by apply Hone.
Qed.


(** ** The stack slots of the twin *)

Lemma stackAllocations_app l1 l2 :
  stackAllocations (l1 ++ l2) = stackAllocations l1 ++ stackAllocations l2.
Proof. apply omap_app. Qed.

Lemma stackDeallocations_exitCleanup order st :
  stackDeallocations (exitCleanup order st) = reverse (AllocStackInsts st).
Proof.
  unfold exitCleanup, stackDeallocations. rewrite omap_app.
  assert (forall l, omap (fun i => match i with
                                   | DeallocStackInst v => Some v
                                   | _ => None
                                   end) (DestroyOperation <$> l) = []) as ->.
  { induction l as [|v l IH]; [done|]. by rewrite fmap_cons; simpl. }
  generalize (reverse (AllocStackInsts st)) as l.
  induction l as [|v l IH]; [done|].
  rewrite fmap_cons. simpl. by f_equal.
Qed.

Lemma slotWithin_mono lo hi lo' hi' v :
  slotWithin lo hi v -> lo' ≤ lo -> hi ≤ hi' -> slotWithin lo' hi' v.
Proof. unfold slotWithin. intros. case_match; try done. lia. Qed.

Lemma argumentPrologue_allocs NewF ArgMap EAD nA nI d p :
  argumentPrologue E NewF ArgMap EAD nA nI d = Some p ->
  stackAllocations (pInsts p) = pAllocs p
  ∧ Forall (slotWithin nI (nI + length (pInsts p))) (pAllocs p)
  ∧ NoDup (pAllocs p).
Proof.
  unfold argumentPrologue. intros H.
  destruct (ArgMap !! Index d) as [GP|]; simpl in H.
  2:{ destruct (_ !! Index d); simplify_eq/=. split_and!; [done..|constructor]. }
  destruct (isAnyExistentialType _); [done|].
  destruct (getPreferredExistentialRepresentation E _); simplify_eq/=.
  - split_and!; [done| |apply NoDup_singleton].
    repeat constructor; simpl; lia.
  - unfold boxedReference, boxedValue.
    destruct (takesOwningCopy _ _), (isObject _); simpl;
      (split_and!; [done| |first [apply NoDup_nil_2|apply NoDup_singleton]]);
      repeat constructor; simpl; lia.
Qed.

Lemma prologuesFrom_allocs NewF ArgMap EAD l nA nI ps :
  prologuesFrom E NewF ArgMap EAD nA nI l = Some ps ->
  stackAllocations (ps ≫= pInsts) = ps ≫= pAllocs
  ∧ Forall (slotWithin nI (nI + length (ps ≫= pInsts))) (ps ≫= pAllocs)
  ∧ NoDup (ps ≫= pAllocs).
Proof.
  revert nA nI ps. induction l as [|d l IH]; intros nA nI ps H; simpl in *.
  - simplify_eq. split_and!; [done|done|constructor].
  - destruct (argumentPrologue _ _ _ _ _ _ _) as [p|] eqn:Hp; simpl in *; [|done].
    destruct (prologuesFrom _ _ _ _ _ _ l) as [ps'|] eqn:Hps'; simpl in *; [|done].
    simplify_eq. apply IH in Hps' as (H1 & H2 & H3).
    apply argumentPrologue_allocs in Hp as (P1 & P2 & P3).
    rewrite !bind_cons, length_app, stackAllocations_app, P1, H1.
    split_and!; [done|..].
    + apply Forall_app. split.
      * eapply Forall_impl; [exact P2|]. intros v Hv.
        eapply slotWithin_mono; [exact Hv|lia..].
      * eapply Forall_impl; [exact H2|]. intros v Hv.
        eapply slotWithin_mono; [exact Hv|lia..].
    + apply NoDup_app. split_and!; [done| |done].
      intros v Hv Hv'.
      apply (proj1 (Forall_forall _ _) P2) in Hv.
      apply (proj1 (Forall_forall _ _) H2) in Hv'.
      destruct v; simpl in *; try done. lia.
Qed.

(** X7.  The twin keeps the stack discipline: the [alloc_stack]
    instructions of its entry block are exactly the registered stack slots,
    in the order of registration and no slot twice, and every function exit
    deallocates, after the instructions cloned into it, exactly these slots
    in the reverse of the order of their allocation. *)
Theorem twin_deallocates_in_reverse_of_allocation
    OrigF NewF ArgMap EAD ADL Twin :
  cloneAndPopulateFunction E OrigF NewF ArgMap EAD ADL = Some Twin ->
  twinStackBalanced E OrigF NewF ArgMap EAD ADL Twin.
Proof.
  unfold cloneAndPopulateFunction, twinStackBalanced. intros H.
  destruct (cloneArguments _ _ _ _ _) as [st|] eqn:Hst; simplify_eq/=.
  destruct (mapM _ _) as [blocks|] eqn:Hm; simplify_eq/=.
  destruct (cloneArguments_prologues _ _ _ _ _ Hst)
    as (ps & Hps & _ & Hbb & Hal & _ & _).
  destruct (prologuesFrom_allocs _ _ _ _ _ _ _ Hps) as (Hsa & _ & Hnd).
  assert (stackAllocations (bbInsts (ClonedEntryBB st)) = AllocStackInsts st)
    as Heq by (by rewrite Hbb, Hal).
  exists st. split_and!; [done|done|by rewrite Hal|].
  apply mapM_Some in Hm. eapply Forall2_impl; [exact Hm|].
  intros bb bb' Hcl Hexit.
  apply cleanupAtExit_inv in Hcl as (_ & _ & Hinsts).
  rewrite Hinsts, Hexit, drop_app_length, Heq.
  apply stackDeallocations_exitCleanup.
Qed.

Lemma argumentPrologue_class_insts NewF ArgMap EAD nA nI d p :
  argumentPrologue E NewF ArgMap EAD nA nI d = Some p ->
  is_Some (ArgMap !! Index d) ->
  getPreferredExistentialRepresentation E (argType (Arg d)) = Repr_Class ->
  let consumed := isConsumed (descriptorAt (Index d) EAD) in
  let NewArg := pArg p in
  let NewArgV := FunctionArgument NewArg in
  let InitRef := boxedReference E NewF NewArg d consumed in
  let loads :=
    if isObject (argType NewArg) then []
    else [ValueInst
            (LoadValueOperation NewArgV
               (if hasOwnership NewF && negb consumed then Load_Copy
                else Load_Take))] in
  let copies :=
    if takesOwningCopy NewF NewArg
    then [ValueInst (CopyValueOperation NewArgV)] else [] in
  let alloc :=
    AllocStackInst (nI + length loads + length copies + 1)
      (getObjectType (argType (Arg d))) in
  pInsts p =
    loads ++ copies ++ [ValueInst InitRef]
      ++ (if isObject (argType NewArg) then []
          else [ValueInst alloc; StoreValueOperation InitRef alloc Store_Init])
  ∧ pCleanups p = (if takesOwningCopy NewF NewArg then [InitRef] else [])
  ∧ pAllocs p = (if isObject (argType NewArg) then [] else [alloc])
  ∧ pEntryArg p = (if isObject (argType NewArg) then InitRef else alloc).
Proof.
  unfold argumentPrologue. intros H [GP HGP] Hrepr. rewrite HGP, Hrepr in H.
  destruct (isAnyExistentialType _); by simplify_eq/=.
Qed.

(** X8.  In the entry block of the twin, a rewritten argument of class
    representation that is an object is boxed directly, after its copy if it
    gets one, and the boxed reference stands for the original argument; one
    that is at an address is loaded first, by a copy exactly when the twin has
    ownership and the original argument was not consumed and by a take
    otherwise, and the boxed reference is stored into a fresh stack slot that
    stands for the original argument, is registered for deallocation and is
    never registered for destruction. *)
Theorem class_argument_at_address_is_spilled NewF ArgMap EAD ADL st k d :
  cloneArguments E NewF ArgMap EAD ADL = Some st ->
  ADL !! k = Some d ->
  is_Some (ArgMap !! Index d) ->
  getPreferredExistentialRepresentation E (argType (Arg d)) = Repr_Class ->
  classArgumentPassed E NewF EAD st k d.
Proof.
  intros Hst Hk HGP Hrepr.
  destruct (cloneArguments_at _ _ _ _ _ _ _ Hst Hk)
    as (p & iB & iA & cB & cA & aB & aA & Hp & Harg & Hentry & Hinsts & Hcl
        & Hal & B1 & B2 & _ & _).
  destruct (argumentPrologue_class_insts _ _ _ _ _ _ _ Hp HGP Hrepr)
    as (Hpi & Hpc & Hpa & Hpe).
  cbv zeta in Hpi, Hpc, Hpa, Hpe.
  unfold classArgumentPassed. exists (pArg p), iB, iA. cbv zeta.
  split; [done|].
  rewrite Hpi in B2. rewrite Hinsts, Hpi, Hcl, Hpc, Hal, Hpa, Hentry, Hpe.
  clear Hinsts Hpi Hcl Hpc Hal Hpa Hentry Hpe Hp Harg.
  destruct (isObject (argType (pArg p))).
  - split; [|done]. by rewrite <- !app_assoc.
  - eexists. split_and!; [|reflexivity|..].
    + rewrite <- !app_assoc. simpl. done.
    + done.
    + rewrite !elem_of_app, list_elem_of_singleton. auto.
    + rewrite !elem_of_app. intros [Hin|[Hin|Hin]].
      * apply (proj1 (Forall_forall _ _) B1) in Hin. simpl in Hin. lia.
      * destruct (takesOwningCopy NewF (pArg p));
          [by apply list_elem_of_singleton in Hin|by apply elem_of_nil in Hin].
      * apply (proj1 (Forall_forall _ _) B2) in Hin. simpl in Hin.
        rewrite !length_app in Hin. simpl in Hin. lia.
Qed.


(** ** The body of the thunk, argument by argument *)

Lemma thunkArgument_opening F ArgMap EAD st d :
  thunkArgument E F ArgMap EAD st d =
    addOpening st <$>
      argumentOpening E F ArgMap EAD (bbArgs (ThunkBody st))
        (length (bbInsts (ThunkBody st))) d.
Proof.
  unfold thunkArgument, argumentOpening, addOpening.
  destruct st as [[args insts term] aargs temps g2o]; simpl.
  assert (forall o : option SILValue,
            (o ≫= fun arg => Some (mkThunkState (mkBB args insts term)
                                     (aargs ++ [arg]) temps g2o)) =
            (fun o => mkThunkState (mkBB args (insts ++ oInsts o) term)
                        (aargs ++ [oApplyArg o]) (temps ++ oTemps o)
                        match oOpened o with
                        | Some (GP, ty) => denseInsert GP ty g2o
                        | None => g2o
                        end)
              <$> (o ≫= fun arg => Some (mkOpening [] arg [] None))) as Hplain.
  { intros [arg|]; simpl; [|done]. by rewrite !app_nil_r. }
  destruct (ArgMap !! Index d) as [GP|]; [|apply Hplain].
  destruct (findDescriptor (Index d) EAD) as [ETAD|]; [|apply Hplain].
  destruct (args !! Index d) as [OrigOperand|]; simpl; [|done].
  destruct (getType OrigOperand) as [ty|]; simpl; [|done].
  destruct (getPreferredExistentialRepresentation E (argType (Arg d))); try done.
  - unfold createAllocStack, createValue, emit, openedTypeFor; simpl.
    destruct (isConsumed ETAD); simpl;
      rewrite ?length_app, <- ?app_assoc, ?app_nil_r; simpl;
      rewrite ?Nat.add_1_r; done.
  - unfold createAllocStack, createValue, emit, openedTypeFor, referenceToOpen,
      copiesBeforeOpening; simpl.
    destruct (isObject ty), (hasOwnership F && negb (isConsumed ETAD)); simpl;
      rewrite ?length_app, <- ?app_assoc, ?app_nil_r; simpl;
      rewrite <- ?Nat.add_assoc; done.
Qed.


Lemma foldl_addOpening os st :
  let st' := foldl addOpening st os in
  bbArgs (ThunkBody st') = bbArgs (ThunkBody st)
  ∧ bbInsts (ThunkBody st') = bbInsts (ThunkBody st) ++ (os ≫= oInsts)
  ∧ bbTerm (ThunkBody st') = bbTerm (ThunkBody st)
  ∧ ApplyArgs st' = ApplyArgs st ++ (oApplyArg <$> os)
  ∧ Temps st' = Temps st ++ (os ≫= oTemps)
  ∧ GenericToOpenedTypeMap st' = openedTypes os (GenericToOpenedTypeMap st).
Proof.
  revert st. induction os as [|o os IH]; intros st; simpl.
  - by rewrite !app_nil_r.
  - destruct (IH (addOpening st o)) as (-> & -> & -> & -> & -> & ->).
    simpl. by rewrite <- !app_assoc.
Qed.

Lemma thunkArgumentsFrom_openings F ArgMap EAD ADL st :
  thunkArgumentsFrom E F ArgMap EAD ADL st =
    (foldl addOpening st) <$>
      openingsFrom E F ArgMap EAD (bbArgs (ThunkBody st))
        (length (bbInsts (ThunkBody st))) ADL.
Proof.
  revert st. induction ADL as [|d ADL IH]; intros st; simpl; [done|].
  rewrite thunkArgument_opening.
  destruct (argumentOpening _ _ _ _ _ _ _) as [o|]; simpl; [|done].
  rewrite IH. simpl. rewrite !length_app.
  by destruct (openingsFrom _ _ _ _ _ _ _).
Qed.

Lemma openingsFrom_app F ArgMap EAD args l1 l2 nI os :
  openingsFrom E F ArgMap EAD args nI (l1 ++ l2) = Some os ->
  exists os1 os2,
    os = os1 ++ os2
    ∧ openingsFrom E F ArgMap EAD args nI l1 = Some os1
    ∧ openingsFrom E F ArgMap EAD args (nI + length (os1 ≫= oInsts)) l2
        = Some os2.
Proof.
  revert nI os. induction l1 as [|d l1 IH]; intros nI os H; simpl in *.
  - exists [], os. by rewrite !Nat.add_0_r.
  - destruct (argumentOpening _ _ _ _ _ _ _) as [o|]; simpl in *; [|done].
    destruct (openingsFrom _ _ _ _ _ _ (l1 ++ l2)) as [os'|] eqn:Hos';
      simpl in *; [|done].
    simplify_eq. apply IH in Hos' as (os1 & os2 & -> & -> & Hos2).
    exists (o :: os1), os2. simpl. split; [done|]. split; [done|].
    by rewrite length_app, Nat.add_assoc.
Qed.

Lemma openingsFrom_length F ArgMap EAD args l nI os :
  openingsFrom E F ArgMap EAD args nI l = Some os -> length os = length l.
Proof.
  revert nI os. induction l as [|d l IH]; intros nI os H; simpl in *.
  - by simplify_eq.
  - destruct (argumentOpening _ _ _ _ _ _ _) as [o|]; simpl in *; [|done].
    destruct (openingsFrom _ _ _ _ _ _ l) as [os'|] eqn:Hos'; simpl in *; [|done].
    simplify_eq. simpl. f_equal. by eapply IH.
Qed.

Lemma emitTempCleanups_spec temps bb :
  emitTempCleanups temps bb =
    mkBB (bbArgs bb) (bbInsts bb ++ (reverse temps ≫= tempCleanup)) (bbTerm bb).
Proof.
  unfold emitTempCleanups. generalize (reverse temps) as l. intros l.
  revert bb. induction l as [|T l IH]; intros bb; simpl.
  - rewrite app_nil_r. by destruct bb.
  - rewrite IH. unfold emitTempCleanup, tempCleanup, emit.
    destruct (DestroyValue T), (DeallocStackEntry T); simpl;
      rewrite <- ?app_assoc; done.
Qed.

(** The thunk [populateThunkBody] builds, laid out by the openings of its
    arguments. *)
Lemma populateThunkBody_layout F NewF ArgMap EAD ADL Thunk :
  populateThunkBody E F NewF ArgMap EAD ADL = Some Thunk ->
  exists os SubMap ReturnValue,
    openingsFrom E F ArgMap EAD (thunkArguments E F ADL) 1 ADL = Some os
    ∧ mapM (thunkReplacement E
              (getNextDepth (getInvocationGenericSignature (getLoweredFunctionType F)))
              (getForwardingSubstitutionMap E F) (openedTypes os ∅))
           (getGenericParams
              (getInvocationGenericSignature (getLoweredFunctionType NewF)))
        = Some SubMap
    ∧ thunkLayout E NewF Thunk (os ≫= oInsts) SubMap (oApplyArg <$> os)
        (reverse (os ≫= oTemps) ≫= tempCleanup) ReturnValue
        (Some (thunkTerminator E NewF ReturnValue)).
Proof.
  intros H. apply populateThunkBody_inv in H as (st & SubMap & Hst & Hsub & ->).
  rewrite thunkArgumentsFrom_openings in Hst. simpl in Hst.
  destruct (createThunkArguments_spec F ADL (mkBB [] [] None))
    as (Hargs & Hinsts & Hterm).
  simpl in Hargs, Hinsts, Hterm.
  rewrite Hargs, Hinsts in Hst. simpl in Hst.
  fold (thunkArguments E F ADL) in Hst.
  destruct (openingsFrom _ _ _ _ _ _ ADL) as [os|] eqn:Hos; simplify_eq/=.
  destruct (foldl_addOpening os
              (mkThunkState
                 (emit (ValueInst (FunctionRefInst (getName NewF)))
                    (foldl (createThunkArgument E F) (mkBB [] [] None) ADL))
                 [] [] ∅)) as (Ha & Hi & Ht & Hap & Hte & Hg).
  simpl in Ha, Hi, Ht, Hap, Hte, Hg. rewrite Hinsts in Hi. simpl in Hi.
  rewrite Hg in Hsub.
  exists os, SubMap.
  unfold thunkLayout, thunkTerminator.
  destruct (getErrorResult (getLoweredFunctionType NewF)) as [err|]; simpl.
  - eexists. split; [done|]. split; [done|].
    eexists _, _, _. split; [reflexivity|].
    rewrite !emitTempCleanups_spec, Hte.
    destruct (isNoReturnFunction E _); simpl; by rewrite Hi, Hap.
  - eexists. split; [done|]. split; [done|].
    eexists. split; [reflexivity|].
    rewrite !emitTempCleanups_spec, Hte.
    destruct (isNoReturnFunction E _); simpl;
      rewrite Hi, Hap; simpl; rewrite <- ?app_assoc; done.
Qed.


Lemma thunkArguments_lookup F ADL i :
  thunkArguments E F ADL !! i =
    (fun d' => FunctionArgument (thunkArgumentFor E F i d')) <$> ADL !! i.
Proof. unfold thunkArguments. by rewrite list_lookup_imap. Qed.

(** The openings, seen from one descriptor. *)
Lemma openingsFrom_at F ArgMap EAD args ADL nI os k d :
  openingsFrom E F ArgMap EAD args nI ADL = Some os ->
  ADL !! k = Some d ->
  exists o os1 os2,
    os = os1 ++ o :: os2
    ∧ length os1 = k
    ∧ openingsFrom E F ArgMap EAD args nI (take k ADL) = Some os1
    ∧ argumentOpening E F ArgMap EAD args (nI + length (os1 ≫= oInsts)) d
        = Some o
    ∧ openingsFrom E F ArgMap EAD args
        (nI + length (os1 ≫= oInsts) + length (oInsts o)) (drop (S k) ADL)
        = Some os2.
Proof.
  intros Hos Hk.
  assert (length (take k ADL) = k) as Hlen.
  { rewrite length_take. apply lookup_lt_Some in Hk. lia. }
  rewrite <- (take_drop_middle ADL k d Hk) in Hos.
  apply openingsFrom_app in Hos as (os1 & os2 & -> & Hos1 & Hos2).
  simpl in Hos2.
  destruct (argumentOpening _ _ _ _ _ _ _) as [o|] eqn:Ho; simpl in *; [|done].
  destruct (openingsFrom _ _ _ _ _ _ (drop _ _)) as [os3|] eqn:Hos3;
    simplify_eq/=.
  exists o, os1, os3. split_and!; try done.
  by rewrite (openingsFrom_length _ _ _ _ _ _ _ Hos1).
Qed.

Lemma argumentOpening_plain F ArgMap EAD args nI d o :
  argumentOpening E F ArgMap EAD args nI d = Some o ->
  ¬ opened ArgMap EAD d ->
  exists arg, args !! Index d = Some arg ∧ o = mkOpening [] arg [] None.
Proof.
  unfold argumentOpening, opened. intros H Hno.
  destruct (ArgMap !! Index d) as [GP|];
    [destruct (findDescriptor (Index d) EAD) as [ETAD|]|].
  - destruct Hno. by split.
  - destruct (args !! Index d) as [arg|]; simplify_eq/=. by exists arg.
  - destruct (args !! Index d) as [arg|]; simplify_eq/=. by exists arg.
Qed.

Lemma openingsFrom_plain F ArgMap EAD args ADL nI os :
  openingsFrom E F ArgMap EAD args nI ADL = Some os ->
  Forall (fun d => ¬ opened ArgMap EAD d) ADL ->
  os ≫= oInsts = [] ∧ os ≫= oTemps = [].
Proof.
  revert nI os. induction ADL as [|d ADL IH]; intros nI os H Hno; simpl in *.
  - by simplify_eq.
  - apply Forall_cons in Hno as [Hd Hno].
    destruct (argumentOpening _ _ _ _ _ _ _) as [o|] eqn:Ho; simpl in *; [|done].
    destruct (openingsFrom _ _ _ _ _ _ ADL) as [os'|] eqn:Hos'; simpl in *;
      [|done].
    simplify_eq.
    destruct (argumentOpening_plain _ _ _ _ _ _ _ Ho Hd) as (arg & _ & ->).
    destruct (IH _ _ Hos' Hno) as [Hi Ht].
    by rewrite !bind_cons, Hi, Ht.
Qed.

(** X10.  The thunk calls the twin with exactly one argument per argument
    descriptor; for a descriptor that is not opened, one whose index is not
    both in the index-to-parameter map and in the descriptor map, it passes
    on the thunk's own argument at the index of the descriptor; and when no
    descriptor is opened the thunk is nothing but the reference to the twin,
    the call and the terminator. *)
Theorem thunk_passes_one_argument_per_descriptor
    F NewF ArgMap EAD ADL Thunk :
  populateThunkBody E F NewF ArgMap EAD ADL = Some Thunk ->
  thunkForwardsArguments E F NewF ArgMap EAD ADL Thunk.
Proof.
  intros H.
  apply populateThunkBody_layout in H as (os & SubMap & RV & Hos & _ & Hlay).
  unfold thunkForwardsArguments.
  eexists _, _, _, _, _, _. split; [exact Hlay|].
  split; [by rewrite length_fmap; eapply openingsFrom_length|].
  split.
  - intros k d Hk Hno.
    destruct (openingsFrom_at _ _ _ _ _ _ _ _ _ Hos Hk)
      as (o & os1 & os2 & -> & Hlen & _ & Ho & _).
    destruct (argumentOpening_plain _ _ _ _ _ _ _ Ho Hno) as (arg & Harg & ->).
    rewrite thunkArguments_lookup in Harg.
    destruct (ADL !! Index d) as [d'|]; simplify_eq/=.
    exists d'. split; [done|].
    rewrite fmap_app, lookup_app_r, length_fmap, Nat.sub_diag
      by (rewrite length_fmap; lia).
    done.
  - intros Hno.
    destruct (openingsFrom_plain _ _ _ _ _ _ _ Hos Hno) as [-> ->]. done.
Qed.


Lemma argumentOpening_tempKind F ArgMap EAD args nI d o :
  argumentOpening E F ArgMap EAD args nI d = Some o ->
  Forall (tempKind EAD args) (oTemps o).
Proof.
  unfold argumentOpening. intros H.
  destruct (ArgMap !! Index d) as [GP|];
    [destruct (findDescriptor (Index d) EAD) as [ETAD|] eqn:HETAD|].
  2,3: destruct (args !! Index d); simplify_eq/=; done.
  destruct (args !! Index d) as [Orig|] eqn:HOrig; simpl in H; [|done].
  destruct (getType Orig) as [ty|]; simpl in H; [|done].
  destruct (getPreferredExistentialRepresentation E _); try done.
  - destruct (isConsumed ETAD) eqn:Hc; simplify_eq/=; [|done].
    repeat constructor. unfold tempKind. simpl.
    assert (exists Idx ETAD0, args !! Idx = Some Orig
              ∧ findDescriptor Idx EAD = Some ETAD0
              ∧ isConsumed ETAD0 = true) as Hex by (by exists (Index d), ETAD).
    repeat case_match; done.
  - unfold referenceToOpen in H.
    destruct (isObject ty), (copiesBeforeOpening F ETAD); simplify_eq/=;
      repeat constructor; done.
Qed.

Lemma openingsFrom_tempKind F ArgMap EAD args ADL nI os :
  openingsFrom E F ArgMap EAD args nI ADL = Some os ->
  Forall (tempKind EAD args) (os ≫= oTemps).
Proof.
  revert nI os. induction ADL as [|d ADL IH]; intros nI os H; simpl in *.
  - by simplify_eq.
  - destruct (argumentOpening _ _ _ _ _ _ _) as [o|] eqn:Ho; simpl in *; [|done].
    destruct (openingsFrom _ _ _ _ _ _ ADL) as [os'|] eqn:Hos'; simpl in *;
      [|done].
    simplify_eq. rewrite bind_cons. apply Forall_app. split.
    + by eapply argumentOpening_tempKind.
    + by eapply IH.
Qed.

Lemma elem_of_tempCleanups_destroy (l : list Temp) v :
  DestroyOperation v ∈ l ≫= tempCleanup
  <-> exists T, T ∈ l ∧ DestroyValue T = Some v.
Proof.
  rewrite list_elem_of_bind. unfold tempCleanup. split.
  - intros (T & Hin & HT). exists T. split; [done|].
    destruct (DestroyValue T), (DeallocStackEntry T); simpl in Hin;
      rewrite ?elem_of_cons, ?elem_of_nil in Hin;
      intuition (simplify_eq; done).
  - intros (T & HT & Hv). exists T. split; [|done]. rewrite Hv.
    apply elem_of_app. left. by apply list_elem_of_singleton.
Qed.

Lemma elem_of_tempCleanups_dealloc (l : list Temp) a :
  DeallocStackInst a ∈ l ≫= tempCleanup
  <-> exists T, T ∈ l ∧ DeallocStackEntry T = Some a.
Proof.
  rewrite list_elem_of_bind. unfold tempCleanup. split.
  - intros (T & Hin & HT). exists T. split; [done|].
    destruct (DestroyValue T), (DeallocStackEntry T); simpl in Hin;
      rewrite ?elem_of_cons, ?elem_of_nil in Hin;
      intuition (simplify_eq; done).
  - intros (T & HT & Hv). exists T. split; [|done]. rewrite Hv.
    apply elem_of_app. right. by apply list_elem_of_singleton.
Qed.

(** The thunk, seen from one descriptor: its opening sits between what the
    descriptors before it added and what the descriptors after it added, and
    its temporaries are cleaned up between theirs, the other way round. *)
Lemma populateThunkBody_at F NewF ArgMap EAD ADL Thunk k d :
  populateThunkBody E F NewF ArgMap EAD ADL = Some Thunk ->
  ADL !! k = Some d ->
  exists o iB iA tB tA SubMap args ReturnValue,
    thunkLayout E NewF Thunk (iB ++ oInsts o ++ iA) SubMap args
      ((reverse tA ≫= tempCleanup) ++ (reverse (oTemps o) ≫= tempCleanup)
         ++ (reverse tB ≫= tempCleanup))
      ReturnValue (Some (thunkTerminator E NewF ReturnValue))
    ∧ argumentOpening E F ArgMap EAD (thunkArguments E F ADL)
        (length iB + 1) d = Some o
    ∧ args !! k = Some (oApplyArg o)
    ∧ Forall (tempKind EAD (thunkArguments E F ADL)) (tB ++ oTemps o ++ tA).
Proof.
  intros H Hk.
  apply populateThunkBody_layout in H as (os & SubMap & RV & Hos & _ & Hlay).
  pose proof (openingsFrom_tempKind _ _ _ _ _ _ _ Hos) as Hkind.
  destruct (openingsFrom_at _ _ _ _ _ _ _ _ _ Hos Hk)
    as (o & os1 & os2 & -> & Hlen & _ & Ho & _).
  exists o, (os1 ≫= oInsts), (os2 ≫= oInsts), (os1 ≫= oTemps),
    (os2 ≫= oTemps), SubMap, (oApplyArg <$> (os1 ++ o :: os2)), RV.
  rewrite !bind_app, !bind_cons in Hlay.
  rewrite bind_app, bind_cons in Hkind.
  rewrite !reverse_app, !bind_app, <- !app_assoc in Hlay.
  split; [exact Hlay|].
  split; [by rewrite Nat.add_comm|].
  split; [|done].
  rewrite fmap_app, lookup_app_r, length_fmap, Hlen, Nat.sub_diag
    by (rewrite length_fmap; lia).
  done.
Qed.


Lemma thunk_argument_not_destroyed F EAD ADL temps d d' ETAD :
  Forall (tempKind EAD (thunkArguments E F ADL)) temps ->
  findDescriptor (Index d) EAD = Some ETAD ->
  isConsumed ETAD = false ->
  DestroyOperation (FunctionArgument (thunkArgumentFor E F (Index d) d'))
    ∉ reverse temps ≫= tempCleanup.
Proof.
  intros Hkind HETAD Hc (T & HT & Hv)%elem_of_tempCleanups_destroy.
  rewrite elem_of_reverse in HT.
  apply (proj1 (Forall_forall _ _) Hkind) in HT.
  unfold tempKind in HT. rewrite Hv in HT.
  destruct HT as (Idx & ETAD0 & Harg & HETAD0 & Hc0).
  rewrite thunkArguments_lookup in Harg.
  destruct (ADL !! Idx) as [d0|]; simplify_eq/=.
  congruence.
Qed.

Lemma opened_reference_not_destroyed F EAD ADL temps ref ty :
  Forall (tempKind EAD (thunkArguments E F ADL)) temps ->
  (forall v, ref ≠ CopyValueOperation v) ->
  DestroyOperation (OpenExistentialRefInst ref ty)
    ∉ reverse temps ≫= tempCleanup.
Proof.
  intros Hkind Hne (T & HT & Hv)%elem_of_tempCleanups_destroy.
  rewrite elem_of_reverse in HT.
  apply (proj1 (Forall_forall _ _) Hkind) in HT.
  unfold tempKind in HT. rewrite Hv in HT.
  assert (exists Idx ETAD,
            thunkArguments E F ADL !! Idx = Some (OpenExistentialRefInst ref ty)
            ∧ findDescriptor Idx EAD = Some ETAD ∧ isConsumed ETAD = true)
    as (Idx & ETAD0 & Harg & _).
  { destruct ref; try done. by destruct (Hne ref). }
  rewrite thunkArguments_lookup in Harg.
  by destruct (ADL !! Idx).
Qed.

(** X11.  For an opened argument of opaque representation the thunk opens
    its own argument at the index of the descriptor, with the access kind the
    descriptor map records.  If the argument was consumed, the thunk copies
    the opened value, without taking it, into a fresh stack slot, passes the
    slot to the twin, and after the call destroys the original argument and
    then deallocates the slot.  If it was not consumed, the thunk passes the
    opened address itself and never destroys the original argument. *)
Theorem thunk_copies_consumed_opaque_argument
    F NewF ArgMap EAD ADL Thunk k d ETAD :
  populateThunkBody E F NewF ArgMap EAD ADL = Some Thunk ->
  ADL !! k = Some d ->
  is_Some (ArgMap !! Index d) ->
  findDescriptor (Index d) EAD = Some ETAD ->
  getPreferredExistentialRepresentation E (argType (Arg d)) = Repr_Opaque ->
  opaqueArgumentOpened E F NewF ADL Thunk k d ETAD.
Proof.
  intros H Hk [GP HGP] HETAD Hrepr.
  destruct (populateThunkBody_at _ _ _ _ _ _ _ _ H Hk)
    as (o & iB & iA & tB & tA & SubMap & args & RV & Hlay & Ho & Harg & Hkind).
  unfold argumentOpening in Ho.
  rewrite HGP, HETAD, thunkArguments_lookup in Ho.
  destruct (ADL !! Index d) as [d'|] eqn:Hd'; simpl in Ho; [|done].
  rewrite Hrepr in Ho.
  apply Forall_app in Hkind as [HkB Hkind].
  apply Forall_app in Hkind as [_ HkA].
  unfold opaqueArgumentOpened.
  exists d'. eexists _, SubMap, args, _, RV, _, iB, iA. cbv zeta.
  replace (length iB + 2) with (S (length iB + 1)) by lia.
  split; [exact Hlay|]. split; [done|].
  destruct (isConsumed ETAD) eqn:Hc; injection Ho as <-; simpl.
  - split; [done|]. split; [done|]. eexists _, _. reflexivity.
  - split; [done|]. split; [done|].
    rewrite !elem_of_app, ?elem_of_cons, ?elem_of_nil. intros Hin.
    split_or;
      first [by eapply thunk_argument_not_destroyed in Hin|done].
Qed.

(** X12.  For an opened argument of class representation that is an object,
    the thunk opens the argument itself, or a copy of it exactly when the
    thunk has ownership and the argument was not consumed; it passes the
    opened reference to the twin and destroys it after the call exactly when
    it was opened from a copy.  For one at an address, the thunk loads it, by
    a copy under the same condition and by a take otherwise, opens the loaded
    reference, stores it into a fresh stack slot, passes the slot to the twin
    and deallocates the slot after the call, without destroying the opened
    reference. *)
Theorem thunk_opens_class_argument F NewF ArgMap EAD ADL Thunk k d ETAD :
  populateThunkBody E F NewF ArgMap EAD ADL = Some Thunk ->
  ADL !! k = Some d ->
  is_Some (ArgMap !! Index d) ->
  findDescriptor (Index d) EAD = Some ETAD ->
  getPreferredExistentialRepresentation E (argType (Arg d)) = Repr_Class ->
  classArgumentOpened E F NewF ADL Thunk k d ETAD.
Proof.
  intros H Hk [GP HGP] HETAD Hrepr.
  destruct (populateThunkBody_at _ _ _ _ _ _ _ _ H Hk)
    as (o & iB & iA & tB & tA & SubMap & args & RV & Hlay & Ho & Harg & Hkind).
  unfold argumentOpening in Ho.
  rewrite HGP, HETAD, thunkArguments_lookup in Ho.
  destruct (ADL !! Index d) as [d'|] eqn:Hd'; simpl in Ho; [|done].
  rewrite Hrepr in Ho.
  apply Forall_app in Hkind as [HkB Hkind].
  apply Forall_app in Hkind as [_ HkA].
  unfold classArgumentOpened.
  exists d'. eexists _, SubMap, args, _, RV, _, iB, iA. cbv zeta.
  replace (length iB + 3) with (length iB + 1 + 2) by lia.
  split; [exact Hlay|]. split; [done|].
  unfold referenceToOpen in *.
  destruct (isObject (argType (Arg d'))) eqn:Hobj; injection Ho as <-; simpl.
  - split; [by rewrite <- !app_assoc|]. split; [done|].
    destruct (copiesBeforeOpening F ETAD) eqn:Hcopy; simpl.
    + split; [done|]. intros _. rewrite !elem_of_app, ?elem_of_cons. auto.
    + split; [|done].
      rewrite !elem_of_app, ?elem_of_cons, ?elem_of_nil. intros Hin.
      split_or;
        first [by eapply opened_reference_not_destroyed in Hin|done].
  - split; [done|]. split; [done|]. split.
    + rewrite !elem_of_app, ?elem_of_cons. auto.
    + rewrite !elem_of_app, ?elem_of_cons, ?elem_of_nil. intros Hin.
      split_or;
        first [by eapply opened_reference_not_destroyed in Hin|done].
Qed.


(** ** The stack slots of the thunk *)

Lemma argumentOpening_allocs F ArgMap EAD args nI d o :
  argumentOpening E F ArgMap EAD args nI d = Some o ->
  stackAllocations (oInsts o) = omap DeallocStackEntry (oTemps o)
  ∧ Forall (slotWithin nI (nI + length (oInsts o))) (stackAllocations (oInsts o))
  ∧ NoDup (stackAllocations (oInsts o)).
Proof.
  unfold argumentOpening. intros H.
  destruct (ArgMap !! Index d) as [GP|];
    [destruct (findDescriptor (Index d) EAD) as [ETAD|]|].
  2,3: destruct (args !! Index d); simplify_eq/=;
         (split_and!; [done|done|apply NoDup_nil_2]).
  destruct (args !! Index d) as [Orig|]; simpl in H; [|done].
  destruct (getType Orig) as [ty|]; simpl in H; [|done].
  destruct (getPreferredExistentialRepresentation E _); try done.
  - destruct (isConsumed ETAD); simplify_eq/=;
      (split_and!;
         [done|
          |first [apply NoDup_nil_2|apply NoDup_singleton]]);
      repeat constructor; simpl; lia.
  - unfold referenceToOpen in H.
    destruct (isObject ty), (copiesBeforeOpening F ETAD); simplify_eq/=;
      (split_and!;
         [done|
          |first [apply NoDup_nil_2|apply NoDup_singleton]]);
      repeat constructor; simpl; lia.
Qed.

Lemma openingsFrom_allocs F ArgMap EAD args ADL nI os :
  openingsFrom E F ArgMap EAD args nI ADL = Some os ->
  stackAllocations (os ≫= oInsts) = omap DeallocStackEntry (os ≫= oTemps)
  ∧ Forall (slotWithin nI (nI + length (os ≫= oInsts)))
      (stackAllocations (os ≫= oInsts))
  ∧ NoDup (stackAllocations (os ≫= oInsts)).
Proof.
  revert nI os. induction ADL as [|d ADL IH]; intros nI os H; simpl in *.
  - simplify_eq. split_and!; [done|done|apply NoDup_nil_2].
  - destruct (argumentOpening _ _ _ _ _ _ _) as [o|] eqn:Ho; simpl in *; [|done].
    destruct (openingsFrom _ _ _ _ _ _ ADL) as [os'|] eqn:Hos'; simpl in *;
      [|done].
    simplify_eq. apply IH in Hos' as (H1 & H2 & H3).
    apply argumentOpening_allocs in Ho as (P1 & P2 & P3).
    rewrite !bind_cons, length_app, stackAllocations_app, omap_app.
    split_and!.
    + by rewrite P1, H1.
    + apply Forall_app. split.
      * eapply Forall_impl; [exact P2|]. intros v Hv.
        eapply slotWithin_mono; [exact Hv|lia..].
      * eapply Forall_impl; [exact H2|]. intros v Hv.
        eapply slotWithin_mono; [exact Hv|lia..].
    + apply NoDup_app. split_and!; [done| |done].
      intros v Hv Hv'.
      apply (proj1 (Forall_forall _ _) P2) in Hv.
      apply (proj1 (Forall_forall _ _) H2) in Hv'.
      destruct v; simpl in *; try done. lia.
Qed.

Lemma stackDeallocations_tempCleanups (l : list Temp) :
  stackDeallocations (l ≫= tempCleanup) = omap DeallocStackEntry l.
Proof.
  induction l as [|T l IH]; [done|].
  rewrite bind_cons. unfold stackDeallocations in *. rewrite omap_app, IH.
  unfold tempCleanup. simpl.
  by destruct (DestroyValue T), (DeallocStackEntry T).
Qed.

Lemma omap_reverse {A B} (f : A -> option B) (l : list A) :
  omap f (reverse l) = reverse (omap f l).
Proof.
  induction l as [|x l IH]; [done|].
  rewrite reverse_cons, omap_app, IH. simpl.
  destruct (f x); simpl; [by rewrite reverse_cons|by rewrite app_nil_r].
Qed.

(** X13.  The thunk keeps the stack discipline on the path that returns: no
    stack slot is allocated twice before the call, and the instructions that
    follow the call, in the normal block when the call is a [try_apply],
    deallocate exactly the slots allocated before it, in the reverse of the
    order of their allocation; the error block of a [try_apply] holds no
    instruction, so it deallocates none of them; and the block that follows
    the call ends in [unreachable] when the twin never returns and in a return
    of the value of the call otherwise. *)
Theorem thunk_deallocates_in_reverse_of_allocation
    F NewF ArgMap EAD ADL Thunk :
  populateThunkBody E F NewF ArgMap EAD ADL = Some Thunk ->
  thunkStackBalanced E NewF Thunk.
Proof.
  intros H.
  apply populateThunkBody_layout in H as (os & SubMap & RV & Hos & _ & Hlay).
  destruct (openingsFrom_allocs _ _ _ _ _ _ _ Hos) as (Ha & _ & Hnd).
  unfold thunkStackBalanced. eexists _, _, _, _, _.
  split; [exact Hlay|]. split; [done|].
  by rewrite stackDeallocations_tempCleanups, omap_reverse, Ha.
Qed.


(** ** The substitutions of the call *)

Lemma openedTypes_lookup os m GP ty :
  openedTypes os m !! GP = Some ty ->
  m !! GP = Some ty ∨ exists o, o ∈ os ∧ oOpened o = Some (GP, ty).
Proof.
  revert m. induction os as [|o os IH]; intros m H; simpl in *; [by left|].
  apply IH in H as [H|(o' & Hin & Ho')].
  2:{ right. exists o'. split; [by apply elem_of_cons; right|done]. }
  destruct (oOpened o) as [[GP' ty']|] eqn:Ho; [|by left].
  unfold denseInsert in H. destruct (m !! GP') eqn:Hm; [by left|].
  destruct (decide (GP' = GP)) as [->|Hne].
  - rewrite lookup_insert_eq in H. simplify_eq. right. exists o.
    split; [by apply elem_of_cons; left|done].
  - rewrite lookup_insert_ne in H by done. by left.
Qed.

Lemma argumentOpening_opened F ArgMap EAD args nI d o GP ty :
  argumentOpening E F ArgMap EAD args nI d = Some o ->
  oOpened o = Some (GP, ty) ->
  opened ArgMap EAD d ∧ ArgMap !! Index d = Some GP ∧ ty = openedTypeFor d.
Proof.
  unfold argumentOpening, opened. intros H Ho.
  destruct (ArgMap !! Index d) as [GP'|];
    [destruct (findDescriptor (Index d) EAD) as [ETAD|]|].
  2,3: destruct (args !! Index d); by simplify_eq/=.
  destruct (args !! Index d) as [Orig|]; simpl in H; [|done].
  destruct (getType Orig) as [ty'|]; simpl in H; [|done].
  destruct (getPreferredExistentialRepresentation E _); try done.
  - destruct (isConsumed ETAD); simplify_eq/=; by split_and!.
  - destruct (isObject ty'); simplify_eq/=; by split_and!.
Qed.

Lemma openingsFrom_opened F ArgMap EAD args ADL nI os o GP ty :
  openingsFrom E F ArgMap EAD args nI ADL = Some os ->
  o ∈ os ->
  oOpened o = Some (GP, ty) ->
  exists d, d ∈ ADL ∧ opened ArgMap EAD d
    ∧ ArgMap !! Index d = Some GP ∧ ty = openedTypeFor d.
Proof.
  revert nI os. induction ADL as [|d ADL IH]; intros nI os H Hin Ho;
    simpl in *.
  - simplify_eq. by apply elem_of_nil in Hin.
  - destruct (argumentOpening _ _ _ _ _ _ _) as [o1|] eqn:Ho1; simpl in *;
      [|done].
    destruct (openingsFrom _ _ _ _ _ _ ADL) as [os'|] eqn:Hos'; simpl in *;
      [|done].
    simplify_eq. apply elem_of_cons in Hin as [->|Hin].
    + exists d. split; [by apply elem_of_cons; left|].
      by eapply argumentOpening_opened.
    + destruct (IH _ _ Hos' Hin Ho) as (d' & Hd' & Hrest).
      exists d'. split; [by apply elem_of_cons; right|done].
Qed.

(** X14.  The substitution map of the call has one entry per generic
    parameter of the twin's signature, in the order of the signature.  A
    parameter whose depth is below the next depth of the original signature
    is replaced by what the forwarding substitutions of the original function
    give for it; every other parameter is replaced by the opened archetype of
    an argument the thunk opened, one whose index the index-to-parameter map
    sends to that very parameter. *)
Theorem thunk_substitutes_opened_archetypes F NewF ArgMap EAD ADL Thunk :
  populateThunkBody E F NewF ArgMap EAD ADL = Some Thunk ->
  thunkSubstitutions E F NewF ArgMap EAD ADL Thunk.
Proof.
  intros H.
  apply populateThunkBody_layout in H as (os & SubMap & RV & Hos & Hsub & Hlay).
  unfold thunkSubstitutions. cbv zeta.
  eexists _, SubMap, _, _, _, _. split; [exact Hlay|].
  apply mapM_Some in Hsub.
  split.
  - clear Hlay. induction Hsub as [|GP r params SubMap' Hr _ IH]; [done|].
    rewrite fmap_cons, IH. f_equal.
    unfold thunkReplacement in Hr.
    destruct (decide (gpDepth GP < _)); [by simplify_eq|].
    destruct (_ !! GP); by simplify_eq/=.
  - intros GP ty Hin.
    apply list_elem_of_lookup in Hin as (i & Hi).
    destruct (Forall2_lookup_r _ _ _ _ _ Hsub Hi) as (GP' & _ & Hr).
    unfold thunkReplacement in Hr.
    destruct (decide (gpDepth GP' < _)) as [Hlt|Hge].
    + simplify_eq. by destruct (decide (gpDepth GP < _)).
    + destruct (openedTypes os ∅ !! GP') as [ty'|] eqn:Hty; simplify_eq/=.
      destruct (decide (gpDepth GP < _)); [done|].
      apply openedTypes_lookup in Hty as [Hty|(o & Ho & Hopened)];
        [by rewrite lookup_empty in Hty|].
      by eapply openingsFrom_opened.
Qed.

(** ** When the thunk builder gets through *)

Lemma argumentOpening_forwardable F ArgMap EAD args nI d :
  is_Some (argumentOpening E F ArgMap EAD args nI d) ->
  forwardable E ArgMap EAD (length args) d.
Proof.
  unfold argumentOpening, forwardable, opened, handledRepresentation.
  intros [o H].
  destruct (ArgMap !! Index d) as [GP|];
    [destruct (findDescriptor (Index d) EAD) as [ETAD|]|].
  2,3: destruct (args !! Index d) eqn:Harg; simplify_eq/=;
         (split; [by eapply lookup_lt_Some|]); by intros [[? ?] [? ?]].
  destruct (args !! Index d) as [Orig|] eqn:Harg; simpl in H; [|done].
  split; [by eapply lookup_lt_Some|]. intros _.
  destruct (getType Orig) as [ty'|]; simpl in H; [|done].
  destruct (getPreferredExistentialRepresentation E _); try done; auto.
Qed.

Lemma openingsFrom_forwardable F ArgMap EAD args ADL nI :
  is_Some (openingsFrom E F ArgMap EAD args nI ADL) ->
  Forall (forwardable E ArgMap EAD (length args)) ADL.
Proof.
  revert nI. induction ADL as [|d ADL IH]; intros nI [os H]; simpl in *;
    [done|].
  destruct (argumentOpening _ _ _ _ _ _ _) as [o|] eqn:Ho; simpl in *; [|done].
  destruct (openingsFrom _ _ _ _ _ _ ADL) as [os'|] eqn:Hos'; simpl in *;
    [|done].
  constructor.
  - eapply argumentOpening_forwardable. by rewrite Ho.
  - eapply IH. by rewrite Hos'.
Qed.

(** X15.  The thunk builder gets through if and only if every descriptor
    can be forwarded, its index being the position of an argument of the
    thunk and an opened argument having the opaque or the class
    representation, and every generic parameter of the twin's signature can
    be replaced, being one of the original function or the parameter of an
    opened argument; every other input stops at an assertion or at the
    unhandled representation. *)
Theorem thunk_builder_returns_iff_forwardable F NewF ArgMap EAD ADL :
  is_Some (populateThunkBody E F NewF ArgMap EAD ADL)
  <-> Forall (forwardable E ArgMap EAD (length ADL)) ADL
      ∧ Forall (replaceable F ArgMap EAD ADL)
          (getGenericParams
             (getInvocationGenericSignature (getLoweredFunctionType NewF))).
Proof.
  split; [|by intros [? ?]; apply populateThunkBody_is_Some].
  intros [Thunk H].
  apply populateThunkBody_layout in H as (os & SubMap & RV & Hos & Hsub & _).
  split.
  - replace (length ADL) with (length (thunkArguments E F ADL))
      by (unfold thunkArguments; apply length_imap).
    eapply openingsFrom_forwardable. by rewrite Hos.
  - apply mapM_Some in Hsub. apply Forall_forall. intros GP Hin.
    apply list_elem_of_lookup in Hin as (i & Hi).
    destruct (Forall2_lookup_l _ _ _ _ _ Hsub Hi) as (r & _ & Hr).
    unfold thunkReplacement in Hr. unfold replaceable.
    destruct (decide (gpDepth GP < _)) as [Hlt|Hge]; [by left|]. right.
    destruct (openedTypes os ∅ !! GP) as [ty|] eqn:Hty; simplify_eq/=.
    apply openedTypes_lookup in Hty as [Hty|(o & Ho & Hopened)];
      [by rewrite lookup_empty in Hty|].
    destruct (openingsFrom_opened _ _ _ _ _ _ _ _ _ _ Hos Ho Hopened)
      as (d & Hd & [_ Hdesc] & HGP & _).
    by exists d.
Qed.


(** ** The driver *)

Lemma cloneAndPopulateFunction_attributes OrigF NewF ArgMap EAD ADL Twin :
  cloneAndPopulateFunction E OrigF NewF ArgMap EAD ADL = Some Twin ->
  exists blocks, Twin = setBlocks NewF blocks.
Proof.
  unfold cloneAndPopulateFunction. intros H.
  destruct (cloneArguments _ _ _ _ _) as [st|]; simplify_eq/=.
  destruct (mapM _ _) as [blocks|]; simplify_eq/=. by exists blocks.
Qed.

(** X16.  A run that finds no function under the computed name creates the
    twin under that name with the computed type, the generic environment of
    the new signature, the specialized linkage and the attributes, semantics
    attributes and ownership flag of the original function as they were
    before it became a thunk; it stores the twin under its name and the
    thunk, marked as signature-optimized thunk and always-inline, under the
    name of the original function, and leaves every other function of the
    module untouched. *)
Theorem fresh_run_creates_twin_with_attributes_of_original
    M F Mangler EAD ADL r :
  M !! createExistentialSpecializedFunctionName E Mangler EAD = None ->
  createExistentialSpecializedFunction E M F Mangler EAD ADL = Some r ->
  twinCreated E M F Mangler EAD ADL r.
Proof.
  unfold createExistentialSpecializedFunction, twinCreated.
  generalize (createExistentialSpecializedFunctionName E Mangler EAD) as Name.
  intros Name Hfresh H. cbv zeta.
  destruct (createExistentialSpecializedFunctionType E F EAD)
    as [[NewFTy ArgMap]|]; simpl in *; [|done].
  rewrite Hfresh in H.
  destruct (cloneAndPopulateFunction _ _ _ _ _ _) as [NewF|] eqn:Hclone;
    simpl in H; [|done].
  destruct (populateThunkBody E F NewF ArgMap EAD ADL) as [Thunk|] eqn:Ht;
    simpl in H; [|done].
  injection H as <-. simpl.
  apply cloneAndPopulateFunction_attributes in Hclone as [blocks ->].
  pose proof (populateThunkBody_signature _ _ _ _ _ _ Ht) as (_ & Hth & Hin & _).
  simpl. split_and!; try done.
  - by destruct (hasOwnership F).
  - by exists Thunk.
  - intros n Hn HnF. by rewrite !lookup_insert_ne.
Qed.


(** X18.  The name and the type of the twin, and with them the lookup of
    an already existing twin, depend on the descriptor map only through its
    keys in iteration order: the access kind and the consumed flag recorded
    for an argument take no part in either. *)
Theorem twin_name_and_type_ignore_descriptor_values F Mangler EAD1 EAD2 :
  fst <$> EAD1 = fst <$> EAD2 ->
  createExistentialSpecializedFunctionName E Mangler EAD1
    = createExistentialSpecializedFunctionName E Mangler EAD2
  ∧ createExistentialSpecializedFunctionType E F EAD1
    = createExistentialSpecializedFunctionType E F EAD2.
Proof.
  intros Hkeys. split.
  - unfold createExistentialSpecializedFunctionName.
    assert (forall (EAD : ExistentialArgDescriptorMap) m,
              foldl (fun m IdxIt =>
                       setArgumentExistentialToGeneric E (fst IdxIt) m) m EAD
              = foldl (fun m Idx => setArgumentExistentialToGeneric E Idx m)
                  m (fst <$> EAD)) as Hfold.
    { induction EAD as [|x EAD IH]; intros m; [done|]. simpl. apply IH. }
    by rewrite !Hfold, Hkeys.
  - unfold createExistentialSpecializedFunctionType,
      convertExistentialArgTypesToGenericArgTypes.
    by rewrite Hkeys.
Qed.

End Properties.

(** * The pass on concrete functions *)

Lemma thunk_preserves_signature_witness :
  thunkKeepsSignature Demo.F Demo.FArgs Demo.FThunk.
Proof.
  apply (thunk_preserves_signature Demo.E Demo.F Demo.FTwin Demo.FArgMap
           Demo.FExistentials Demo.FArgs Demo.FThunk).
  vm_compute. reflexivity.
Defined.

Lemma thunk_forwards_errors_witness :
  thunkCallShape Demo.E (Demo.GNewF true) Demo.GThunk.
Proof.
  apply (thunk_forwards_errors Demo.E (Demo.G true) (Demo.GNewF true)
           Demo.FArgMap Demo.GExistentials [Demo.GArgDesc] Demo.GThunk).
  vm_compute. reflexivity.
Defined.

Lemma opaque_argument_taken_iff_consumed_witness :
  opaqueArgumentBoxed Demo.E Demo.FExistentials Demo.FClonerState 0
    (mkArgumentDescriptor Demo.FArg Arg_Indirect_In_Guaranteed 0 (Some "x")).
Proof.
  apply (opaque_argument_taken_iff_consumed Demo.E Demo.FNewF Demo.FArgMap
           Demo.FExistentials Demo.FArgs).
  - vm_compute. reflexivity.
  - reflexivity.
  - exists (mkGP 0 0). vm_compute. reflexivity.
  - reflexivity.
Defined.

Lemma class_argument_copied_iff_unowned_in_ossa_witness :
  classArgumentBoxed Demo.E (takesOwningCopy (Demo.GNewF true))
    (Demo.GClonerState true) 0 Demo.GArgDesc.
Proof.
  apply (class_argument_copied_iff_unowned_in_ossa Demo.E (Demo.GNewF true)
           Demo.FArgMap Demo.GExistentials [Demo.GArgDesc]).
  - vm_compute. reflexivity.
  - reflexivity.
  - exists (mkGP 0 0). vm_compute. reflexivity.
  - reflexivity.
Defined.

(** C8 as it was stated fails without ownership: the unowned class argument
    of [G] is boxed as it is, no copy is made and nothing is registered. *)
Lemma unowned_argument_not_copied_without_ownership :
  cloneArguments Demo.E (Demo.GNewF false) Demo.FArgMap Demo.GExistentials
    [Demo.GArgDesc] = Some (Demo.GClonerState false)
  ∧ ¬ classArgumentBoxed Demo.E (fun a => isUnowned (argOwnershipKind a))
        (Demo.GClonerState false) 0 Demo.GArgDesc.
Proof.
  split; [vm_compute; reflexivity|].
  intros (NewArg & Hargs & Hrest).
  vm_compute in Hargs. injection Hargs as <-.
  simpl in Hrest. destruct Hrest as [(iB & iA & Hinsts) _].
  apply (f_equal length) in Hinsts. revert Hinsts.
  rewrite length_app. cbn [length].
  change (length (bbInsts (ClonedEntryBB (Demo.GClonerState false)))) with 1.
  lia.
Qed.

Lemma exits_destroy_in_order_then_dealloc_in_reverse_witness :
  exitsCleaned Demo.E (fun l => l) Demo.K Demo.KNewF Demo.KArgMap
    Demo.KExistentials Demo.KArgs Demo.KTwin.
Proof.
  apply (exits_destroy_in_order_then_dealloc_in_reverse Demo.E).
  vm_compute. reflexivity.
Defined.

(** C2 as it was stated fails on [K]: its twin destroys the slot of [x]
    before the slot of [y], the order in which they were registered. *)
Lemma cleanup_values_destroyed_in_registration_order :
  cloneAndPopulateFunction Demo.E Demo.K Demo.KNewF Demo.KArgMap
    Demo.KExistentials Demo.KArgs = Some Demo.KTwin
  ∧ ¬ exitsCleaned Demo.E reverse Demo.K Demo.KNewF Demo.KArgMap
        Demo.KExistentials Demo.KArgs Demo.KTwin.
Proof.
  split; [vm_compute; reflexivity|].
  intros (st & Hst & Hblocks).
  vm_compute in Hst. injection Hst as <-.
  vm_compute in Hblocks.
  inversion Hblocks as [|bb bb' l l' (_ & _ & Hinsts) _]; subst.
  discriminate Hinsts.
Qed.

Lemma generic_parameters_follow_map_iteration_witness :
  exists st,
    convertExistentialArgTypesToGenericArgTypes Demo.E Demo.Q Demo.QExistentials
      = Some st
    ∧ genericParametersSynthesized Demo.E Demo.Q Demo.QExistentials st.
Proof.
  apply (generic_parameters_follow_map_iteration Demo.E Demo.Q Demo.QExistentials).
  - apply (bool_decide_unpack _). vm_compute. exact I.
  - repeat constructor; eexists; (split; [reflexivity|]); reflexivity.
Defined.

(** C5 as it was stated fails on [Q]: the argument at position 4 gets the
    parameter of index 0 and the argument at position 1 the parameter of
    index 1. *)
Lemma generic_parameter_indices_not_ascending :
  convertExistentialArgTypesToGenericArgTypes Demo.E Demo.Q Demo.QExistentials
    = Some Demo.QConverted
  ∧ ¬ genericParametersAscending Demo.E Demo.Q Demo.QExistentials Demo.QConverted.
Proof.
  split; [vm_compute; reflexivity|].
  intros [_ Hasc].
  specialize (Hasc 1 4 (mkGP 0 1) (mkGP 0 0)).
  assert (1 < 0) as Hlt; [|lia].
  apply Hasc; [vm_compute; reflexivity..|lia].
Qed.

Lemma borrowed_opaque_argument_scenario_witness :
  exists NewFTy,
    createExistentialSpecializedFunctionType Demo.E Demo.F Demo.FExistentials
      = Some (NewFTy, Demo.FArgMap)
    ∧ twinTypeOfOneParameter Demo.E Demo.FTy
        (mkSILParameterInfo Demo.anyP Indirect_In_Guaranteed) (mkGP 0 0) NewFTy
    ∧ forall NewF Thunk,
        getLoweredFunctionType NewF = NewFTy ->
        getErrorResult Demo.FTy = None ->
        isNoReturnFunction Demo.E NewFTy = false ->
        populateThunkBody Demo.E Demo.F NewF Demo.FArgMap Demo.FExistentials
          Demo.FArgs = Some Thunk ->
        thunkKeepsSignature Demo.F Demo.FArgs Thunk
        ∧ thunkOpensAppliesReturns Demo.E Demo.F NewF
            (mkArgumentDescriptor Demo.FArg Arg_Indirect_In_Guaranteed 0 (Some "x"))
            Thunk
        ∧ ¬ deallocatesStackSlotAfterCall Thunk.
Proof.
  exact (borrowed_opaque_argument_scenario Demo.E Demo.F
           (mkArgumentDescriptor Demo.FArg Arg_Indirect_In_Guaranteed 0 (Some "x"))
           (mkSILParameterInfo Demo.anyP Indirect_In_Guaranteed)
           eq_refl eq_refl eq_refl eq_refl).
Defined.

(** C9 as it was stated fails on [F]: the thunk the transform leaves is a
    reference to the twin, the opening of [x], the apply and the return, with
    no deallocation behind the call. *)
Lemma borrowed_thunk_deallocates_nothing :
  createExistentialSpecializedFunction Demo.E Demo.FModule Demo.F Demo.FMangler
    Demo.FExistentials Demo.FArgs = Some Demo.FTransformed
  ∧ resultModule Demo.FTransformed !! "F" = Some Demo.FThunk
  ∧ ¬ deallocatesStackSlotAfterCall Demo.FThunk.
Proof.
  split; [vm_compute; reflexivity|]. split; [vm_compute; reflexivity|].
  apply (thunkOpensAppliesReturns_no_dealloc Demo.E Demo.F Demo.FTwin
           (mkArgumentDescriptor Demo.FArg Arg_Indirect_In_Guaranteed 0 (Some "x"))).
  eexists. vm_compute. reflexivity.
Qed.

Lemma demo_ownership_rules : OwnershipRules Demo.E.
Proof. constructor; intros; simpl; auto. Defined.

Lemma cleanup_values_never_guaranteed_witness :
  Forall (fun v => cleanupKind v ∧ destroyable Demo.E v)
    (CleanupValues (Demo.GClonerState true))
  ∧ (forall bb,
       is_Some (emitCleanupDestroys Demo.E
                  (CleanupValues (Demo.GClonerState true)) bb))
  ∧ is_Some (cloneAndPopulateFunction Demo.E (Demo.G true) (Demo.GNewF true)
               Demo.FArgMap Demo.GExistentials [Demo.GArgDesc]).
Proof.
  apply (cleanup_values_never_guaranteed Demo.E (Demo.G true) (Demo.GNewF true)
           Demo.FArgMap Demo.GExistentials [Demo.GArgDesc]).
  - exact demo_ownership_rules.
  - vm_compute. reflexivity.
Defined.

Lemma second_run_reuses_twin_witness :
  (exists r2,
     createExistentialSpecializedFunction Demo.E (resultModule Demo.FTransformed)
       Demo.F Demo.FMangler Demo.FExistentials Demo.FArgs = Some r2
     ∧ twinReused Demo.E Demo.F Demo.FMangler Demo.FExistentials
         Demo.FTransformed (resultModule Demo.FTransformed) r2)
  ∧ cachedTypeAsserted Demo.E Demo.F Demo.FMangler Demo.FExistentials Demo.FArgs.
Proof.
  apply (second_run_reuses_twin Demo.E Demo.FModule).
  - vm_compute. reflexivity.
  - vm_compute. reflexivity.
  - reflexivity.
Defined.


(** ** The further properties on concrete functions *)

Lemma specialized_type_keeps_shape_witness :
  specializedTypeShape Demo.E Demo.Q Demo.QExistentials Demo.QNewFTy
    Demo.QArgMap.
Proof.
  apply (specialized_type_keeps_shape Demo.E Demo.Q Demo.QExistentials).
  vm_compute. reflexivity.
Defined.

Lemma new_generic_parameters_distinct_witness :
  parametersDistinct Demo.QArgMap.
Proof.
  apply (new_generic_parameters_distinct Demo.E Demo.Q Demo.QExistentials
           Demo.QNewFTy).
  - apply (bool_decide_unpack _). vm_compute. exact I.
  - vm_compute. reflexivity.
Defined.

Lemma cloner_makes_one_argument_per_descriptor_witness :
  entryArgumentsCloned Demo.E Demo.KNewF Demo.KArgMap Demo.KArgs
    (default Demo.KPlainState
       (cloneArguments Demo.E Demo.KNewF Demo.KArgMap Demo.KExistentials
          Demo.KArgs)).
Proof.
  apply (cloner_makes_one_argument_per_descriptor Demo.E Demo.KNewF
           Demo.KArgMap Demo.KExistentials Demo.KArgs).
  vm_compute. reflexivity.
Defined.

Lemma cloner_adds_nothing_without_existentials_witness :
  emptyPrologue Demo.KPlainState
  ∧ cloneAndPopulateFunction Demo.E Demo.K Demo.K ∅ [] Demo.KArgs =
      Some (setBlocks Demo.K
              (cloneFunctionBody Demo.E Demo.K
                 (setBlocks Demo.K [ClonedEntryBB Demo.KPlainState])
                 (ClonedEntryBB Demo.KPlainState)
                 (bbArgs (ClonedEntryBB Demo.KPlainState)))).
Proof.
  apply (cloner_adds_nothing_without_existentials Demo.E Demo.K Demo.K ∅ []
           Demo.KArgs Demo.KPlainState).
  - repeat constructor.
  - vm_compute. reflexivity.
Defined.

Lemma twin_deallocates_in_reverse_of_allocation_witness :
  twinStackBalanced Demo.E Demo.K Demo.KNewF Demo.KArgMap Demo.KExistentials
    Demo.KArgs Demo.KTwin.
Proof.
  apply (twin_deallocates_in_reverse_of_allocation Demo.E).
  vm_compute. reflexivity.
Defined.

Lemma class_argument_at_address_is_spilled_witness :
  classArgumentPassed Demo.E Demo.HNewF Demo.HExistentials Demo.HClonerState 0
    Demo.HArgDesc.
Proof.
  apply (class_argument_at_address_is_spilled Demo.E Demo.HNewF Demo.FArgMap
           Demo.HExistentials [Demo.HArgDesc]).
  - vm_compute. reflexivity.
  - reflexivity.
  - exists (mkGP 0 0). vm_compute. reflexivity.
  - reflexivity.
Defined.

Lemma cloner_asserts_iff_exit_and_guaranteed_cleanup_witness :
  cloneAndPopulateFunction Demo.E Demo.F Demo.FNewF Demo.FArgMap
    Demo.FExistentials Demo.FArgs = None
  <-> Exists (fun bb => isExitingBlock Demo.E bb = true)
        (cloneFunctionBody Demo.E Demo.F
           (setBlocks Demo.FNewF [ClonedEntryBB Demo.FClonerState])
           (ClonedEntryBB Demo.FClonerState) (entryArgs Demo.FClonerState))
      ∧ guaranteedCleanup Demo.E Demo.FClonerState.
Proof.
  apply (cloner_asserts_iff_exit_and_guaranteed_cleanup Demo.E Demo.F
           Demo.FNewF Demo.FArgMap Demo.FExistentials Demo.FArgs
           Demo.FClonerState).
  vm_compute. reflexivity.
Defined.

Lemma thunk_passes_one_argument_per_descriptor_witness :
  thunkForwardsArguments Demo.E Demo.K Demo.KNewF Demo.KArgMap
    Demo.KExistentials Demo.KArgs Demo.KThunk.
Proof.
  apply (thunk_passes_one_argument_per_descriptor Demo.E).
  vm_compute. reflexivity.
Defined.

Lemma thunk_copies_consumed_opaque_argument_witness :
  opaqueArgumentOpened Demo.E Demo.J Demo.JNewF [Demo.JArgDesc] Demo.JThunk 0
    Demo.JArgDesc Demo.JDescriptor.
Proof.
  apply (thunk_copies_consumed_opaque_argument Demo.E Demo.J Demo.JNewF
           Demo.FArgMap Demo.JExistentials).
  - vm_compute. reflexivity.
  - reflexivity.
  - exists (mkGP 0 0). vm_compute. reflexivity.
  - reflexivity.
  - reflexivity.
Defined.

Lemma thunk_opens_class_argument_witness :
  classArgumentOpened Demo.E Demo.H Demo.HNewF [Demo.HArgDesc] Demo.HThunk 0
    Demo.HArgDesc Demo.HDescriptor.
Proof.
  apply (thunk_opens_class_argument Demo.E Demo.H Demo.HNewF Demo.FArgMap
           Demo.HExistentials).
  - vm_compute. reflexivity.
  - reflexivity.
  - exists (mkGP 0 0). vm_compute. reflexivity.
  - reflexivity.
  - reflexivity.
Defined.

Lemma thunk_deallocates_in_reverse_of_allocation_witness :
  thunkStackBalanced Demo.E Demo.HNewF Demo.HThunk.
Proof.
  apply (thunk_deallocates_in_reverse_of_allocation Demo.E Demo.H Demo.HNewF
           Demo.FArgMap Demo.HExistentials [Demo.HArgDesc]).
  vm_compute. reflexivity.
Defined.

Lemma thunk_substitutes_opened_archetypes_witness :
  thunkSubstitutions Demo.E Demo.K Demo.KNewF Demo.KArgMap Demo.KExistentials
    Demo.KArgs Demo.KThunk.
Proof.
  apply (thunk_substitutes_opened_archetypes Demo.E).
  vm_compute. reflexivity.
Defined.

Lemma fresh_run_creates_twin_with_attributes_of_original_witness :
  twinCreated Demo.E Demo.FModule Demo.F Demo.FMangler Demo.FExistentials
    Demo.FArgs Demo.FTransformed.
Proof.
  apply (fresh_run_creates_twin_with_attributes_of_original Demo.E).
  - vm_compute. reflexivity.
  - vm_compute. reflexivity.
Defined.


Lemma twin_name_and_type_ignore_descriptor_values_witness :
  createExistentialSpecializedFunctionName Demo.E Demo.FMangler
    Demo.FExistentials
    = createExistentialSpecializedFunctionName Demo.E Demo.FMangler
        Demo.JExistentials
  ∧ createExistentialSpecializedFunctionType Demo.E Demo.F Demo.FExistentials
    = createExistentialSpecializedFunctionType Demo.E Demo.F Demo.JExistentials.
Proof.
  apply (twin_name_and_type_ignore_descriptor_values Demo.E).
  reflexivity.
Defined.


Lemma synthesizer_returns_iff_keys_valid_witness :
  (is_Some (convertExistentialArgTypesToGenericArgTypes Demo.E Demo.Q
              Demo.QExistentials)
   <-> Forall (validExistentialParameter Demo.E (getLoweredFunctionType Demo.Q))
         (fst <$> Demo.QExistentials))
  ∧ forall st,
      convertExistentialArgTypesToGenericArgTypes Demo.E Demo.Q
        Demo.QExistentials = Some st ->
      forall Idx,
        is_Some (ArgToGenericTypeMap st !! Idx)
        <-> Idx ∈ (fst <$> Demo.QExistentials).
Proof.
  exact (synthesizer_returns_iff_keys_valid Demo.E Demo.Q Demo.QExistentials).
Defined.

Lemma cloner_builds_entry_iff_clonable_witness :
  is_Some (cloneArguments Demo.E Demo.KNewF Demo.KArgMap Demo.KExistentials
             Demo.KArgs)
  <-> Forall (clonable Demo.E Demo.KNewF Demo.KArgMap) Demo.KArgs.
Proof.
  exact (cloner_builds_entry_iff_clonable Demo.E Demo.KNewF Demo.KArgMap
           Demo.KExistentials Demo.KArgs).
Defined.

Lemma thunk_builder_returns_iff_forwardable_witness :
  is_Some (populateThunkBody Demo.E Demo.K Demo.KNewF Demo.KArgMap
             Demo.KExistentials Demo.KArgs)
  <-> Forall (forwardable Demo.E Demo.KArgMap Demo.KExistentials
                (length Demo.KArgs)) Demo.KArgs
      ∧ Forall (replaceable Demo.K Demo.KArgMap Demo.KExistentials Demo.KArgs)
          (getGenericParams
             (getInvocationGenericSignature
                (getLoweredFunctionType Demo.KNewF))).
Proof.
  exact (thunk_builder_returns_iff_forwardable Demo.E Demo.K Demo.KNewF
           Demo.KArgMap Demo.KExistentials Demo.KArgs).
Defined.
